(** * Phonon solver of phonopy's anharmonic C core (phonoc_utils.c)

    A shallow embedding of [c/anharmonic/phonoc_utils.c]: the undone-point
    scheduler ([collect_undone_grid_points], [set_phonons_at_gridpoints],
    [get_undone_phonons]), the per-q solver [get_phonons] and the phase
    factor [get_phase_factor].

    Conventions.
    - C [int] and [char] values are [Z]; the indices met in a defined
      execution are far below the overflow bound, and signed overflow is
      undefined in C, so no wrap-around is written.
    - A C array is a [list]; reading through a pointer is [aref], writing is
      [aset].  Out of range C is undefined: here a read gives the default
      and a write does nothing, and the theorems that depend on it carry the
      range as a hypothesis.
    - [double] arithmetic is an interface ([Double]) with two instances:
      [R] (exact real arithmetic, for algebraic laws) and the primitive
      binary64 floats (for evaluation on concrete inputs).
    - Functions of the repository that this file calls but that live in
      other translation units ([get_dynamical_matrix_at_q], [get_charge_sum],
      [phonopy_zheev]) are parameters. *)

From Stdlib Require Import ZArith List Bool Reals Lra Lia Psatz.
From Stdlib Require Import PrimFloat Uint63.
From Stdlib Require FloatAxioms.
From stdpp Require Import base list.

Open Scope Z_scope.

(** ** The [double] interface *)

Class Double (F : Type) := {
  of_int : Z -> F;            (* conversion (double) i *)
  dadd : F -> F -> F;
  dsub : F -> F -> F;
  dmul : F -> F -> F;
  ddiv : F -> F -> F;
  dsqrt : F -> F;             (* sqrt of math.h *)
  dfabs : F -> F;             (* fabs of math.h *)
  dlt : F -> F -> bool;       (* x < y; x > y is [dlt y x] *)
  d1em10 : F                  (* the literal 1e-10 *)
}.

Declare Scope dbl_scope.
Delimit Scope dbl_scope with D.
Infix "+" := dadd : dbl_scope.
Infix "-" := dsub : dbl_scope.
Infix "*" := dmul : dbl_scope.
Infix "/" := ddiv : dbl_scope.

(** Exact reals.  The division is [Rdiv], which is total and gives
    [x / 0 = 0] where binary64 gives an infinity or a NaN: a property of a
    quotient is stated over [R] with its divisor not zero, and a division by
    zero is read in binary64. *)
Definition Rltb (x y : R) : bool := if Rlt_dec x y then true else false.

#[export] Instance Double_R : Double R := {|
  of_int := IZR;
  dadd := Rplus; dsub := Rminus; dmul := Rmult; ddiv := Rdiv;
  dsqrt := R_sqrt.sqrt; dfabs := Rabs;
  dlt := Rltb;
  d1em10 := (1 / 10 ^ 10)%R
|}.

(** IEEE binary64. *)
Definition float_of_Z (z : Z) : float :=
  if z <? 0 then PrimFloat.opp (PrimFloat.of_uint63 (Uint63.of_Z (- z)))
  else PrimFloat.of_uint63 (Uint63.of_Z z).

#[export] Instance Double_float : Double float := {|
  of_int := float_of_Z;
  dadd := PrimFloat.add; dsub := PrimFloat.sub;
  dmul := PrimFloat.mul; ddiv := PrimFloat.div;
  dsqrt := PrimFloat.sqrt; dfabs := PrimFloat.abs;
  dlt := PrimFloat.ltb;
  d1em10 := 0x1.b7cdfd9d7bdbbp-34%float
|}.

(** ** Arrays *)

Definition aref {A} (d : A) (l : list A) (i : Z) : A := nth (Z.to_nat i) l d.
Definition aset {A} (l : list A) (i : Z) (x : A) : list A := <[Z.to_nat i := x]> l.

(** The cells reachable from the pointer [data + off], and the buffer after
    those cells have been replaced by [cells]. *)
Definition at_offset {A} (data : list A) (off : Z) : list A :=
  drop (Z.to_nat off) data.
Definition store_back {A} (data : list A) (off : Z) (cells : list A) : list A :=
  list_inserts (Z.to_nat off) cells data.

(** phonoc_array.h: [Darray], [Carray] and [Iarray] are a [dims] vector and
    a flat [data] pointer. *)
Record lapack_complex_double (F : Type) := lapack_make_complex_double {
  creal : F;
  cimag : F
}.
Arguments lapack_make_complex_double {F} _ _.
Arguments creal {F} _.
Arguments cimag {F} _.

Record Darray (F : Type) := mkDarray { d_dims : list Z; d_data : list F }.
Record Carray (F : Type) := mkCarray {
  c_dims : list Z;
  c_data : list (lapack_complex_double F)
}.
Record Iarray := mkIarray { i_dims : list Z; i_data : list Z }.
Arguments mkDarray {F} _ _.
Arguments d_dims {F} _.
Arguments d_data {F} _.
Arguments mkCarray {F} _ _.
Arguments c_dims {F} _.
Arguments c_data {F} _.

(** ** The interfaces of the other translation units *)

(** dynmat.h.  [get_dynamical_matrix_at_q] accumulates the dynamical matrix
    into [dm_real], [dm_imag]; its arguments, in the order of the call, are
    dm_real dm_imag num_patom num_satom fc2 q svecs multi masses s2p p2s
    charge_sum ([None] is NULL).  [get_charge_sum] fills the freshly
    allocated [charge_sum] from num_patom factor q_cart born. *)
Class Dynmat (F : Type) := {
  get_dynamical_matrix_at_q :
    list F -> list F -> Z -> Z -> list F -> list F -> list F -> list Z ->
    list F -> list Z -> list Z -> option (list F) -> list F * list F;
  get_charge_sum : Z -> F -> list F -> list F -> list F
}.

(** lapack_wrapper.h.  [phonopy_zheev w a n uplo] returns [info] and leaves
    the eigenvalues in [w] and the eigenvectors in [a]. *)
Class LapackWrapper (F : Type) := {
  phonopy_zheev :
    list F -> list (lapack_complex_double F) -> Z -> Z ->
    Z * list F * list (lapack_complex_double F)
}.

(** ** The undone-point scheduler: [collect_undone_grid_points] *)

(** One iteration of the loop: the state is ([undone], [phonon_done]);
    [num_undone] is the length of [undone]. *)
Definition collect_step (st : list Z * list Z) (gp : Z) : list Z * list Z :=
  if aref 0 st.2 gp =? 0
  then (st.1 ++ [gp], aset st.2 gp 1)
  else st.

Definition collect_loop (st : list Z * list Z) (gps : list Z) : list Z * list Z :=
  foldl collect_step st gps.

(** Returns ([num_undone], [undone], [phonon_done]). *)
Definition collect_undone_grid_points
    (phonon_done : list Z) (num_grid_points : Z) (grid_points : list Z)
  : Z * list Z * list Z :=
  let st := collect_loop ([], phonon_done)
              (map (aref 0 grid_points) (seqZ 0 num_grid_points)) in
  (Z.of_nat (length st.1), st.1, st.2).

(** ** The per-q solver: [get_phonons] *)

Section Solver.
Context {F : Type} {DF : Double F} {DY : Dynmat F} {LW : LapackWrapper F}.
Local Open Scope dbl_scope.

Notation "0.0" := (of_int 0%Z) (only parsing).

(** [out[i] = 0.0; for j < 3: out[i] += m[i * 3 + j] * v[j]] for [i < 3]. *)
Definition mat3_vec (m v : list F) : list F :=
  foldl (fun q_cart i =>
           foldl (fun q_cart j =>
                    aset q_cart i
                      (aref 0.0 q_cart i + aref 0.0 m (i * 3 + j)%Z * aref 0.0 v j))
                 (aset q_cart i 0.0) (seqZ 0 3))
        (replicate 3 0.0) (seqZ 0 3).

(** Lines 228-235. *)
Definition inv_dielectric_factor (dielectric q_cart : list F) : F :=
  foldl (fun acc i =>
           let tmp_val :=
             foldl (fun t j => t + aref 0.0 dielectric (i * 3 + j)%Z * aref 0.0 q_cart j)
                   0.0 (seqZ 0 3) in
           acc + tmp_val * aref 0.0 q_cart i)
        0.0 (seqZ 0 3).

(** Lines 238-239. *)
Definition dielectric_factor
    (nac_factor inv_df : F) (num_satom num_patom : Z) : F :=
  nac_factor / inv_df / of_int num_satom * of_int num_patom.

(** The test of line 207-208. *)
Definition q_is_zero (q : list F) : bool :=
  dlt (dfabs (aref 0.0 q 0)) d1em10 &&
  dlt (dfabs (aref 0.0 q 1)) d1em10 &&
  dlt (dfabs (aref 0.0 q 2)) d1em10.

(** Lines 212-226: the Cartesian wavevector of the correction. *)
Definition nac_q_cart
    (q reciprocal_lattice : list F) (q_direction : option (list F)) : list F :=
  match q_direction with
  | Some d => mat3_vec reciprocal_lattice d
  | None => mat3_vec reciprocal_lattice q
  end.

(** Lines 206-248: the value of [charge_sum] ([None] is NULL). *)
Definition nac_charge_sum
    (num_patom num_satom : Z) (q : list F)
    (born : option (list F)) (dielectric reciprocal_lattice : list F)
    (q_direction : option (list F)) (nac_factor : F) : option (list F) :=
  match born with
  | Some b =>
      if q_is_zero q && negb (bool_decide (is_Some q_direction))
      then None
      else
        let q_cart := nac_q_cart q reciprocal_lattice q_direction in
        let inv_df := inv_dielectric_factor dielectric q_cart in
        Some (get_charge_sum num_patom
                (dielectric_factor nac_factor inv_df num_satom num_patom)
                q_cart b)
  | None => None
  end.

(** Lines 266-272. *)
Definition hermitize_cell (n : Z) (dm_real dm_imag : list F) (i j : Z) : lapack_complex_double F :=
  lapack_make_complex_double
    ((aref 0.0 dm_real (i * n + j)%Z + aref 0.0 dm_real (j * n + i)%Z) / of_int 2)
    ((aref 0.0 dm_imag (i * n + j)%Z - aref 0.0 dm_imag (j * n + i)%Z) / of_int 2).

(** The inner loop, over [j], for the row [i]. *)
Definition hermitize_row
    (n : Z) (dm_real dm_imag : list F) (a : list (lapack_complex_double F)) (i : Z)
  : list (lapack_complex_double F) :=
  foldl (fun a j => aset a (i * n + j)%Z (hermitize_cell n dm_real dm_imag i j))
        a (seqZ 0 n).

Definition hermitize
    (num_patom : Z) (dm_real dm_imag : list F) (a : list (lapack_complex_double F))
  : list (lapack_complex_double F) :=
  foldl (hermitize_row (num_patom * 3) dm_real dm_imag) a (seqZ 0 (num_patom * 3)).

(** Line 282: [sqrt(fabs(w)) * ((w > 0) - (w < 0)) * unit_conversion_factor]. *)
Definition frequency (unit_conversion_factor w : F) : F :=
  dsqrt (dfabs w)
  * of_int (Z.b2z (dlt 0.0 w) - Z.b2z (dlt w 0.0))
  * unit_conversion_factor.

(** Lines 280-283. *)
Definition convert_frequencies
    (num_patom : Z) (unit_conversion_factor : F) (w : list F) : list F :=
  foldl (fun w i => aset w i (frequency unit_conversion_factor (aref 0.0 w i)))
        w (seqZ 0 (num_patom * 3)).

(** Lines 195-261: ([dm_real], [dm_imag]) as [get_dynamical_matrix_at_q]
    leaves them. *)
Definition get_phonons_dm
    (q : list F) (fc2 : Darray F) (masses : list F)
    (p2s s2p : list Z) (multi : Iarray) (svecs : Darray F)
    (born : option (list F)) (dielectric reciprocal_lattice : list F)
    (q_direction : option (list F)) (nac_factor : F) : list F * list F :=
  let num_patom := aref 0%Z (i_dims multi) 1 in
  let num_satom := aref 0%Z (i_dims multi) 0 in
  let dm_real := replicate (Z.to_nat (num_patom * num_patom * 9)) 0.0 in
  let dm_imag := replicate (Z.to_nat (num_patom * num_patom * 9)) 0.0 in
  let charge_sum :=
    nac_charge_sum num_patom num_satom q born dielectric reciprocal_lattice
      q_direction nac_factor in
  get_dynamical_matrix_at_q dm_real dm_imag num_patom num_satom
    (d_data fc2) q (d_data svecs) (i_data multi) masses s2p p2s charge_sum.

(** Lines 195-272: the matrix given to the eigensolver. *)
Definition get_phonons_matrix
    (a : list (lapack_complex_double F)) (q : list F) (fc2 : Darray F) (masses : list F)
    (p2s s2p : list Z) (multi : Iarray) (svecs : Darray F)
    (born : option (list F)) (dielectric reciprocal_lattice : list F)
    (q_direction : option (list F)) (nac_factor : F) : list (lapack_complex_double F) :=
  let num_patom := aref 0%Z (i_dims multi) 1 in
  let dm :=
    get_phonons_dm q fc2 masses p2s s2p multi svecs born dielectric
      reciprocal_lattice q_direction nac_factor in
  hermitize num_patom dm.1 dm.2 a.

(** Returns ([info], [a], [w]). *)
Definition get_phonons
    (a : list (lapack_complex_double F)) (w : list F) (q : list F) (fc2 : Darray F)
    (masses : list F) (p2s s2p : list Z) (multi : Iarray) (svecs : Darray F)
    (born : option (list F)) (dielectric reciprocal_lattice : list F)
    (q_direction : option (list F)) (nac_factor unit_conversion_factor : F)
    (uplo : Z) : Z * list (lapack_complex_double F) * list F :=
  let num_patom := aref 0%Z (i_dims multi) 1 in
  let a := get_phonons_matrix a q fc2 masses p2s s2p multi svecs born
             dielectric reciprocal_lattice q_direction nac_factor in
  let '(info, w, a) := phonopy_zheev w a (num_patom * 3) uplo in
  (info, a, convert_frequencies num_patom unit_conversion_factor w).

(** ** The batch: [get_undone_phonons] and [set_phonons_at_gridpoints] *)

(** Line 132. *)
Definition grid_point_q (grid_address mesh : list Z) (gp : Z) : list F :=
  foldl (fun q j =>
           aset q j (of_int (aref 0%Z grid_address (gp * 3 + j)) / of_int (aref 0%Z mesh j)))
        (replicate 3 0.0) (seqZ 0 3).

(** The body of the loop of lines 129-170, on the two output buffers.  The
    pointers [eigenvectors->data + num_band * num_band * gp] and
    [frequencies->data + num_band * gp] are the cells from those offsets on;
    the value returned by [get_phonons] is dropped, as in the source. *)
Definition undone_step
    (grid_address mesh : list Z) (fc2 svecs_fc2 : Darray F) (multi_fc2 : Iarray)
    (masses_fc2 : list F) (p2s_fc2 s2p_fc2 : list Z) (unit_conversion_factor : F)
    (born : option (list F)) (dielectric reciprocal_lattice : list F)
    (q_direction : option (list F)) (nac_factor : F) (uplo : Z)
    (st : Darray F * Carray F) (gp : Z) : Darray F * Carray F :=
  let num_band := aref 0%Z (d_dims st.1) 1 in
  let q := grid_point_q grid_address mesh gp in
  let off_a := (num_band * num_band * gp)%Z in
  let off_w := (num_band * gp)%Z in
  let r :=
    if gp =? 0
    then get_phonons (at_offset (c_data st.2) off_a) (at_offset (d_data st.1) off_w)
           q fc2 masses_fc2 p2s_fc2 s2p_fc2 multi_fc2 svecs_fc2
           born dielectric reciprocal_lattice q_direction
           nac_factor unit_conversion_factor uplo
    else get_phonons (at_offset (c_data st.2) off_a) (at_offset (d_data st.1) off_w)
           q fc2 masses_fc2 p2s_fc2 s2p_fc2 multi_fc2 svecs_fc2
           born dielectric reciprocal_lattice None
           nac_factor unit_conversion_factor uplo in
  (mkDarray (d_dims st.1) (store_back (d_data st.1) off_w r.2),
   mkCarray (c_dims st.2) (store_back (c_data st.2) off_a r.1.2)).

(** The [omp parallel for] is run in index order. *)
Definition get_undone_phonons
    (frequencies : Darray F) (eigenvectors : Carray F)
    (undone_grid_points : list Z) (num_undone_grid_points : Z)
    (grid_address mesh : list Z) (fc2 svecs_fc2 : Darray F) (multi_fc2 : Iarray)
    (masses_fc2 : list F) (p2s_fc2 s2p_fc2 : list Z) (unit_conversion_factor : F)
    (born : option (list F)) (dielectric reciprocal_lattice : list F)
    (q_direction : option (list F)) (nac_factor : F) (uplo : Z)
  : Darray F * Carray F :=
  foldl (undone_step grid_address mesh fc2 svecs_fc2 multi_fc2 masses_fc2
           p2s_fc2 s2p_fc2 unit_conversion_factor born dielectric
           reciprocal_lattice q_direction nac_factor uplo)
        (frequencies, eigenvectors)
        (map (aref 0%Z undone_grid_points) (seqZ 0 num_undone_grid_points)).

(** Returns the three caller-owned buffers after the call.  The scratch
    array [undone] has room for [frequencies->dims[0]] entries, one per grid
    point. *)
Definition set_phonons_at_gridpoints
    (frequencies : Darray F) (eigenvectors : Carray F) (phonon_done : list Z)
    (grid_points : Iarray)
    (grid_address mesh : list Z) (fc2 svecs_fc2 : Darray F) (multi_fc2 : Iarray)
    (masses_fc2 : list F) (p2s_fc2 s2p_fc2 : list Z) (unit_conversion_factor : F)
    (born : option (list F)) (dielectric reciprocal_lattice : list F)
    (q_direction : option (list F)) (nac_factor : F) (uplo : Z)
  : Darray F * Carray F * list Z :=
  let '(num_undone, undone, phonon_done) :=
    collect_undone_grid_points phonon_done
      (aref 0%Z (i_dims grid_points) 0) (i_data grid_points) in
  (get_undone_phonons frequencies eigenvectors undone num_undone
     grid_address mesh fc2 svecs_fc2 multi_fc2 masses_fc2 p2s_fc2 s2p_fc2
     unit_conversion_factor born dielectric reciprocal_lattice q_direction
     nac_factor uplo,
   phonon_done).

End Solver.

(** ** The phase factor: [get_phase_factor] *)

(** [cos] and [sin] of math.h. *)
Class DoubleTrig (F : Type) := {
  dcos : F -> F;
  dsin : F -> F
}.

#[export] Instance DoubleTrig_R : DoubleTrig R := {|
  dcos := cos;
  dsin := sin
|}.

Section Phase.
Context {F : Type} {DF : Double F} {DT : DoubleTrig F}.
Local Open Scope dbl_scope.

Notation "0.0" := (of_int 0%Z) (only parsing).

(** phonoc_math.h: the macro [M_2PI]. *)
Variable M_2PI : F.

(** Lines 307-310: [q[qi * 3 + j] * svecs[i * 3 + j]] summed over [j < 3]. *)
Definition phase_of (q svecs : list F) (qi i : Z) : F :=
  foldl (fun phase j =>
           phase + aref 0.0 q (qi * 3 + j)%Z * aref 0.0 svecs (i * 3 + j)%Z)
        0.0 (seqZ 0 3).

(** Lines 304-313: ([sum_real], [sum_imag]) after the loop over [i < multi]. *)
Definition phase_sums (q svecs : list F) (qi multi : Z) : F * F :=
  foldl (fun s i =>
           let phase := phase_of q svecs qi i in
           (s.1 + dcos (M_2PI * phase), s.2 + dsin (M_2PI * phase)))
        (0.0, 0.0) (seqZ 0 multi).

Definition get_phase_factor
    (q : list F) (shortest_vectors : Darray F) (multiplicity : Iarray)
    (pi0 si qi : Z) : lapack_complex_double F :=
  let svecs :=
    at_offset (d_data shortest_vectors)
      (si * aref 0%Z (d_dims shortest_vectors) 1
          * aref 0%Z (d_dims shortest_vectors) 2 * 3
       + pi0 * aref 0%Z (d_dims shortest_vectors) 2 * 3)%Z in
  let multi :=
    aref 0%Z (i_data multiplicity)
      (si * aref 0%Z (i_dims multiplicity) 1 + pi0)%Z in
  let s := phase_sums q svecs qi multi in
  lapack_make_complex_double (s.1 / of_int multi) (s.2 / of_int multi).

End Phase.

(** ** Collaborators to run the code with

    Small implementations of the two interfaces, for evaluating the
    embedding on concrete inputs. *)

Section Collaborators.
Context {F : Type} {DF : Double F}.
Local Open Scope dbl_scope.

Notation "0.0" := (of_int 0%Z) (only parsing).

(** One primitive atom in a one-atom supercell with a zero shortest vector:
    the lattice sum has the single term of phase 1, so that
    [dm_real[k] += (fc2[k] + charge_sum[k]) / sqrt(mass * mass)]. *)
Definition one_atom_dynamical_matrix
    (dm_real dm_imag : list F) (num_patom num_satom : Z) (fc2 q svecs : list F)
    (multi : list Z) (masses : list F) (s2p p2s : list Z)
    (charge_sum : option (list F)) : list F * list F :=
  let mass_sqrt := dsqrt (aref 0.0 masses 0 * aref 0.0 masses 0) in
  (foldl (fun dm k =>
            let fc_elem :=
              match charge_sum with
              | Some c => aref 0.0 fc2 k + aref 0.0 c k
              | None => aref 0.0 fc2 k
              end in
            aset dm k (aref 0.0 dm k + fc_elem / mass_sqrt))
         dm_real (seqZ 0 9),
   dm_imag).

(** One primitive atom: [q_born[a]] is the sum over [k] of
    [q_cart[k] * born[k * 3 + a]] and
    [charge_sum[a * 3 + b] = q_born[a] * q_born[b] * factor]. *)
Definition one_atom_charge_sum
    (num_patom : Z) (factor : F) (q_cart born : list F) : list F :=
  let q_born a :=
    foldl (fun s k => s + aref 0.0 q_cart k * aref 0.0 born (k * 3 + a)%Z)
          0.0 (seqZ 0 3) in
  map (fun ab => q_born (ab / 3)%Z * q_born (ab mod 3)%Z * factor) (seqZ 0 9).

#[local] Instance one_atom_dynmat : Dynmat F := {|
  get_dynamical_matrix_at_q := one_atom_dynamical_matrix;
  get_charge_sum := one_atom_charge_sum
|}.

(** A solver for matrices that are diagonal with an ascending diagonal:
    the eigenvalues are the diagonal, the eigenvectors the unit vectors. *)
Definition diagonal_zheev
    (w : list F) (a : list (lapack_complex_double F)) (n uplo : Z)
  : Z * list F * list (lapack_complex_double F) :=
  (0%Z,
   foldl (fun w i => aset w i (creal (aref (lapack_make_complex_double 0.0 0.0) a (i * n + i)%Z)))
         w (seqZ 0 n),
   foldl (fun a k =>
            aset a k (lapack_make_complex_double
                        (of_int (Z.b2z (k / n =? k mod n)%Z)) 0.0))
         a (seqZ 0 (n * n))).

(** The diagonal solver with a check: when the entry (0, 1) of the matrix
    is not zero it reports status 1 and leaves both buffers as they were. *)
Definition checking_zheev
    (w : list F) (a : list (lapack_complex_double F)) (n uplo : Z)
  : Z * list F * list (lapack_complex_double F) :=
  if dlt 0.0 (dfabs (creal (aref (lapack_make_complex_double 0.0 0.0) a 1)))
  then (1%Z, w, a)
  else diagonal_zheev w a n uplo.

(** The solver [lw] with its status replaced by 0. *)
Definition silenced (lw : LapackWrapper F) : LapackWrapper F := {|
  phonopy_zheev w a n uplo :=
    let r := @phonopy_zheev F lw w a n uplo in (0%Z, r.1.2, r.2)
|}.

End Collaborators.

(** ** Vocabulary of the statements *)

Definition in_range {A} (l : list A) (i : Z) : Prop :=
  0 <= i < Z.of_nat (length l).

(** A request list whose [dims[0]] is the number of its entries. *)
Definition request_ok (grid_points : Iarray) : Prop :=
  aref 0 (i_dims grid_points) 0 = Z.of_nat (length (i_data grid_points)).

(** The read-only arguments of one batch call. *)
Record Tables (F : Type) := mkTables {
  grid_address : list Z;
  mesh : list Z;
  fc2 : Darray F;
  svecs_fc2 : Darray F;
  multi_fc2 : Iarray;
  masses_fc2 : list F;
  p2s_fc2 : list Z;
  s2p_fc2 : list Z;
  unit_conversion_factor : F;
  born : option (list F);
  dielectric : list F;
  reciprocal_lattice : list F;
  q_direction : option (list F);
  nac_factor : F;
  uplo : Z
}.
Arguments mkTables {F}.
Arguments grid_address {F} _.
Arguments mesh {F} _.
Arguments fc2 {F} _.
Arguments svecs_fc2 {F} _.
Arguments multi_fc2 {F} _.
Arguments masses_fc2 {F} _.
Arguments p2s_fc2 {F} _.
Arguments s2p_fc2 {F} _.
Arguments unit_conversion_factor {F} _.
Arguments born {F} _.
Arguments dielectric {F} _.
Arguments reciprocal_lattice {F} _.
Arguments q_direction {F} _.
Arguments nac_factor {F} _.
Arguments uplo {F} _.

Definition with_direction {F} (t : Tables F) (d : option (list F)) : Tables F :=
  mkTables (grid_address t) (mesh t) (fc2 t) (svecs_fc2 t) (multi_fc2 t)
    (masses_fc2 t) (p2s_fc2 t) (s2p_fc2 t) (unit_conversion_factor t) (born t)
    (dielectric t) (reciprocal_lattice t) d (nac_factor t) (uplo t).

Definition with_born {F} (t : Tables F) (b : option (list F)) : Tables F :=
  mkTables (grid_address t) (mesh t) (fc2 t) (svecs_fc2 t) (multi_fc2 t)
    (masses_fc2 t) (p2s_fc2 t) (s2p_fc2 t) (unit_conversion_factor t) b
    (dielectric t) (reciprocal_lattice t) (q_direction t) (nac_factor t) (uplo t).

Section Calls.
Context {F : Type} {DF : Double F} {DY : Dynmat F} {LW : LapackWrapper F}.

(** [set_phonons_at_gridpoints] on the tables [t]. *)
Definition batch_call (t : Tables F)
    (frequencies : Darray F) (eigenvectors : Carray F) (phonon_done : list Z)
    (grid_points : Iarray) : Darray F * Carray F * list Z :=
  set_phonons_at_gridpoints frequencies eigenvectors phonon_done grid_points
    (grid_address t) (mesh t) (fc2 t) (svecs_fc2 t) (multi_fc2 t)
    (masses_fc2 t) (p2s_fc2 t) (s2p_fc2 t) (unit_conversion_factor t) (born t)
    (dielectric t) (reciprocal_lattice t) (q_direction t) (nac_factor t) (uplo t).

(** The buffers after the batch calls [later], made one after the other. *)
Definition run_batches (t : Tables F)
    (st : Darray F * Carray F * list Z) (later : list Iarray)
  : Darray F * Carray F * list Z :=
  foldl (fun st req => batch_call t st.1.1 st.1.2 st.2 req) st later.

(** One iteration of the loop of [get_undone_phonons] on the tables [t]. *)
Definition solve_point (t : Tables F)
    (st : Darray F * Carray F) (gp : Z) : Darray F * Carray F :=
  undone_step (grid_address t) (mesh t) (fc2 t) (svecs_fc2 t) (multi_fc2 t)
    (masses_fc2 t) (p2s_fc2 t) (s2p_fc2 t) (unit_conversion_factor t) (born t)
    (dielectric t) (reciprocal_lattice t) (q_direction t) (nac_factor t) (uplo t)
    st gp.

(** [get_phonons] for the wavevector [q] on the tables [t], with the
    limiting direction [d]. *)
Definition solve_q (t : Tables F) (d : option (list F))
    (a : list (lapack_complex_double F)) (w q : list F)
  : Z * list (lapack_complex_double F) * list F :=
  get_phonons a w q (fc2 t) (masses_fc2 t) (p2s_fc2 t) (s2p_fc2 t)
    (multi_fc2 t) (svecs_fc2 t) (born t) (dielectric t) (reciprocal_lattice t)
    d (nac_factor t) (unit_conversion_factor t) (uplo t).

(** Inside [solve_q]: the number of bands, the charge-sum tensor, the raw
    matrix and the matrix given to the eigensolver. *)
Definition num_band_of (t : Tables F) : Z := aref 0 (i_dims (multi_fc2 t)) 1 * 3.

Definition charge_sum_of (t : Tables F) (d : option (list F)) (q : list F)
  : option (list F) :=
  nac_charge_sum (aref 0 (i_dims (multi_fc2 t)) 1) (aref 0 (i_dims (multi_fc2 t)) 0)
    q (born t) (dielectric t) (reciprocal_lattice t) d (nac_factor t).

Definition raw_matrix (t : Tables F) (d : option (list F)) (q : list F)
  : list F * list F :=
  get_phonons_dm q (fc2 t) (masses_fc2 t) (p2s_fc2 t) (s2p_fc2 t)
    (multi_fc2 t) (svecs_fc2 t) (born t) (dielectric t) (reciprocal_lattice t)
    d (nac_factor t).

Definition solver_matrix (t : Tables F) (d : option (list F))
    (a : list (lapack_complex_double F)) (q : list F)
  : list (lapack_complex_double F) :=
  get_phonons_matrix a q (fc2 t) (masses_fc2 t) (p2s_fc2 t) (s2p_fc2 t)
    (multi_fc2 t) (svecs_fc2 t) (born t) (dielectric t) (reciprocal_lattice t)
    d (nac_factor t).

(** The grid points for which a batch call, started with the flags
    [phonon_done], runs the solver. *)
Definition selected (phonon_done : list Z) (grid_points : Iarray) : list Z :=
  (collect_undone_grid_points phonon_done
     (aref 0 (i_dims grid_points) 0) (i_data grid_points)).1.2.

(** The flags after that call. *)
Definition flags_after (phonon_done : list Z) (grid_points : Iarray) : list Z :=
  (collect_undone_grid_points phonon_done
     (aref 0 (i_dims grid_points) 0) (i_data grid_points)).2.

End Calls.

(** Two buffers that differ at most in the cells [off .. off + len - 1]. *)
Definition agree_outside {A} (off len : nat) (l l' : list A) : Prop :=
  length l' = length l /\
  forall k, (k < off \/ off + len <= k)%nat -> l' !! k = l !! k.

(** A solver that keeps to its arguments: of the cells reachable from [w]
    and [a] it changes at most the first [n] and the first [n * n]. *)
Definition zheev_local {F} (LW : LapackWrapper F) (n : Z) : Prop :=
  forall w a uplo,
    let s := phonopy_zheev w a n uplo in
    length s.1.2 = length w /\
    drop (Z.to_nat n) s.1.2 = drop (Z.to_nat n) w /\
    length s.2 = length a /\
    drop (Z.to_nat (n * n)) s.2 = drop (Z.to_nat (n * n)) a.

(** A request list with as many entries as [dims[0]] says, none negative. *)
Definition request_wf (grid_points : Iarray) : Prop :=
  request_ok grid_points /\ Forall (fun gp => 0 <= gp) (i_data grid_points).

(** The slot of the grid point [gp] in the two output buffers, for
    [num_band] bands. *)
Definition frequencies_at {F} (num_band : Z) (frequencies : Darray F) (gp : Z)
  : list F :=
  take (Z.to_nat num_band) (at_offset (d_data frequencies) (num_band * gp)).

Definition eigenvectors_at {F} (num_band : Z) (eigenvectors : Carray F) (gp : Z)
  : list (lapack_complex_double F) :=
  take (Z.to_nat (num_band * num_band))
    (at_offset (c_data eigenvectors) (num_band * num_band * gp)).

(** Modelled from the spec: the macro [M_2PI] of phonoc_math.h, which is not
    part of the file embedded here; the spec gives the phase as
    exp(i 2 pi q . v), so the constant is 2 pi. *)
Definition M_2PI_R : R := (2 * PI)%R.

(** [get_phase_factor] over the reals. *)
Definition get_phase_factor_R
    (q : list R) (shortest_vectors : Darray R) (multiplicity : Iarray)
    (pi0 si qi : Z) : lapack_complex_double R :=
  get_phase_factor M_2PI_R q shortest_vectors multiplicity pi0 si qi.

(** Complex conjugate and modulus over the reals. *)
Definition cconj (z : lapack_complex_double R) : lapack_complex_double R :=
  lapack_make_complex_double (creal z) (- cimag z)%R.

Definition cabs (z : lapack_complex_double R) : R :=
  R_sqrt.sqrt (creal z * creal z + cimag z * cimag z)%R.

Definition czero {F} {DF : Double F} : lapack_complex_double F :=
  lapack_make_complex_double (of_int 0) (of_int 0).

(** The sign of a real, with [sgn 0 = 0]. *)
Definition sgn (x : R) : R :=
  if Rlt_dec 0 x then 1%R else if Rlt_dec x 0 then (-1)%R else 0%R.

Definition sum_R (l : list R) : R := foldr Rplus 0%R l.

(** ** A one-atom crystal to run the code on

    One primitive atom of unit mass in a one-atom supercell, force constants
    diag(1, 4, 9), a 2 x 2 x 2 mesh of which the grid points 0 (the zero
    wavevector) and 1 (q = (1/2, 0, 0)) are stored. *)

Definition diagonal_lapack {F} {DF : Double F} : LapackWrapper F :=
  {| phonopy_zheev := diagonal_zheev |}.

Definition checking_lapack {F} {DF : Double F} : LapackWrapper F :=
  {| phonopy_zheev := checking_zheev |}.

Definition demo_tables {F} {DF : Double F} : Tables F := {|
  grid_address := [0; 0; 0; 1; 0; 0];
  mesh := [2; 2; 2];
  fc2 := mkDarray [1; 1; 3; 3] (map of_int [1; 0; 0; 0; 4; 0; 0; 0; 9]);
  svecs_fc2 := mkDarray [1; 1; 1; 3] (map of_int [0; 0; 0]);
  multi_fc2 := mkIarray [1; 1] [1];
  masses_fc2 := [of_int 1];
  p2s_fc2 := [0];
  s2p_fc2 := [0];
  unit_conversion_factor := of_int 1;
  born := None;
  dielectric := [];
  reciprocal_lattice := [];
  q_direction := None;
  nac_factor := of_int 1;
  uplo := 85
|}.

(** The same crystal with Born charges and the dielectric tensor [e]. *)
Definition demo_polar_with {F} {DF : Double F} (e : list Z) : Tables F := {|
  grid_address := [0; 0; 0; 1; 0; 0];
  mesh := [2; 2; 2];
  fc2 := mkDarray [1; 1; 3; 3] (map of_int [1; 0; 0; 0; 4; 0; 0; 0; 9]);
  svecs_fc2 := mkDarray [1; 1; 1; 3] (map of_int [0; 0; 0]);
  multi_fc2 := mkIarray [1; 1] [1];
  masses_fc2 := [of_int 1];
  p2s_fc2 := [0];
  s2p_fc2 := [0];
  unit_conversion_factor := of_int 1;
  born := Some (map of_int [1; 1; 1; 0; 1; 0; 0; 0; 1]);
  dielectric := map of_int e;
  reciprocal_lattice := map of_int [1; 0; 0; 0; 1; 0; 0; 0; 1];
  q_direction := None;
  nac_factor := of_int 1;
  uplo := 85
|}.

(** The unit dielectric tensor. *)
Definition demo_polar_unit {F} {DF : Double F} : Tables F :=
  demo_polar_with [1; 0; 0; 0; 1; 0; 0; 0; 1].

(** A dielectric tensor diag(0, 1, 1), with no response along the first
    axis. *)
Definition demo_polar_tables {F} {DF : Double F} : Tables F :=
  demo_polar_with [0; 0; 0; 0; 1; 0; 0; 0; 1].

Definition demo_frequencies {F} {DF : Double F} : Darray F :=
  mkDarray [2; 3] (replicate 6 (of_int 0)).

Definition demo_eigenvectors {F} {DF : Double F} : Carray F :=
  mkCarray [2; 3; 3] (replicate 18 czero).

Definition demo_done : list Z := [0; 0].

Definition demo_request : Iarray := mkIarray [3] [1; 1; 0].

(** ** The occupation functions and the Gaussian (lines 320-333) *)

(** [exp] and [sinh] of math.h, unary minus, and the constants of lines
    43-44. *)
Class DoubleExp (F : Type) := {
  dneg : F -> F;
  dexp : F -> F;
  dsinh : F -> F;
  THZTOEVPARKB : F;           (* 47.992398658977166 *)
  INVSQRT2PI : F              (* 0.3989422804014327 *)
}.

#[export] Instance DoubleExp_R : DoubleExp R := {|
  dneg := Ropp;
  dexp := exp;
  dsinh := sinh;
  THZTOEVPARKB := 47.992398658977166%R;
  INVSQRT2PI := 0.3989422804014327%R
|}.

Section Occupation.
Context {F : Type} {DF : Double F} {DE : DoubleExp F}.
Local Open Scope dbl_scope.

Definition bose_einstein (x t : F) : F :=
  of_int 1 / (dexp (THZTOEVPARKB * x / t) - of_int 1).

Definition gaussian (x sigma : F) : F :=
  INVSQRT2PI / sigma * dexp (dneg x * x / of_int 2 / sigma / sigma).

Definition inv_sinh_occupation (x t : F) : F :=
  of_int 1 / dsinh (x * THZTOEVPARKB / of_int 2 / t).

End Occupation.

(** ** More vocabulary *)

(** The entries of a list in the order of their first occurrence. *)
Fixpoint first_occurrences (l : list Z) : list Z :=
  match l with
  | [] => []
  | x :: l => x :: filter (fun y => y <> x) (first_occurrences l)
  end.

(** A solver whose results in its own cells (the first [n] of [w], the
    first [n * n] of [a]) depend on those cells only. *)
Definition zheev_own {F} (LW : LapackWrapper F) (n : Z) : Prop :=
  forall w1 w2 a1 a2 uplo,
    take (Z.to_nat n) w1 = take (Z.to_nat n) w2 ->
    take (Z.to_nat (n * n)) a1 = take (Z.to_nat (n * n)) a2 ->
    take (Z.to_nat n) (phonopy_zheev w1 a1 n uplo).1.2
    = take (Z.to_nat n) (phonopy_zheev w2 a2 n uplo).1.2 /\
    take (Z.to_nat (n * n)) (phonopy_zheev w1 a1 n uplo).2
    = take (Z.to_nat (n * n)) (phonopy_zheev w2 a2 n uplo).2.

(** The two slots of the grid point [gp] lie inside the buffers. *)
Definition slot_in_range {F} (num_band : Z)
    (frequencies : Darray F) (eigenvectors : Carray F) (gp : Z) : Prop :=
  0 <= gp /\
  num_band * gp + num_band <= Z.of_nat (length (d_data frequencies)) /\
  num_band * num_band * gp + num_band * num_band
  <= Z.of_nat (length (c_data eigenvectors)).

Section OwnSlots.
Context {F : Type} {DF : Double F} {DY : Dynmat F} {LW : LapackWrapper F}.

(** [get_phonons] for the grid point [gp], run on buffers that hold the
    cells of that grid point only: the first [num_band] frequencies and the
    first [num_band * num_band] matrix cells it leaves. *)
Definition slot_result (t : Tables F) (gp : Z)
    (wslot : list F) (aslot : list (lapack_complex_double F))
  : list F * list (lapack_complex_double F) :=
  let r :=
    solve_q t (if gp =? 0 then q_direction t else None) aslot wslot
      (grid_point_q (grid_address t) (mesh t) gp) in
  (take (Z.to_nat (num_band_of t)) r.2,
   take (Z.to_nat (num_band_of t * num_band_of t)) r.1.2).

(** [get_undone_phonons] on the tables [t], for the undone list [undone]. *)
Definition undone_call (t : Tables F)
    (frequencies : Darray F) (eigenvectors : Carray F) (undone : list Z)
  : Darray F * Carray F :=
  get_undone_phonons frequencies eigenvectors undone (Z.of_nat (length undone))
    (grid_address t) (mesh t) (fc2 t) (svecs_fc2 t) (multi_fc2 t)
    (masses_fc2 t) (p2s_fc2 t) (s2p_fc2 t) (unit_conversion_factor t) (born t)
    (dielectric t) (reciprocal_lattice t) (q_direction t) (nac_factor t) (uplo t).

End OwnSlots.

(** The polar crystal with a stored table whose grid point 1 repeats the
    address (0, 0, 0) of grid point 0. *)
Definition demo_repeated_origin {F} {DF : Double F} : Tables F := {|
  grid_address := [0; 0; 0; 0; 0; 0];
  mesh := [2; 2; 2];
  fc2 := mkDarray [1; 1; 3; 3] (map of_int [1; 0; 0; 0; 4; 0; 0; 0; 9]);
  svecs_fc2 := mkDarray [1; 1; 1; 3] (map of_int [0; 0; 0]);
  multi_fc2 := mkIarray [1; 1] [1];
  masses_fc2 := [of_int 1];
  p2s_fc2 := [0];
  s2p_fc2 := [0];
  unit_conversion_factor := of_int 1;
  born := Some (map of_int [1; 1; 1; 0; 1; 0; 0; 0; 1]);
  dielectric := map of_int [1; 0; 0; 0; 1; 0; 0; 0; 1];
  reciprocal_lattice := map of_int [1; 0; 0; 0; 1; 0; 0; 0; 1];
  q_direction := None;
  nac_factor := of_int 1;
  uplo := 85
|}.

Section StalledSolver.
Context {F : Type} {DF : Double F}.

(** A solver that gives up after it has written: it stores the diagonal of
    the matrix in [w], leaves [a] as it was given, and reports status 1. *)
Definition stalled_zheev
    (w : list F) (a : list (lapack_complex_double F)) (n uplo : Z)
  : Z * list F * list (lapack_complex_double F) :=
  (1%Z, (diagonal_zheev w a n uplo).1.2, a).

End StalledSolver.

Definition stalled_lapack {F} {DF : Double F} : LapackWrapper F :=
  {| phonopy_zheev := stalled_zheev |}.

(** The one-atom crystal with a negative force constant along the first
    axis: force constants diag(-4, 1, 9). *)
Definition demo_soft_tables {F} {DF : Double F} : Tables F := {|
  grid_address := [0; 0; 0; 1; 0; 0];
  mesh := [2; 2; 2];
  fc2 := mkDarray [1; 1; 3; 3] (map of_int [-4; 0; 0; 0; 1; 0; 0; 0; 9]);
  svecs_fc2 := mkDarray [1; 1; 1; 3] (map of_int [0; 0; 0]);
  multi_fc2 := mkIarray [1; 1] [1];
  masses_fc2 := [of_int 1];
  p2s_fc2 := [0];
  s2p_fc2 := [0];
  unit_conversion_factor := of_int 1;
  born := None;
  dielectric := [];
  reciprocal_lattice := [];
  q_direction := None;
  nac_factor := of_int 1;
  uplo := 85
|}.

(** Two primitive atoms in a supercell of six atoms ([num_patom = 2],
    [num_satom = 6], three primitive cells), with dielectric tensor
    diag(2, 1, 1) and [nac_factor = 3]. *)
Definition demo_supercell_tables {F} {DF : Double F} : Tables F := {|
  grid_address := [0; 0; 0; 1; 0; 0];
  mesh := [2; 2; 2];
  fc2 := mkDarray [6; 6; 3; 3] (map of_int (replicate 324 0));
  svecs_fc2 := mkDarray [6; 2; 1; 3] (map of_int (replicate 36 0));
  multi_fc2 := mkIarray [6; 2] (replicate 12 1);
  masses_fc2 := [of_int 1; of_int 1];
  p2s_fc2 := [0; 3];
  s2p_fc2 := [0; 0; 0; 3; 3; 3];
  unit_conversion_factor := of_int 1;
  born := Some (map of_int [1; 0; 0; 0; 1; 0; 0; 0; 1;
                             -1; 0; 0; 0; -1; 0; 0; 0; -1]);
  dielectric := map of_int [2; 0; 0; 0; 1; 0; 0; 0; 1];
  reciprocal_lattice := map of_int [1; 0; 0; 0; 1; 0; 0; 0; 1];
  q_direction := None;
  nac_factor := of_int 3;
  uplo := 85
|}.

(** * Properties *)

(** ** Arrays *)

Lemma length_aset {A} (l : list A) i x : length (aset l i x) = length l.
Proof. apply length_insert. Qed.

Lemma aref_aset_eq {A} (d : A) l i x :
  in_range l i -> aref d (aset l i x) i = x.
Proof.
  intros [Hi Hl]. unfold aref, aset.
  rewrite nth_lookup, list_lookup_insert_eq; [done | lia].
Qed.

Lemma aref_aset_ne {A} (d : A) l i j x :
  0 <= i -> 0 <= j -> i <> j -> aref d (aset l i x) j = aref d l j.
Proof.
  intros Hi Hj Hne. unfold aref, aset.
  rewrite !nth_lookup, list_lookup_insert_ne; [done | lia].
Qed.

Lemma map_aref_seqZ {A} (d : A) (l : list A) :
  map (aref d l) (seqZ 0 (Z.of_nat (length l))) = l.
Proof.
  apply list_eq. intros i. rewrite list_lookup_fmap.
  destruct (decide (i < length l)%nat) as [Hi | Hi].
  - rewrite lookup_seqZ_lt by lia. simpl. unfold aref.
    replace (Z.to_nat (0 + Z.of_nat i)) with i by lia.
    rewrite nth_lookup. destruct (lookup_lt_is_Some_2 l i Hi) as [x Hx].
    by rewrite Hx.
  - rewrite lookup_seqZ_ge by lia. simpl.
    symmetry. apply lookup_ge_None. lia.
Qed.

(** ** The scheduler *)

Lemma collect_loop_cons st gp gps :
  collect_loop st (gp :: gps) = collect_loop (collect_step st gp) gps.
Proof. reflexivity. Qed.

(** What the loop computes from a state ([u], [d]): the flags, and the
    points appended to [u]. *)
Lemma collect_loop_spec gps : forall u d,
  Forall (in_range d) gps ->
  length (collect_loop (u, d) gps).2 = length d /\
  (forall x, 0 <= x ->
     aref 0 (collect_loop (u, d) gps).2 x =
     if decide (x ∈ gps /\ aref 0 d x = 0) then 1 else aref 0 d x) /\
  exists new,
    (collect_loop (u, d) gps).1 = u ++ new /\ NoDup new /\
    (forall x, x ∈ new <-> x ∈ gps /\ aref 0 d x = 0).
Proof.
  induction gps as [| gp gps IH]; intros u d Hr.
  - change (collect_loop (u, d) []) with (u, d). cbn [fst snd].
    split; [done |]. split.
    + intros x _. case_decide as Hx; [| done]. destruct Hx as [Hx _]. by apply elem_of_nil in Hx.
    + exists []. rewrite app_nil_r. split; [done |]. split; [constructor |].
      intros x. rewrite elem_of_nil. tauto.
  - apply Forall_cons in Hr as [Hgp Hr].
    assert (Hgp0 : 0 <= gp) by (unfold in_range in Hgp; lia).
    rewrite collect_loop_cons. unfold collect_step. cbn [fst snd].
    destruct (aref 0 d gp =? 0) eqn:Hd.
    + apply Z.eqb_eq in Hd.
      assert (Hr' : Forall (in_range (aset d gp 1)) gps).
      { eapply Forall_impl; [exact Hr |]. intros x. unfold in_range.
        by rewrite length_aset. }
      destruct (IH (u ++ [gp]) (aset d gp 1) Hr') as (Hlen & Hfl & new & Hu & Hnd & Hin).
      assert (Hflag : forall x, 0 <= x ->
                aref 0 (aset d gp 1) x = 0 <-> x <> gp /\ aref 0 d x = 0).
      { intros x Hx. destruct (decide (x = gp)) as [-> | Hne].
        - rewrite aref_aset_eq by done. split; [lia | tauto].
        - rewrite aref_aset_ne by lia. tauto. }
      split; [by rewrite Hlen, length_aset |]. split.
      * intros x Hx. rewrite Hfl by done.
        destruct (decide (x = gp)) as [-> | Hne].
        -- rewrite aref_aset_eq by done.
           rewrite decide_False by (intros [_ ?]; lia).
           rewrite decide_True; [done |]. split; [left | done].
        -- rewrite aref_aset_ne by lia.
           repeat case_decide; try done.
           ++ exfalso. destruct H as [? ?]. apply H0. split; [by right | done].
           ++ exfalso. destruct H0 as [H0 ?]. apply elem_of_cons in H0 as [? | ?]; [done |].
              apply H. split; done.
      * exists (gp :: new). split; [by rewrite Hu, <- app_assoc |]. split.
        -- constructor; [| done]. rewrite Hin. intros [_ H0].
           rewrite aref_aset_eq in H0 by done. lia.
        -- intros x. rewrite elem_of_cons, Hin. split.
           ++ intros [-> | [Hx H0]]; [split; [left | done] |].
              assert (0 <= x).
              { rewrite Forall_forall in Hr. apply Hr in Hx. unfold in_range in Hx. lia. }
              apply Hflag in H0 as [? ?]; [| done]. split; [by right | done].
           ++ intros [Hx H0]. apply elem_of_cons in Hx as [-> | Hx]; [by left |].
              destruct (decide (x = gp)) as [-> | Hne]; [by left |]. right.
              split; [done |]. apply Hflag; [| done].
              rewrite Forall_forall in Hr. apply Hr in Hx. unfold in_range in Hx. lia.
    + apply Z.eqb_neq in Hd.
      destruct (IH u d Hr) as (Hlen & Hfl & new & Hu & Hnd & Hin).
      split; [done |]. split.
      * intros x Hx. rewrite Hfl by done.
        repeat case_decide; try done.
        -- exfalso. destruct H as [? ?]. apply H0. split; [by right | done].
        -- exfalso. destruct H0 as [H0 ?]. apply elem_of_cons in H0 as [-> | ?]; [done |].
           apply H. split; done.
      * exists new. split; [done |]. split; [done |].
        intros x. rewrite Hin, elem_of_cons. split.
        -- intros [? ?]. split; [by right | done].
        -- intros [[-> | ?] ?]; [done | done].
Qed.

Lemma collect_loop_all_done gps : forall u d,
  Forall (fun gp => aref 0 d gp <> 0) gps -> collect_loop (u, d) gps = (u, d).
Proof.
  induction gps as [| gp gps IH]; intros u d Hall; [done |].
  apply Forall_cons in Hall as [Hgp Hall].
  rewrite collect_loop_cons. unfold collect_step. cbn [fst snd].
  apply Z.eqb_neq in Hgp. rewrite Hgp. by apply IH.
Qed.


Section SchedulerLaws.
Context {F : Type} {DF : Double F} {DY : Dynmat F} {LW : LapackWrapper F}.

Lemma selected_unfold phonon_done grid_points :
  request_ok grid_points ->
  selected phonon_done grid_points =
  (collect_loop ([], phonon_done) (i_data grid_points)).1.
Proof.
  intros Hok. unfold selected, collect_undone_grid_points.
  rewrite Hok, map_aref_seqZ. reflexivity.
Qed.

Lemma flags_after_unfold phonon_done grid_points :
  request_ok grid_points ->
  flags_after phonon_done grid_points =
  (collect_loop ([], phonon_done) (i_data grid_points)).2.
Proof.
  intros Hok. unfold flags_after, collect_undone_grid_points.
  rewrite Hok, map_aref_seqZ. reflexivity.
Qed.

(** The batch runs the loop body once for each selected point, in order. *)
Lemma batch_call_unfold (t : Tables F) frequencies eigenvectors phonon_done grid_points :
  batch_call t frequencies eigenvectors phonon_done grid_points =
  (foldl (solve_point t) (frequencies, eigenvectors)
     (selected phonon_done grid_points),
   flags_after phonon_done grid_points).
Proof.
  unfold batch_call, set_phonons_at_gridpoints, selected, flags_after,
    get_undone_phonons, collect_undone_grid_points.
  cbn [fst snd]. rewrite map_aref_seqZ. reflexivity.
Qed.

(** A request made of points that are all done changes nothing. *)
Lemma batch_call_all_done (t : Tables F) frequencies eigenvectors phonon_done grid_points :
  request_ok grid_points ->
  Forall (fun gp => aref 0 phonon_done gp <> 0) (i_data grid_points) ->
  batch_call t frequencies eigenvectors phonon_done grid_points =
  (frequencies, eigenvectors, phonon_done).
Proof.
  intros Hok Hall. rewrite batch_call_unfold.
  rewrite selected_unfold, flags_after_unfold by done.
  rewrite collect_loop_all_done by done. reflexivity.
Qed.

(** C1. Caching law of the scheduler.  For a request whose entries index
    the flag array: the batch runs the per-point solve once for each point
    of [selected], in order; a point whose flag is already nonzero is not
    selected; a point whose flag is zero is selected exactly once, however
    often it is requested; every selected point gets flag 1 and the other
    flags are kept, so that every requested point is done after the call;
    and a further call that requests only points of this request returns
    the three buffers as they are. *)
Theorem scheduler_caching_law (t : Tables F)
    frequencies eigenvectors phonon_done grid_points :
  request_ok grid_points ->
  Forall (in_range phonon_done) (i_data grid_points) ->
  let undone := selected phonon_done grid_points in
  let done' := flags_after phonon_done grid_points in
  let r := batch_call t frequencies eigenvectors phonon_done grid_points in
  r = (foldl (solve_point t) (frequencies, eigenvectors) undone, done') /\
  (forall gp, aref 0 phonon_done gp <> 0 -> gp ∉ undone) /\
  NoDup undone /\
  (forall gp, gp ∈ undone <-> gp ∈ i_data grid_points /\ aref 0 phonon_done gp = 0) /\
  (forall gp, 0 <= gp ->
     aref 0 done' gp = if decide (gp ∈ undone) then 1 else aref 0 phonon_done gp) /\
  (forall gp, gp ∈ i_data grid_points -> aref 0 done' gp <> 0) /\
  (forall again,
     request_ok again ->
     Forall (fun gp => gp ∈ i_data grid_points) (i_data again) ->
     batch_call t r.1.1 r.1.2 r.2 again = r).
Proof.
  intros Hok Hr undone done' r.
  destruct (collect_loop_spec (i_data grid_points) [] phonon_done Hr)
    as (Hlen & Hfl & new & Hu & Hnd & Hin).
  assert (Hsel : undone = new).
  { unfold undone. rewrite selected_unfold by done. by rewrite Hu. }
  assert (Hdone : done' = (collect_loop ([], phonon_done) (i_data grid_points)).2).
  { unfold done'. by rewrite flags_after_unfold. }
  assert (Hafter : forall gp, gp ∈ i_data grid_points -> aref 0 done' gp <> 0).
  { intros gp Hgp. rewrite Hdone, Hfl.
    - case_decide as Hc; [lia |]. intros H0. apply Hc. by split.
    - rewrite Forall_forall in Hr. apply Hr in Hgp. unfold in_range in Hgp. lia. }
  assert (Hr_eq : r = (foldl (solve_point t) (frequencies, eigenvectors) undone, done')).
  { unfold r. apply batch_call_unfold. }
  split; [exact Hr_eq |]. rewrite Hsel.
  split; [| split; [done | split; [done | split; [| split; [done |]]]]].
  - intros gp Hgp Hmem. apply Hin in Hmem as [_ H0]. done.
  - intros gp Hgp. rewrite Hdone, Hfl by done.
    repeat case_decide; try done.
    + exfalso. rewrite Hin in *. done.
    + exfalso. rewrite Hin in *. done.
  - intros again Hagain Hsub. rewrite Hr_eq. cbn [fst snd].
    rewrite batch_call_all_done; [by destruct (foldl _ _ _) | done |].
    eapply Forall_impl; [exact Hsub |]. intros gp Hgp. cbn beta. by apply Hafter.
Qed.

End SchedulerLaws.

(** ** Loops that fill an array *)

Lemma length_foldl_aset {A B} (idx : B -> Z) (g : list A -> B -> A) js : forall a,
  length (foldl (fun a j => aset a (idx j) (g a j)) a js) = length a.
Proof.
  induction js as [| j js IH]; intros a; [done |].
  cbn [foldl]. by rewrite IH, length_aset.
Qed.

(** A row of writes at [b + j] for the [j] of [js]: the cell [k] holds the
    value written for [k - b] when that is one of the [js]. *)
Lemma aref_foldl_aset_row {A} (d : A) (g : Z -> A) (b : Z) js : forall a k,
  Forall (fun j => in_range a (b + j)) js ->
  0 <= k ->
  aref d (foldl (fun a j => aset a (b + j) (g j)) a js) k =
  if decide (k - b ∈ js) then g (k - b) else aref d a k.
Proof.
  induction js as [| j js IH] using rev_ind; intros a k Hr Hk.
  - cbn [foldl]. rewrite decide_False; [done |]. apply not_elem_of_nil.
  - apply Forall_app in Hr as [Hr Hj]. rewrite Forall_singleton in Hj.
    rewrite foldl_app. cbn [foldl].
    destruct (decide (k = b + j)) as [-> | Hne].
    + rewrite aref_aset_eq.
      * rewrite decide_True; [f_equal; lia |].
        apply elem_of_app. right. apply list_elem_of_singleton. lia.
      * unfold in_range in *.
        rewrite (length_foldl_aset (fun j => b + j) (fun _ j => g j)). done.
    + rewrite aref_aset_ne by (unfold in_range in Hj; lia).
      rewrite IH by done.
      destruct (decide (k - b ∈ js)) as [Hin | Hin].
      * rewrite decide_True; [done |]. apply elem_of_app. by left.
      * rewrite decide_False; [done |]. intros Hin'.
        apply elem_of_app in Hin' as [? | Hin']; [done |].
        apply list_elem_of_singleton in Hin'. lia.
Qed.

Section Hermitization.
Context {F : Type} {DF : Double F}.

Lemma length_hermitize_row n dm_real dm_imag (a : list (lapack_complex_double F)) i :
  length (hermitize_row n dm_real dm_imag a i) = length a.
Proof.
  apply (length_foldl_aset (fun j => i * n + j)
           (fun _ j => hermitize_cell n dm_real dm_imag i j)).
Qed.

Lemma length_hermitize_rows n dm_real dm_imag rows :
  forall a : list (lapack_complex_double F),
  length (foldl (hermitize_row n dm_real dm_imag) a rows) = length a.
Proof.
  induction rows as [| i rows IH]; intros a; [done |].
  cbn [foldl]. by rewrite IH, length_hermitize_row.
Qed.

Lemma length_hermitize num_patom dm_real dm_imag (a : list (lapack_complex_double F)) :
  length (hermitize num_patom dm_real dm_imag a) = length a.
Proof. apply length_hermitize_rows. Qed.

(** After the rows [rows] have been written, a cell of one of them holds
    the averaged value of [hermitize_cell]. *)
Lemma aref_hermitize_rows d n dm_real dm_imag (a : list (lapack_complex_double F)) i j rows :
  n * n <= Z.of_nat (length a) ->
  Forall (fun i' => 0 <= i' < n) rows ->
  i ∈ rows -> 0 <= j < n ->
  aref d (foldl (hermitize_row n dm_real dm_imag) a rows) (i * n + j) =
  hermitize_cell n dm_real dm_imag i j.
Proof.
  intros Hlen Hrows Hmem Hj. revert Hrows Hmem.
  induction rows as [| i0 rows IH] using rev_ind; intros Hrows Hmem.
  - by apply elem_of_nil in Hmem.
  - apply Forall_app in Hrows as [Hrows Hi0]. rewrite Forall_singleton in Hi0.
    rewrite foldl_app. cbn [foldl]. unfold hermitize_row at 1.
    rewrite (aref_foldl_aset_row d (hermitize_cell n dm_real dm_imag i0) (i0 * n)).
    + destruct (decide (i0 = i)) as [-> | Hne].
      * rewrite decide_True by (apply elem_of_seqZ; lia). f_equal. lia.
      * assert (Hi : i ∈ rows).
        { apply elem_of_app in Hmem as [? | Hmem]; [done |].
          apply list_elem_of_singleton in Hmem. congruence. }
        assert (0 <= i < n).
        { rewrite Forall_forall in Hrows. by apply Hrows. }
        rewrite decide_False by (rewrite elem_of_seqZ; nia).
        by apply IH.
    + apply Forall_forall. intros x Hx. apply elem_of_seqZ in Hx.
      unfold in_range. rewrite length_hermitize_rows. nia.
    + assert (0 <= i < n); [| nia].
      apply elem_of_app in Hmem as [Hi | Hi].
      * rewrite Forall_forall in Hrows. by apply Hrows.
      * apply list_elem_of_singleton in Hi. lia.
Qed.

(** Every cell of the [n] x [n] matrix is written with the averaged value. *)
Lemma aref_hermitize d num_patom dm_real dm_imag (a : list (lapack_complex_double F)) i j :
  let n := num_patom * 3 in
  n * n <= Z.of_nat (length a) ->
  0 <= i < n -> 0 <= j < n ->
  aref d (hermitize num_patom dm_real dm_imag a) (i * n + j) =
  hermitize_cell n dm_real dm_imag i j.
Proof.
  intros n Hlen Hi Hj. unfold hermitize. fold n.
  apply aref_hermitize_rows; [done | | | done].
  - apply Forall_forall. intros x Hx. apply elem_of_seqZ in Hx. lia.
  - apply elem_of_seqZ. lia.
Qed.

End Hermitization.

Section SolverStructure.
Context {F : Type} {DF : Double F} {DY : Dynmat F} {LW : LapackWrapper F}.

(** [get_phonons] hands [solver_matrix] to the eigensolver, converts what
    the solver leaves in [w], and returns the solver's status. *)
Lemma solve_q_unfold (t : Tables F) d a w q :
  solve_q t d a w q =
  let r := phonopy_zheev w (solver_matrix t d a q) (num_band_of t) (uplo t) in
  (r.1.1, r.2,
   convert_frequencies (aref 0 (i_dims (multi_fc2 t)) 1)
     (unit_conversion_factor t) r.1.2).
Proof.
  unfold solve_q, get_phonons, solver_matrix, num_band_of. cbn zeta.
  by destruct (phonopy_zheev _ _ _ _) as [[info w'] a'].
Qed.

Lemma solver_matrix_unfold (t : Tables F) d a q :
  solver_matrix t d a q =
  hermitize (aref 0 (i_dims (multi_fc2 t)) 1)
    (raw_matrix t d q).1 (raw_matrix t d q).2 a.
Proof. reflexivity. Qed.

End SolverStructure.

Section HermitizationLaws.
Context {DY : Dynmat R} {LW : LapackWrapper R}.
Local Open Scope R_scope.

(** C2. Hermitization.  With [n = 3 * num_patom] and an output block of at
    least [n * n] cells, the matrix that [get_phonons] gives to the
    eigensolver holds, at every ([i], [j]), the average of the raw matrix
    and its conjugate transpose: real part
    [(dm_real[i,j] + dm_real[j,i]) / 2], imaginary part
    [(dm_imag[i,j] - dm_imag[j,i]) / 2]; and it is equal to its own
    conjugate transpose. *)
Theorem hermitization_correct (t : Tables R) d a w q i j :
  let n := num_band_of t in
  let dm_real := (raw_matrix t d q).1 in
  let dm_imag := (raw_matrix t d q).2 in
  let m := solver_matrix t d a q in
  (n * n <= Z.of_nat (length a))%Z ->
  (0 <= i < n)%Z -> (0 <= j < n)%Z ->
  (solve_q t d a w q).1.1 = (phonopy_zheev w m n (uplo t)).1.1 /\
  aref czero m (i * n + j) =
    lapack_make_complex_double
      ((aref 0 dm_real (i * n + j) + aref 0 dm_real (j * n + i)) / 2)
      ((aref 0 dm_imag (i * n + j) - aref 0 dm_imag (j * n + i)) / 2) /\
  aref czero m (i * n + j) = cconj (aref czero m (j * n + i)).
Proof.
  intros n dm_real dm_imag m Hlen Hi Hj.
  split; [by rewrite solve_q_unfold |].
  unfold m. rewrite solver_matrix_unfold.
  unfold n, num_band_of in *.
  rewrite !aref_hermitize by done.
  split; [reflexivity |].
  unfold hermitize_cell, cconj. cbn [creal cimag].
  fold dm_real dm_imag. f_equal; cbn; lra.
Qed.

End HermitizationLaws.

(** ** Frequency conversion *)

(** An in-place map over distinct cells: each cell is read before it is
    written, and written once. *)
Lemma aref_foldl_update {A} (d : A) (f : A -> A) js : forall w k,
  NoDup js -> Forall (in_range w) js -> 0 <= k ->
  aref d (foldl (fun w i => aset w i (f (aref d w i))) w js) k =
  if decide (k ∈ js) then f (aref d w k) else aref d w k.
Proof.
  induction js as [| j js IH] using rev_ind; intros w k Hnd Hr Hk.
  - cbn [foldl]. rewrite decide_False; [done |]. apply not_elem_of_nil.
  - apply NoDup_app in Hnd as (Hnd & Hdisj & _).
    apply Forall_app in Hr as [Hr Hj]. rewrite Forall_singleton in Hj.
    assert (Hj' : j ∉ js).
    { intros Hin. apply (Hdisj j Hin). by apply list_elem_of_singleton. }
    rewrite foldl_app. cbn [foldl].
    destruct (decide (k = j)) as [-> | Hne].
    + rewrite aref_aset_eq.
      * rewrite IH by (done || (unfold in_range in Hj; lia)).
        rewrite decide_False by done.
        rewrite decide_True; [done |]. apply elem_of_app. right.
        by apply list_elem_of_singleton.
      * unfold in_range in *.
        by rewrite (length_foldl_aset (fun i => i) (fun w i => f (aref d w i))).
    + rewrite aref_aset_ne by (unfold in_range in Hj; lia).
      rewrite IH by done.
      destruct (decide (k ∈ js)) as [Hin | Hin].
      * rewrite decide_True; [done |]. apply elem_of_app. by left.
      * rewrite decide_False; [done |]. intros Hin'.
        apply elem_of_app in Hin' as [? | Hin']; [done |].
        by apply list_elem_of_singleton in Hin'.
Qed.

Lemma aref_convert_frequencies {F} {DF : Double F} num_patom ucf (w : list F) i :
  num_patom * 3 <= Z.of_nat (length w) ->
  0 <= i < num_patom * 3 ->
  aref (of_int 0) (convert_frequencies num_patom ucf w) i =
  frequency ucf (aref (of_int 0) w i).
Proof.
  intros Hlen Hi. unfold convert_frequencies.
  rewrite (aref_foldl_update (of_int 0) (frequency ucf)).
  - rewrite decide_True; [done |]. apply elem_of_seqZ. lia.
  - apply NoDup_seqZ.
  - apply Forall_forall. intros x Hx. apply elem_of_seqZ in Hx.
    unfold in_range. lia.
  - lia.
Qed.

Section FrequencyLaws.
Local Open Scope R_scope.

Lemma frequency_sgn ucf w :
  frequency ucf w = sgn w * R_sqrt.sqrt (Rabs w) * ucf.
Proof.
  unfold frequency, sgn. cbn [of_int dsqrt dfabs dmul dlt Double_R].
  unfold Rltb.
  destruct (Rlt_dec 0 w), (Rlt_dec w 0); cbn [Z.b2z];
    [lra | change (1 - 0)%Z with 1%Z | change (0 - 1)%Z with (-1)%Z
     | change (0 - 0)%Z with 0%Z]; ring.
Qed.

Lemma frequency_zero ucf : frequency ucf 0 = 0.
Proof.
  rewrite frequency_sgn. unfold sgn.
  destruct (Rlt_dec 0 0); [lra |]. lra.
Qed.

Lemma frequency_negative ucf w : 0 < ucf -> w < 0 -> frequency ucf w < 0.
Proof.
  intros Hu Hw. rewrite frequency_sgn. unfold sgn.
  destruct (Rlt_dec 0 w); [lra |]. destruct (Rlt_dec w 0); [| lra].
  assert (0 < R_sqrt.sqrt (Rabs w)).
  { apply sqrt_lt_R0. rewrite Rabs_left by done. lra. }
  nra.
Qed.

(** The signed square root is increasing. *)
Lemma signed_sqrt_increasing w1 w2 :
  w1 <= w2 ->
  sgn w1 * R_sqrt.sqrt (Rabs w1) <= sgn w2 * R_sqrt.sqrt (Rabs w2).
Proof.
  intros Hle. unfold sgn.
  pose proof (sqrt_pos (Rabs w1)) as Hp1. pose proof (sqrt_pos (Rabs w2)) as Hp2.
  destruct (Rlt_dec 0 w1), (Rlt_dec w1 0), (Rlt_dec 0 w2), (Rlt_dec w2 0);
    try lra.
  - assert (R_sqrt.sqrt (Rabs w1) <= R_sqrt.sqrt (Rabs w2)); [| lra].
    apply sqrt_le_1_alt. rewrite !Rabs_right by lra. done.
  - assert (R_sqrt.sqrt (Rabs w2) <= R_sqrt.sqrt (Rabs w1)); [| lra].
    apply sqrt_le_1_alt. rewrite !Rabs_left by lra. lra.
Qed.

Lemma frequency_increasing ucf w1 w2 :
  0 <= ucf -> w1 <= w2 -> frequency ucf w1 <= frequency ucf w2.
Proof.
  intros Hu Hle. rewrite !frequency_sgn.
  apply Rmult_le_compat_r; [done |]. by apply signed_sqrt_increasing.
Qed.

End FrequencyLaws.

Section FrequencyConversion.
Context {DY : Dynmat R} {LW : LapackWrapper R}.
Local Open Scope R_scope.

(** C3, as the code has it.  When the solver leaves at least [n]
    eigenvalues, the frequency reported for the eigenvalue [lambda] is
    [sgn lambda * sqrt |lambda| * unit_conversion_factor], and zero gives
    zero.  With a positive [unit_conversion_factor], a negative eigenvalue
    gives a negative frequency and the order of the eigenvalues is kept. *)
Theorem frequency_conversion_signed (t : Tables R) d a w q :
  let n := num_band_of t in
  let eig := (phonopy_zheev w (solver_matrix t d a q) n (uplo t)).1.2 in
  let freq := (solve_q t d a w q).2 in
  (n <= Z.of_nat (length eig))%Z ->
  (forall k, (0 <= k < n)%Z ->
     aref 0 freq k =
     sgn (aref 0 eig k) * R_sqrt.sqrt (Rabs (aref 0 eig k))
     * unit_conversion_factor t) /\
  (forall k, (0 <= k < n)%Z -> aref 0 eig k = 0 -> aref 0 freq k = 0) /\
  (0 < unit_conversion_factor t ->
   (forall k, (0 <= k < n)%Z -> aref 0 eig k < 0 -> aref 0 freq k < 0) /\
   (forall k l, (0 <= k <= l)%Z -> (l < n)%Z ->
      aref 0 eig k <= aref 0 eig l -> aref 0 freq k <= aref 0 freq l)).
Proof.
  intros n eig freq Hlen.
  assert (Hfreq : forall k, (0 <= k < n)%Z ->
            aref 0 freq k = frequency (unit_conversion_factor t) (aref 0 eig k)).
  { intros k Hk. unfold freq. rewrite solve_q_unfold. cbn [snd].
    exact (aref_convert_frequencies (F := R) _ _ eig k Hlen Hk). }
  split; [| split; [| intros Hu; split]].
  - intros k Hk. by rewrite Hfreq, frequency_sgn.
  - intros k Hk H0. rewrite Hfreq, H0 by done. apply frequency_zero.
  - intros k Hk Hneg. rewrite Hfreq by done. by apply frequency_negative.
  - intros k l Hkl Hl Hle. rewrite !Hfreq by lia.
    apply frequency_increasing; [lra | done].
Qed.

End FrequencyConversion.

(** C3, as stated, fails for a negative factor: with factor -1 the negative
    eigenvalue -4 gives the frequency 2, above the frequency -1 of the
    eigenvalue 1. *)
Lemma frequency_sign_needs_positive_factor :
  exists ucf w1 w2 : R,
    (w1 < 0)%R /\ (w1 < w2)%R /\
    (0 < frequency ucf w1)%R /\ (frequency ucf w2 < frequency ucf w1)%R.
Proof.
  exists (-1)%R, (-4)%R, 1%R.
  assert (H4 : frequency (-1)%R (-4)%R = 2%R).
  { rewrite frequency_sgn. unfold sgn.
    destruct (Rlt_dec 0 (-4)); [lra |]. destruct (Rlt_dec (-4) 0); [| lra].
    rewrite Rabs_left by lra.
    replace (- -4)%R with (2 * 2)%R by lra. rewrite sqrt_square by lra. lra. }
  assert (H1 : frequency (-1)%R 1%R = (-1)%R).
  { rewrite frequency_sgn. unfold sgn.
    destruct (Rlt_dec 0 1); [| lra].
    rewrite Rabs_right by lra. rewrite sqrt_1. lra. }
  rewrite H4, H1. repeat split; lra.
Qed.

(** The same inputs in binary64. *)
Example frequency_negative_factor_binary64 :
  (frequency (-1) (-4) = 2 /\ frequency (-1) 1 = -1)%float.
Proof. split; reflexivity. Qed.

(** ** The non-analytic correction *)

Section NacStructure.
Context {F : Type} {DF : Double F} {DY : Dynmat F} {LW : LapackWrapper F}.
Local Open Scope dbl_scope.

Lemma mat3_vec_cells (m v : list F) :
  let z := of_int 0 in
  let row i :=
    z + aref z m (i * 3 + 0)%Z * aref z v 0
      + aref z m (i * 3 + 1)%Z * aref z v 1
      + aref z m (i * 3 + 2)%Z * aref z v 2 in
  mat3_vec m v = [row 0%Z; row 1%Z; row 2%Z].
Proof. reflexivity. Qed.

Lemma inv_dielectric_factor_cells (e c : list F) :
  let z := of_int 0 in
  let tmp i :=
    z + aref z e (i * 3 + 0)%Z * aref z c 0
      + aref z e (i * 3 + 1)%Z * aref z c 1
      + aref z e (i * 3 + 2)%Z * aref z c 2 in
  inv_dielectric_factor e c =
  z + tmp 0%Z * aref z c 0 + tmp 1%Z * aref z c 1 + tmp 2%Z * aref z c 2.
Proof. reflexivity. Qed.

(** The branch of lines 206-248 that builds the tensor. *)
Lemma nac_charge_sum_is_Some np ns q (b : option (list F)) e rl d nac :
  is_Some (nac_charge_sum np ns q b e rl d nac) <->
  is_Some b /\ (q_is_zero q = false \/ is_Some d).
Proof.
  unfold nac_charge_sum. destruct b as [b |].
  - destruct (q_is_zero q) eqn:Hq; cbn [andb].
    + destruct d as [d |]; cbn.
      * split; [intros _; split; [by eexists | right; by eexists] | by eexists].
      * split; [intros [? ?]; done |].
        intros [_ [? | [? ?]]]; done.
    + split; [intros _; split; [by eexists | by left] | by eexists].
  - split; [intros [? ?]; done | intros [[? ?] _]; done].
Qed.

Lemma nac_charge_sum_taken np ns q b e rl d nac :
  q_is_zero q && negb (bool_decide (is_Some d)) = false ->
  nac_charge_sum np ns q (Some b) e rl d nac =
  Some (get_charge_sum np
          (dielectric_factor nac
             (inv_dielectric_factor e (nac_q_cart q rl d)) ns np)
          (nac_q_cart q rl d) b).
Proof. intros Hq. unfold nac_charge_sum. by rewrite Hq. Qed.

(** Born charges enter [get_phonons] through the charge sum only. *)
Lemma solve_q_without_charge_sum (t : Tables F) d a w q :
  charge_sum_of t d q = None ->
  solve_q t d a w q = solve_q (with_born t None) d a w q.
Proof.
  intros Hc. unfold solve_q, get_phonons, get_phonons_matrix, get_phonons_dm.
  unfold charge_sum_of in Hc. cbn [with_born fc2 masses_fc2 p2s_fc2 s2p_fc2
    multi_fc2 svecs_fc2 born dielectric reciprocal_lattice nac_factor
    unit_conversion_factor uplo].
  by rewrite Hc.
Qed.

(** C7, as the code has it.  When Born charges are supplied and the branch
    of the correction is taken, [get_phonons] divides by
    [inv_dielectric_factor] whatever its value, zero included: the factor
    [nac_factor / inv_dielectric_factor / num_satom * num_patom] goes to
    [get_charge_sum], the tensor goes to [get_dynamical_matrix_at_q], and
    the value returned is the status of the eigensolver. *)
Theorem nac_division_unguarded (t : Tables F) d a w q b :
  let np := aref 0%Z (i_dims (multi_fc2 t)) 1 in
  let ns := aref 0%Z (i_dims (multi_fc2 t)) 0 in
  let q_cart := nac_q_cart q (reciprocal_lattice t) d in
  let inv_df := inv_dielectric_factor (dielectric t) q_cart in
  let tensor :=
    get_charge_sum np (nac_factor t / inv_df / of_int ns * of_int np) q_cart b in
  born t = Some b ->
  q_is_zero q && negb (bool_decide (is_Some d)) = false ->
  charge_sum_of t d q = Some tensor /\
  raw_matrix t d q =
    get_dynamical_matrix_at_q
      (replicate (Z.to_nat (np * np * 9)) (of_int 0))
      (replicate (Z.to_nat (np * np * 9)) (of_int 0))
      np ns (d_data (fc2 t)) q (d_data (svecs_fc2 t)) (i_data (multi_fc2 t))
      (masses_fc2 t) (s2p_fc2 t) (p2s_fc2 t) (Some tensor) /\
  (solve_q t d a w q).1.1 =
    (phonopy_zheev w (solver_matrix t d a q) (num_band_of t) (uplo t)).1.1.
Proof.
  intros np ns q_cart inv_df tensor Hb Hq.
  assert (Hc : charge_sum_of t d q = Some tensor).
  { unfold charge_sum_of. rewrite Hb. by apply nac_charge_sum_taken. }
  split; [exact Hc |]. split.
  - unfold raw_matrix, get_phonons_dm. unfold charge_sum_of in Hc.
    cbn zeta. by rewrite Hc.
  - by rewrite solve_q_unfold.
Qed.

End NacStructure.

Section NacLaws.
Context {DY : Dynmat R} {LW : LapackWrapper R}.
Local Open Scope R_scope.




Lemma nac_q_cart_default (q rl : list R) d :
  nac_q_cart q rl d = mat3_vec rl (default q d).
Proof. by destruct d. Qed.

Lemma aref_mat3_vec (m v : list R) i :
  (0 <= i < 3)%Z ->
  aref 0 (mat3_vec m v) i =
  sum_R (map (fun j => aref 0 m (i * 3 + j) * aref 0 v j) (seqZ 0 3)).
Proof.
  intros Hi. rewrite mat3_vec_cells. cbn zeta.
  assert (Hcases : i = 0%Z \/ i = 1%Z \/ i = 2%Z) by lia.
  change (seqZ 0 3) with [0; 1; 2]%Z.
  destruct Hcases as [-> | [-> | ->]]; unfold aref at 1;
    [change (Z.to_nat 0) with 0%nat | change (Z.to_nat 1) with 1%nat
     | change (Z.to_nat 2) with 2%nat];
    cbn [nth map sum_R foldr]; cbn [dadd dmul of_int Double_R]; ring.
Qed.

Lemma inv_dielectric_factor_sum (e c : list R) :
  inv_dielectric_factor e c =
  sum_R (map (fun i =>
                sum_R (map (fun j => aref 0 c i * aref 0 e (i * 3 + j) * aref 0 c j)
                           (seqZ 0 3)))
             (seqZ 0 3)).
Proof.
  rewrite inv_dielectric_factor_cells. change (seqZ 0 3) with [0; 1; 2]%Z.
  cbn [map sum_R foldr]. cbn [dadd dmul of_int Double_R]. ring.
Qed.

(** C6. Scaling of the correction.  Whenever the tensor is built, the
    wavevector used ([q], or the limiting direction when supplied) goes to
    Cartesian coordinates by [q_cart[i] = sum_j reciprocal_lattice[i,j] *
    v[j]] and [inv_dielectric_factor] is [q_cart^T dielectric q_cart].
    When [inv_dielectric_factor] is not zero and both atom counts are
    positive, the tensor is scaled by
    [nac_factor / inv_dielectric_factor / num_satom * num_patom], which is
    [nac_factor / inv_dielectric_factor / N] with
    [N = num_satom / num_patom]. *)
Theorem nac_scaling_formula (t : Tables R) d q :
  let np := aref 0%Z (i_dims (multi_fc2 t)) 1 in
  let ns := aref 0%Z (i_dims (multi_fc2 t)) 0 in
  let v := default q d in
  let q_cart := nac_q_cart q (reciprocal_lattice t) d in
  let inv_df := inv_dielectric_factor (dielectric t) q_cart in
  let N := IZR ns / IZR np in
  is_Some (charge_sum_of t d q) ->
  inv_df <> 0 -> (0 < np)%Z -> (0 < ns)%Z ->
  (forall i, (0 <= i < 3)%Z ->
     aref 0 q_cart i =
     sum_R (map (fun j => aref 0 (reciprocal_lattice t) (i * 3 + j) * aref 0 v j)
                (seqZ 0 3))) /\
  inv_df =
    sum_R (map (fun i =>
                  sum_R (map (fun j =>
                                aref 0 q_cart i * aref 0 (dielectric t) (i * 3 + j)
                                * aref 0 q_cart j)
                             (seqZ 0 3)))
               (seqZ 0 3)) /\
  (exists b,
     born t = Some b /\
     charge_sum_of t d q =
       Some (get_charge_sum np (nac_factor t / inv_df / IZR ns * IZR np) q_cart b)) /\
  nac_factor t / inv_df / IZR ns * IZR np = nac_factor t / inv_df / N /\
  nac_factor t / inv_df / IZR ns * IZR np * (inv_df * N) = nac_factor t.
Proof.
  intros np ns v q_cart inv_df N Hsome Hinv Hnp Hns.
  assert (Hnp' : IZR np <> 0) by (apply not_0_IZR; lia).
  assert (Hns' : IZR ns <> 0) by (apply not_0_IZR; lia).
  split; [| split; [| split; [| split]]].
  - intros i Hi. unfold q_cart. rewrite nac_q_cart_default. by apply aref_mat3_vec.
  - apply inv_dielectric_factor_sum.
  - pose proof Hsome as Hs. unfold charge_sum_of in Hs.
    apply nac_charge_sum_is_Some in Hs as [[b Hb] Hq].
    exists b. split; [done |].
    unfold charge_sum_of. rewrite Hb.
    rewrite nac_charge_sum_taken; [reflexivity |].
    destruct Hq as [-> | [x ->]]; [done |].
    rewrite bool_decide_eq_true_2 by by eexists. cbn. apply andb_false_r.
  - unfold N. field. done.
  - unfold N. field. done.
Qed.

End NacLaws.

(** ** The batch *)

Section BatchStructure.
Context {F : Type} {DF : Double F} {DY : Dynmat F}.
Local Open Scope dbl_scope.

Lemma grid_point_q_cells (grid_address mesh : list Z) gp :
  grid_point_q grid_address mesh gp =
  [ of_int (aref 0%Z grid_address (gp * 3 + 0)) / of_int (aref 0%Z mesh 0);
    of_int (aref 0%Z grid_address (gp * 3 + 1)) / of_int (aref 0%Z mesh 1);
    of_int (aref 0%Z grid_address (gp * 3 + 2)) / of_int (aref 0%Z mesh 2) ].
Proof. reflexivity. Qed.

(** The loop body: one call of [get_phonons] on the cells of the grid
    point, whose two output buffers are stored back. *)
Lemma solve_point_unfold {LW : LapackWrapper F} (t : Tables F) st gp :
  solve_point t st gp =
  let num_band := aref 0%Z (d_dims st.1) 1 in
  let r :=
    solve_q t (if gp =? 0 then q_direction t else None)
      (at_offset (c_data st.2) (num_band * num_band * gp))
      (at_offset (d_data st.1) (num_band * gp))
      (grid_point_q (grid_address t) (mesh t) gp) in
  (mkDarray (d_dims st.1) (store_back (d_data st.1) (num_band * gp) r.2),
   mkCarray (c_dims st.2) (store_back (c_data st.2) (num_band * num_band * gp) r.1.2)).
Proof. unfold solve_point, undone_step, solve_q. by destruct (gp =? 0). Qed.

Lemma solve_point_nonzero {LW : LapackWrapper F} (t : Tables F) st gp :
  gp <> 0%Z -> solve_point t st gp = solve_point (with_direction t None) st gp.
Proof.
  intros Hgp. rewrite !solve_point_unfold.
  apply Z.eqb_neq in Hgp. rewrite Hgp. reflexivity.
Qed.

Lemma foldl_solve_point_nonzero {LW : LapackWrapper F} (t : Tables F) gps : forall st,
  0%Z ∉ gps ->
  foldl (solve_point t) st gps = foldl (solve_point (with_direction t None)) st gps.
Proof.
  induction gps as [| gp gps IH]; intros st Hnot; [done |].
  apply not_elem_of_cons in Hnot as [Hgp Hnot]. cbn [foldl].
  rewrite <- solve_point_nonzero by done. by apply IH.
Qed.

(** The status of the solver has no part in the loop body. *)
Lemma solve_q_silenced {LW : LapackWrapper F} (t : Tables F) d a w q :
  (solve_q (LW := silenced LW) t d a w q).1.2 = (solve_q t d a w q).1.2 /\
  (solve_q (LW := silenced LW) t d a w q).2 = (solve_q t d a w q).2.
Proof. rewrite !solve_q_unfold. split; reflexivity. Qed.

Lemma solve_point_silenced {LW : LapackWrapper F} (t : Tables F) st gp :
  solve_point (LW := silenced LW) t st gp = solve_point t st gp.
Proof.
  rewrite !solve_point_unfold. cbn zeta.
  destruct (solve_q_silenced t (if gp =? 0 then q_direction t else None)
              (at_offset (c_data st.2)
                 (aref 0%Z (d_dims st.1) 1 * aref 0%Z (d_dims st.1) 1 * gp))
              (at_offset (d_data st.1) (aref 0%Z (d_dims st.1) 1 * gp))
              (grid_point_q (grid_address t) (mesh t) gp)) as [-> ->].
  reflexivity.
Qed.

Lemma foldl_solve_point_silenced {LW : LapackWrapper F} (t : Tables F) gps : forall st,
  foldl (solve_point (LW := silenced LW) t) st gps = foldl (solve_point t) st gps.
Proof.
  induction gps as [| gp gps IH]; intros st; [done |].
  cbn [foldl]. by rewrite solve_point_silenced, IH.
Qed.

End BatchStructure.

Section BatchLaws.
Context {F : Type} {DF : Double F} {DY : Dynmat F} {LW : LapackWrapper F}.

(** C9, as the code has it.  [get_phonons] returns the status of the
    eigensolver to its caller, but the batch, a void function, drops it:
    the three buffers after a batch call are the ones obtained with the
    same solver reporting success every time.  A failure stops nothing:
    the loop body still runs for every selected grid point. *)
Theorem batch_drops_solver_status (t : Tables F)
    frequencies eigenvectors phonon_done grid_points :
  batch_call (LW := silenced LW) t frequencies eigenvectors phonon_done grid_points =
  batch_call t frequencies eigenvectors phonon_done grid_points /\
  batch_call t frequencies eigenvectors phonon_done grid_points =
  (foldl (solve_point t) (frequencies, eigenvectors)
     (selected phonon_done grid_points),
   flags_after phonon_done grid_points) /\
  (forall d a w q,
     (solve_q t d a w q).1.1 =
     (phonopy_zheev w (solver_matrix t d a q) (num_band_of t) (uplo t)).1.1).
Proof.
  split; [| split].
  - rewrite !batch_call_unfold. by rewrite foldl_solve_point_silenced.
  - apply batch_call_unfold.
  - intros d a w q. by rewrite solve_q_unfold.
Qed.

End BatchLaws.

(** ** A flag that is set stays set *)

Lemma aref_aset_one_nonzero (d : list Z) x gp :
  aref 0 d gp <> 0 -> aref 0 (aset d x 1) gp <> 0.
Proof.
  unfold aref, aset. rewrite !nth_lookup. intros Hgp.
  destruct (decide (Z.to_nat x = Z.to_nat gp)) as [Heq | Hne].
  - rewrite Heq. destruct (decide (Z.to_nat gp < length d)%nat) as [Hlt | Hge].
    + rewrite list_lookup_insert_eq by done. done.
    + rewrite list_insert_ge by lia. done.
  - by rewrite list_lookup_insert_ne.
Qed.

Lemma collect_loop_keeps_done gps : forall u d gp,
  aref 0 d gp <> 0 -> aref 0 (collect_loop (u, d) gps).2 gp <> 0.
Proof.
  induction gps as [| x gps IH]; intros u d gp Hgp; [done |].
  rewrite collect_loop_cons. unfold collect_step. cbn [fst snd].
  destruct (aref 0 d x =? 0); [| by apply IH].
  apply IH. by apply aref_aset_one_nonzero.
Qed.

Lemma collect_loop_not_selected gps : forall u d gp,
  aref 0 d gp <> 0 -> gp ∉ u -> gp ∉ (collect_loop (u, d) gps).1.
Proof.
  induction gps as [| x gps IH]; intros u d gp Hgp Hu; [done |].
  rewrite collect_loop_cons. unfold collect_step. cbn [fst snd].
  destruct (aref 0 d x =? 0) eqn:Hx; [| by apply IH].
  apply Z.eqb_eq in Hx. apply IH.
  - by apply aref_aset_one_nonzero.
  - rewrite elem_of_app, list_elem_of_singleton. intros [? | ->]; done.
Qed.

Lemma done_point_not_selected phonon_done grid_points gp :
  aref 0 phonon_done gp <> 0 ->
  (gp ∉ selected phonon_done grid_points) /\
  aref 0 (flags_after phonon_done grid_points) gp <> 0.
Proof.
  intros Hgp. unfold selected, flags_after, collect_undone_grid_points.
  cbn [fst snd]. split.
  - apply collect_loop_not_selected; [done | apply not_elem_of_nil].
  - by apply collect_loop_keeps_done.
Qed.

(** Every requested point is flagged after the call. *)
Lemma requested_points_done phonon_done grid_points gp :
  request_ok grid_points ->
  Forall (in_range phonon_done) (i_data grid_points) ->
  gp ∈ i_data grid_points ->
  aref 0 (flags_after phonon_done grid_points) gp <> 0.
Proof.
  intros Hok Hr Hgp.
  destruct (collect_loop_spec (i_data grid_points) [] phonon_done Hr)
    as (_ & Hfl & _).
  unfold flags_after, collect_undone_grid_points. cbn [snd].
  rewrite Hok, map_aref_seqZ, Hfl.
  - case_decide as Hc; [lia |]. intros H0. apply Hc. by split.
  - rewrite Forall_forall in Hr. apply Hr in Hgp. unfold in_range in Hgp. lia.
Qed.

(** ** Slots of the output buffers *)

Lemma lookup_foldl_aset_ne {A B} (idx : B -> Z) (g : list A -> B -> A) js k :
  forall a,
  Forall (fun j => Z.to_nat (idx j) <> k) js ->
  foldl (fun a j => aset a (idx j) (g a j)) a js !! k = a !! k.
Proof.
  induction js as [| j js IH]; intros a Hjs; [done |].
  apply Forall_cons in Hjs as [Hj Hjs]. cbn [foldl].
  rewrite IH by done. unfold aset. by rewrite list_lookup_insert_ne.
Qed.

Lemma drop_foldl_aset {A B} (idx : B -> Z) (g : list A -> B -> A) js n a :
  Forall (fun j => (Z.to_nat (idx j) < n)%nat) js ->
  drop n (foldl (fun a j => aset a (idx j) (g a j)) a js) = drop n a.
Proof.
  intros Hjs. apply list_eq. intros k. rewrite !lookup_drop.
  apply lookup_foldl_aset_ne.
  eapply Forall_impl; [exact Hjs |]. intros j Hj. cbn beta in *. lia.
Qed.

Lemma agree_outside_refl {A} off len (l : list A) : agree_outside off len l l.
Proof. by split. Qed.

(** Storing back cells that differ from the view in the first [len] only. *)
Lemma store_back_agree {A} (data cells : list A) (off : Z) (len : nat) :
  length cells = length (at_offset data off) ->
  drop len cells = drop len (at_offset data off) ->
  agree_outside (Z.to_nat off) len data (store_back data off cells).
Proof.
  unfold at_offset, store_back. set (o := Z.to_nat off). intros Hlen Hdrop.
  rewrite length_drop in Hlen.
  split; [apply length_inserts |].
  intros k [Hk | Hk]; [by apply list_lookup_inserts_lt |].
  destruct (decide (k < length data)%nat) as [Hin | Hout].
  - rewrite list_lookup_inserts by lia.
    replace (k - o)%nat with (len + (k - o - len))%nat by lia.
    rewrite <- lookup_drop, Hdrop, !lookup_drop. f_equal. lia.
  - rewrite list_lookup_inserts_ge by lia. done.
Qed.

Lemma store_back_view {A} (data cells : list A) (off : Z) :
  length cells = length (at_offset data off) ->
  at_offset (store_back data off cells) off = cells.
Proof.
  unfold at_offset, store_back. set (o := Z.to_nat off). intros Hlen.
  rewrite length_drop in Hlen.
  apply list_eq. intros k. rewrite lookup_drop.
  destruct (decide (k < length cells)%nat) as [Hin | Hout].
  - rewrite list_lookup_inserts by lia. f_equal. lia.
  - rewrite list_lookup_inserts_ge by lia.
    rewrite (lookup_ge_None_2 cells) by lia. apply lookup_ge_None. lia.
Qed.

(** Cells outside the changed range are the same in both buffers. *)
Lemma agree_outside_slot {A} off len o2 len2 (l l' : list A) :
  agree_outside off len l l' ->
  (o2 + len2 <= off \/ off + len <= o2)%nat ->
  take len2 (drop o2 l') = take len2 (drop o2 l).
Proof.
  intros [_ Hag] Hdisj. apply list_eq. intros k.
  rewrite !lookup_take. case_decide; [| done].
  rewrite !lookup_drop. apply Hag. lia.
Qed.

Lemma agree_outside_trans {A} off len o2 len2 (l1 l2 l3 : list A) k :
  agree_outside off len l1 l2 -> agree_outside o2 len2 l2 l3 ->
  (k < off \/ off + len <= k)%nat -> (k < o2 \/ o2 + len2 <= k)%nat ->
  l3 !! k = l1 !! k.
Proof. intros [_ H1] [_ H2] Hk1 Hk2. by rewrite H2, H1. Qed.

Section Slots.
Context {F : Type} {DF : Double F} {DY : Dynmat F} {LW : LapackWrapper F}.

Lemma convert_frequencies_local num_patom ucf (w : list F) :
  length (convert_frequencies num_patom ucf w) = length w /\
  drop (Z.to_nat (num_patom * 3)) (convert_frequencies num_patom ucf w)
  = drop (Z.to_nat (num_patom * 3)) w.
Proof.
  unfold convert_frequencies. split.
  - apply (length_foldl_aset (fun i => i) (fun w i => frequency ucf (aref (of_int 0) w i))).
  - apply (drop_foldl_aset (fun i => i) (fun w i => frequency ucf (aref (of_int 0) w i))).
    apply Forall_forall. intros i Hi. apply elem_of_seqZ in Hi. lia.
Qed.

Lemma hermitize_local num_patom dm_real dm_imag (a : list (lapack_complex_double F)) :
  let n := num_patom * 3 in
  drop (Z.to_nat (n * n)) (hermitize num_patom dm_real dm_imag a)
  = drop (Z.to_nat (n * n)) a.
Proof.
  intros n. unfold hermitize. fold n.
  assert (Hrows : Forall (fun i => 0 <= i < n) (seqZ 0 n)).
  { apply Forall_forall. intros i Hi. apply elem_of_seqZ in Hi. lia. }
  revert a Hrows. generalize (seqZ 0 n) as rows.
  induction rows as [| i rows IH]; intros a Hrows; [done |].
  apply Forall_cons in Hrows as [Hi Hrows]. cbn [foldl].
  rewrite IH by done. unfold hermitize_row.
  apply (drop_foldl_aset (fun j => i * n + j)
           (fun _ j => hermitize_cell n dm_real dm_imag i j)).
  apply Forall_forall. intros j Hj. apply elem_of_seqZ in Hj. nia.
Qed.

(** One iteration of the batch changes, in each buffer, at most the slot of
    its grid point. *)
Lemma solve_point_frame (t : Tables F) st gp :
  let nb := aref 0 (d_dims st.1) 1 in
  nb = num_band_of t -> zheev_local LW nb -> 0 <= gp ->
  d_dims (solve_point t st gp).1 = d_dims st.1 /\
  agree_outside (Z.to_nat (nb * gp)) (Z.to_nat nb)
    (d_data st.1) (d_data (solve_point t st gp).1) /\
  agree_outside (Z.to_nat (nb * nb * gp)) (Z.to_nat (nb * nb))
    (c_data st.2) (c_data (solve_point t st gp).2).
Proof.
  intros nb Hnb Hloc Hgp. rewrite solve_point_unfold. cbn zeta. fold nb.
  rewrite solve_q_unfold. cbn zeta. cbn [fst snd d_dims d_data c_data].
  rewrite <- Hnb.
  set (wv := at_offset (d_data st.1) (nb * gp)).
  set (av := at_offset (c_data st.2) (nb * nb * gp)).
  set (d := if gp =? 0 then q_direction t else None).
  set (q := grid_point_q (grid_address t) (mesh t) gp).
  destruct (Hloc wv (solver_matrix t d av q) (uplo t)) as (Hw1 & Hw2 & Ha1 & Ha2).
  cbn zeta in *.
  set (s := phonopy_zheev wv (solver_matrix t d av q) nb (uplo t)) in *.
  assert (Hnp : nb = aref 0 (i_dims (multi_fc2 t)) 1 * 3) by exact Hnb.
  destruct (convert_frequencies_local (aref 0 (i_dims (multi_fc2 t)) 1)
              (unit_conversion_factor t) s.1.2) as [Hc1 Hc2].
  rewrite <- Hnp in Hc2.
  assert (Hm1 : length (solver_matrix t d av q) = length av).
  { rewrite solver_matrix_unfold. apply length_hermitize. }
  assert (Hm2 : drop (Z.to_nat (nb * nb)) (solver_matrix t d av q)
                = drop (Z.to_nat (nb * nb)) av).
  { rewrite solver_matrix_unfold, Hnp. apply hermitize_local. }
  split; [done |]. split.
  - apply store_back_agree; [by rewrite Hc1, Hw1 | by rewrite Hc2, Hw2].
  - apply store_back_agree; [by rewrite Ha1, Hm1 | by rewrite Ha2, Hm2].
Qed.

(** The slots of a grid point that is not solved are kept. *)
Lemma foldl_solve_point_frame (t : Tables F) gps : forall st gp0,
  let nb := aref 0 (d_dims st.1) 1 in
  nb = num_band_of t -> zheev_local LW nb -> 0 <= nb ->
  Forall (fun gp => 0 <= gp) gps -> 0 <= gp0 -> gp0 ∉ gps ->
  d_dims (foldl (solve_point t) st gps).1 = d_dims st.1 /\
  frequencies_at nb (foldl (solve_point t) st gps).1 gp0 = frequencies_at nb st.1 gp0 /\
  eigenvectors_at nb (foldl (solve_point t) st gps).2 gp0 = eigenvectors_at nb st.2 gp0.
Proof.
  induction gps as [| gp gps IH]; intros st gp0 nb Hnb Hloc Hnb0 Hpos Hgp0 Hnot;
    [done |].
  apply Forall_cons in Hpos as [Hgp Hpos].
  apply not_elem_of_cons in Hnot as [Hne Hnot].
  cbn [foldl].
  destruct (solve_point_frame t st gp Hnb Hloc Hgp) as (Hd & Hfr & Hev).
  fold nb in Hfr, Hev.
  pose proof (IH (solve_point t st gp) gp0) as IH'. cbn zeta in IH'.
  rewrite Hd in IH'. fold nb in IH'.
  destruct (IH' Hnb Hloc Hnb0 Hpos Hgp0 Hnot) as (Hd' & Hfr' & Hev').
  split; [done |]. split.
  - rewrite Hfr'. unfold frequencies_at, at_offset.
    apply (agree_outside_slot _ _ _ _ _ _ Hfr). nia.
  - rewrite Hev'. unfold eigenvectors_at, at_offset.
    apply (agree_outside_slot _ _ _ _ _ _ Hev). nia.
Qed.

Lemma solve_point_dims (t : Tables F) st gp :
  d_dims (solve_point t st gp).1 = d_dims st.1.
Proof. by rewrite solve_point_unfold. Qed.

Lemma foldl_solve_point_dims (t : Tables F) gps : forall st,
  d_dims (foldl (solve_point t) st gps).1 = d_dims st.1.
Proof.
  induction gps as [| gp gps IH]; intros st; [done |].
  cbn [foldl]. by rewrite IH, solve_point_dims.
Qed.

(** The slot of the grid point that is solved holds, after the iteration,
    the first [num_band] cells that [get_phonons] left in [w]. *)
Lemma solve_point_slot (t : Tables F) st gp :
  let nb := aref 0 (d_dims st.1) 1 in
  let d := if gp =? 0 then q_direction t else None in
  let q := grid_point_q (grid_address t) (mesh t) gp in
  let s :=
    phonopy_zheev (at_offset (d_data st.1) (nb * gp))
      (solver_matrix t d (at_offset (c_data st.2) (nb * nb * gp)) q)
      (num_band_of t) (uplo t) in
  zheev_local LW (num_band_of t) ->
  frequencies_at nb (solve_point t st gp).1 gp =
  take (Z.to_nat nb)
    (convert_frequencies (aref 0 (i_dims (multi_fc2 t)) 1)
       (unit_conversion_factor t) s.1.2).
Proof.
  intros nb d q s Hloc. unfold frequencies_at.
  rewrite solve_point_unfold. cbn zeta. fold nb. cbn [fst d_data].
  rewrite solve_q_unfold. cbn zeta. cbn [snd]. fold d q s.
  rewrite store_back_view; [done |].
  destruct (convert_frequencies_local (aref 0 (i_dims (multi_fc2 t)) 1)
              (unit_conversion_factor t) s.1.2) as [Hc _].
  destruct (Hloc (at_offset (d_data st.1) (nb * gp))
              (solver_matrix t d (at_offset (c_data st.2) (nb * nb * gp)) q)
              (uplo t)) as (Hw & _).
  cbn zeta in Hw. fold s in Hw. by rewrite Hc, Hw.
Qed.

End Slots.

Lemma collect_loop_subset gps : forall u d x,
  x ∈ (collect_loop (u, d) gps).1 -> x ∈ u \/ x ∈ gps.
Proof.
  induction gps as [| gp gps IH]; intros u d x Hx; [by left |].
  rewrite collect_loop_cons in Hx. unfold collect_step in Hx. cbn [fst snd] in Hx.
  destruct (aref 0 d gp =? 0).
  - apply IH in Hx as [Hx | Hx]; [| right; by right].
    apply elem_of_app in Hx as [Hx | Hx]; [by left |].
    apply list_elem_of_singleton in Hx as ->. right. by left.
  - apply IH in Hx as [Hx | Hx]; [by left | right; by right].
Qed.

Lemma selected_requested phonon_done grid_points x :
  request_ok grid_points ->
  x ∈ selected phonon_done grid_points -> x ∈ i_data grid_points.
Proof.
  intros Hok Hx. unfold selected, collect_undone_grid_points in Hx.
  cbn [fst snd] in Hx. rewrite Hok, map_aref_seqZ in Hx.
  apply collect_loop_subset in Hx as [Hx | Hx]; [| done].
  by apply elem_of_nil in Hx.
Qed.

Section Permanence.
Context {F : Type} {DF : Double F} {DY : Dynmat F} {LW : LapackWrapper F}.

Lemma batch_call_dims (t : Tables F) frequencies eigenvectors phonon_done grid_points :
  d_dims (batch_call t frequencies eigenvectors phonon_done grid_points).1.1
  = d_dims frequencies.
Proof. rewrite batch_call_unfold. cbn [fst]. apply foldl_solve_point_dims. Qed.

(** A batch call keeps the slots of a grid point whose flag is set. *)
Lemma batch_call_keeps_slot (t : Tables F)
    frequencies eigenvectors phonon_done grid_points gp :
  let nb := aref 0 (d_dims frequencies) 1 in
  let r := batch_call t frequencies eigenvectors phonon_done grid_points in
  nb = num_band_of t -> zheev_local LW nb -> 0 <= nb ->
  request_wf grid_points -> 0 <= gp -> aref 0 phonon_done gp <> 0 ->
  frequencies_at nb r.1.1 gp = frequencies_at nb frequencies gp /\
  eigenvectors_at nb r.1.2 gp = eigenvectors_at nb eigenvectors gp.
Proof.
  intros nb r Hnb Hloc Hnb0 [Hok Hpos] Hgp Hdone. unfold r.
  rewrite batch_call_unfold. cbn [fst snd].
  destruct (done_point_not_selected phonon_done grid_points gp Hdone) as [Hnot _].
  apply (foldl_solve_point_frame t (selected phonon_done grid_points)
           (frequencies, eigenvectors) gp); try done.
  apply Forall_forall. intros x Hx.
  apply (selected_requested _ _ _ Hok) in Hx.
  rewrite Forall_forall in Hpos. by apply Hpos.
Qed.

Lemma run_batches_cons (t : Tables F) st req later :
  run_batches t st (req :: later) =
  run_batches t (batch_call t st.1.1 st.1.2 st.2 req) later.
Proof. reflexivity. Qed.

Lemma run_batches_keeps_slot (t : Tables F) later : forall st gp,
  let nb := aref 0 (d_dims st.1.1) 1 in
  nb = num_band_of t -> zheev_local LW nb -> 0 <= nb ->
  Forall request_wf later -> 0 <= gp -> aref 0 st.2 gp <> 0 ->
  frequencies_at nb (run_batches t st later).1.1 gp = frequencies_at nb st.1.1 gp /\
  eigenvectors_at nb (run_batches t st later).1.2 gp = eigenvectors_at nb st.1.2 gp.
Proof.
  induction later as [| req later IH]; intros st gp nb Hnb Hloc Hnb0 Hwf Hgp Hdone;
    [done |].
  apply Forall_cons in Hwf as [Hreq Hwf].
  rewrite run_batches_cons.
  set (st' := batch_call t st.1.1 st.1.2 st.2 req).
  destruct (batch_call_keeps_slot t st.1.1 st.1.2 st.2 req gp Hnb Hloc Hnb0 Hreq Hgp Hdone)
    as [Hfr Hev].
  fold nb st' in Hfr, Hev.
  assert (Hdims : aref 0 (d_dims st'.1.1) 1 = nb).
  { unfold st'. by rewrite batch_call_dims. }
  pose proof (IH st' gp) as IH'. cbn zeta in IH'. rewrite Hdims in IH'.
  destruct IH' as [Hfr' Hev']; try done.
  - unfold st'. rewrite batch_call_unfold. cbn [snd].
    by apply done_point_not_selected.
  - by rewrite Hfr', Hev'.
Qed.

(** After a batch call, the frequency slot of a grid point that it selected
    holds the first [num_band] cells that [get_phonons] left in [w] when the
    loop reached the grid point. *)
Lemma batch_call_slot (t : Tables F)
    frequencies eigenvectors phonon_done grid_points gp :
  let nb := aref 0 (d_dims frequencies) 1 in
  let r := batch_call t frequencies eigenvectors phonon_done grid_points in
  request_ok grid_points ->
  Forall (in_range phonon_done) (i_data grid_points) ->
  gp ∈ i_data grid_points -> aref 0 phonon_done gp = 0 ->
  nb = num_band_of t -> zheev_local LW nb -> 0 <= nb ->
  exists before after,
    selected phonon_done grid_points = before ++ gp :: after /\
    let st := foldl (solve_point t) (frequencies, eigenvectors) before in
    let s :=
      phonopy_zheev (at_offset (d_data st.1) (nb * gp))
        (solver_matrix t (if gp =? 0 then q_direction t else None)
           (at_offset (c_data st.2) (nb * nb * gp))
           (grid_point_q (grid_address t) (mesh t) gp))
        nb (uplo t) in
    frequencies_at nb r.1.1 gp =
    take (Z.to_nat nb)
      (convert_frequencies (aref 0 (i_dims (multi_fc2 t)) 1)
         (unit_conversion_factor t) s.1.2).
Proof.
  intros nb r Hok Hr Hgp Hzero Hnb Hloc Hnb0.
  destruct (collect_loop_spec (i_data grid_points) [] phonon_done Hr)
    as (_ & _ & new & Hu & Hnd & Hin).
  assert (Hsel : selected phonon_done grid_points = new).
  { rewrite selected_unfold by done. by rewrite Hu. }
  assert (Hmem : gp ∈ new) by (apply Hin; by split).
  apply list_elem_of_split in Hmem as (before & after & Hsplit).
  exists before, after. split; [by rewrite Hsel |]. cbn zeta.
  unfold r. rewrite batch_call_unfold, Hsel, Hsplit. cbn [fst].
  rewrite foldl_app. cbn [foldl].
  set (st := foldl (solve_point t) (frequencies, eigenvectors) before).
  assert (Hdims : aref 0 (d_dims st.1) 1 = nb).
  { unfold st. by rewrite foldl_solve_point_dims. }
  assert (Hdims1 : aref 0 (d_dims (solve_point t st gp).1) 1 = nb).
  { by rewrite solve_point_dims. }
  assert (Hpos : Forall (fun x => 0 <= x) new).
  { apply Forall_forall. intros x Hx. apply Hin in Hx as [Hx _].
    rewrite Forall_forall in Hr. apply Hr in Hx. unfold in_range in Hx. lia. }
  rewrite Hsplit in Hnd, Hpos.
  apply NoDup_app in Hnd as (_ & _ & Hnd). apply NoDup_cons in Hnd as [Hnot _].
  apply Forall_app in Hpos as [_ Hpos]. apply Forall_cons in Hpos as [Hgp0 Hpos].
  pose proof (foldl_solve_point_frame t after (solve_point t st gp) gp) as Hfr.
  cbn zeta in Hfr. rewrite Hdims1 in Hfr.
  destruct (Hfr Hnb Hloc Hnb0 Hpos Hgp0 Hnot) as (_ & -> & _).
  pose proof (solve_point_slot t st gp) as Hslot. cbn zeta in Hslot.
  rewrite Hdims, <- Hnb in Hslot. apply Hslot. done.
Qed.

End Permanence.

Section CollaboratorLaws.
Context {F : Type} {DF : Double F}.

Lemma diagonal_zheev_local (w : list F) a n uplo :
  let s := diagonal_zheev w a n uplo in
  length s.1.2 = length w /\
  drop (Z.to_nat n) s.1.2 = drop (Z.to_nat n) w /\
  length s.2 = length a /\
  drop (Z.to_nat (n * n)) s.2 = drop (Z.to_nat (n * n)) a.
Proof.
  unfold diagonal_zheev. cbn [fst snd].
  split; [| split; [| split]].
  - apply (length_foldl_aset (fun i => i)
             (fun _ i => creal (aref (lapack_make_complex_double (of_int 0) (of_int 0))
                                  a (i * n + i)))).
  - apply (drop_foldl_aset (fun i => i)
             (fun _ i => creal (aref (lapack_make_complex_double (of_int 0) (of_int 0))
                                  a (i * n + i)))).
    apply Forall_forall. intros i Hi. apply elem_of_seqZ in Hi. lia.
  - apply (length_foldl_aset (fun k => k)
             (fun _ k => lapack_make_complex_double
                           (of_int (Z.b2z (k / n =? k mod n))) (of_int 0))).
  - apply (drop_foldl_aset (fun k => k)
             (fun _ k => lapack_make_complex_double
                           (of_int (Z.b2z (k / n =? k mod n))) (of_int 0))).
    apply Forall_forall. intros k Hk. apply elem_of_seqZ in Hk. lia.
Qed.

Lemma checking_lapack_local n : zheev_local (checking_lapack (F := F)) n.
Proof.
  intros w a uplo. cbn [phonopy_zheev checking_lapack]. unfold checking_zheev.
  destruct (dlt _ _); [done |]. apply diagonal_zheev_local.
Qed.

End CollaboratorLaws.

Section FailureLaws.
Context {F : Type} {DF : Double F} {DY : Dynmat F} {LW : LapackWrapper F}.

Lemma run_batches_keeps_done (t : Tables F) later : forall st gp,
  aref 0 st.2 gp <> 0 -> aref 0 (run_batches t st later).2 gp <> 0.
Proof.
  induction later as [| req later IH]; intros st gp Hgp; [done |].
  unfold run_batches. cbn [foldl]. apply IH.
  rewrite batch_call_unfold. cbn [snd].
  by apply done_point_not_selected.
Qed.

End FailureLaws.

(** ** The phase factor *)

Section PhaseLaws.
Local Open Scope R_scope.

Lemma phase_of_dot (q svecs : list R) qi i :
  phase_of q svecs qi i =
  aref 0 q (qi * 3 + 0) * aref 0 svecs (i * 3 + 0)
  + aref 0 q (qi * 3 + 1) * aref 0 svecs (i * 3 + 1)
  + aref 0 q (qi * 3 + 2) * aref 0 svecs (i * 3 + 2).
Proof.
  unfold phase_of. change (seqZ 0 3) with [0; 1; 2]%Z.
  cbn [foldl]. cbn [dadd dmul of_int Double_R]. ring.
Qed.

(** The two accumulators of a loop that adds [c i] and [s i]. *)
Lemma foldl_pair_sums (c s : Z -> R) l : forall a b,
  foldl (fun acc i => (acc.1 + c i, acc.2 + s i)) (a, b) l =
  (a + sum_R (map c l), b + sum_R (map s l)).
Proof.
  induction l as [| i l IH]; intros a b; cbn [foldl map].
  - unfold sum_R. cbn [foldr]. f_equal; lra.
  - rewrite IH. cbn [fst snd]. unfold sum_R. cbn [foldr]. f_equal; lra.
Qed.

Lemma phase_sums_sum M (q svecs : list R) qi multi :
  phase_sums M q svecs qi multi =
  (sum_R (map (fun i => cos (M * phase_of q svecs qi i)) (seqZ 0 multi)),
   sum_R (map (fun i => sin (M * phase_of q svecs qi i)) (seqZ 0 multi))).
Proof.
  unfold phase_sums. cbn [dadd dmul dcos dsin of_int Double_R DoubleTrig_R].
  rewrite (foldl_pair_sums (fun i => cos (M * phase_of q svecs qi i))
             (fun i => sin (M * phase_of q svecs qi i))).
  f_equal; lra.
Qed.

(** Triangle inequality for a sum of unit vectors. *)
Lemma unit_vector_sum_bound (theta : Z -> R) l :
  let A := sum_R (map (fun i => cos (theta i)) l) in
  let B := sum_R (map (fun i => sin (theta i)) l) in
  A * A + B * B <= INR (length l) * INR (length l).
Proof.
  induction l as [| i l IH]; cbn zeta in *.
  - cbn. lra.
  - cbn [map sum_R foldr]. rewrite length_cons, S_INR.
    set (A := sum_R (map (fun i => cos (theta i)) l)) in *.
    set (B := sum_R (map (fun i => sin (theta i)) l)) in *.
    set (n := INR (length l)) in *.
    assert (Hn : 0 <= n) by apply pos_INR.
    pose proof (sin2_cos2 (theta i)) as Hcs. unfold Rsqr in Hcs.
    set (c := cos (theta i)) in *. set (s := sin (theta i)) in *.
    assert (Hcross : A * c + B * s <= n).
    { destruct (Rle_dec (A * c + B * s) n) as [? | Hgt]; [done |].
      exfalso. apply Rnot_le_lt in Hgt.
      assert (Hsq : (A * c + B * s) * (A * c + B * s) <= A * A + B * B).
      { replace (A * A + B * B) with
          ((A * c + B * s) * (A * c + B * s) + (A * s - B * c) * (A * s - B * c)).
        - pose proof (Rle_0_sqr (A * s - B * c)) as Hs. unfold Rsqr in Hs. lra.
        - replace (A * A + B * B) with ((A * A + B * B) * (s * s + c * c)).
          + ring.
          + rewrite Hcs. ring. }
      nra. }
    change (foldr Rplus 0 (map (fun i0 => cos (theta i0)) l)) with A.
    change (foldr Rplus 0 (map (fun i0 => sin (theta i0)) l)) with B.
    nra.
Qed.

Lemma length_seqZ_INR m : (0 <= m)%Z -> INR (length (seqZ 0 m)) = IZR m.
Proof. intros Hm. rewrite length_seqZ, INR_IZR_INZ, Z2Nat.id by done. done. Qed.

(** C8. Phase-factor averaging.  For a multiplicity [m >= 1],
    [get_phase_factor] returns the mean over [k < m] of
    exp(i 2 pi q . v_k): real part the mean of the cosines, imaginary part
    the mean of the sines of [2 pi (q . v_k)].  Its modulus is at most 1,
    and is 1 when [m = 1]. *)
Theorem phase_factor_average
    (q : list R) (shortest_vectors : Darray R) (multiplicity : Iarray) pi0 si qi :
  let svecs :=
    at_offset (d_data shortest_vectors)
      (si * aref 0%Z (d_dims shortest_vectors) 1
          * aref 0%Z (d_dims shortest_vectors) 2 * 3
       + pi0 * aref 0%Z (d_dims shortest_vectors) 2 * 3) in
  let m :=
    aref 0%Z (i_data multiplicity) (si * aref 0%Z (i_dims multiplicity) 1 + pi0) in
  let theta k :=
    2 * PI * (aref 0 q (qi * 3 + 0) * aref 0 svecs (k * 3 + 0)
              + aref 0 q (qi * 3 + 1) * aref 0 svecs (k * 3 + 1)
              + aref 0 q (qi * 3 + 2) * aref 0 svecs (k * 3 + 2)) in
  let z := get_phase_factor_R q shortest_vectors multiplicity pi0 si qi in
  (1 <= m)%Z ->
  creal z = sum_R (map (fun k => cos (theta k)) (seqZ 0 m)) / IZR m /\
  cimag z = sum_R (map (fun k => sin (theta k)) (seqZ 0 m)) / IZR m /\
  cabs z <= 1 /\
  (m = 1%Z -> cabs z = 1).
Proof.
  intros svecs m theta z Hm.
  assert (Hz : z = lapack_make_complex_double
                     (sum_R (map (fun k => cos (theta k)) (seqZ 0 m)) / IZR m)
                     (sum_R (map (fun k => sin (theta k)) (seqZ 0 m)) / IZR m)).
  { unfold z, get_phase_factor_R, get_phase_factor. fold svecs. fold m.
    rewrite phase_sums_sum. cbn [fst snd ddiv of_int Double_R].
    f_equal; f_equal; f_equal; apply map_ext; intros k;
      unfold theta, M_2PI_R; by rewrite phase_of_dot. }
  pose proof (unit_vector_sum_bound theta (seqZ 0 m)) as Hb. cbn zeta in Hb.
  rewrite length_seqZ_INR in Hb by lia.
  rewrite Hz. cbn [creal cimag]. unfold cabs. cbn [creal cimag].
  set (A := sum_R (map (fun k => cos (theta k)) (seqZ 0 m))) in *.
  set (B := sum_R (map (fun k => sin (theta k)) (seqZ 0 m))) in *.
  assert (Hpos : 0 < IZR m) by (apply IZR_lt; lia).
  assert (Hnorm : A / IZR m * (A / IZR m) + B / IZR m * (B / IZR m)
                  = (A * A + B * B) / (IZR m * IZR m)).
  { field. lra. }
  split; [reflexivity |]. split; [reflexivity |]. split.
  - rewrite <- sqrt_1. apply sqrt_le_1_alt. rewrite Hnorm.
    apply (Rmult_le_reg_r (IZR m * IZR m)); [nra |].
    replace ((A * A + B * B) / (IZR m * IZR m) * (IZR m * IZR m))
      with (A * A + B * B) by (field; lra).
    lra.
  - intros H1. rewrite Hnorm. unfold A, B. rewrite H1.
    change (seqZ 0 1) with [0%Z]. cbn [map sum_R foldr].
    pose proof (sin2_cos2 (theta 0%Z)) as Hcs. unfold Rsqr in Hcs.
    replace ((cos (theta 0%Z) + 0) * (cos (theta 0%Z) + 0)
             + (sin (theta 0%Z) + 0) * (sin (theta 0%Z) + 0)) with 1 by lra.
    replace (1 / (1 * 1)) with 1 by lra. apply sqrt_1.
Qed.

End PhaseLaws.

(** * The code on the one-atom crystal *)

(** The end-to-end scenario of a diagonal force-constant matrix with
    eigenvalues 1, 4, 9 and unit factor: frequencies 1, 2, 3 at both stored
    grid points, and both flags set. *)
Example one_atom_batch_binary64 :
  let r := batch_call (DY := one_atom_dynmat) (LW := diagonal_lapack)
             demo_tables demo_frequencies demo_eigenvectors demo_done demo_request in
  d_data r.1.1 = [1; 2; 3; 1; 2; 3]%float /\ r.2 = [1; 1].
Proof. vm_compute. split; reflexivity. Qed.

(** Hermitization of an asymmetric 3 x 3 matrix in binary64: the cells
    (0, 1) and (1, 0) are conjugate. *)
Example hermitize_binary64 :
  let a := hermitize 1 [1; 2; 3; 4; 5; 6; 7; 8; 9]%float
             [0; 1; 2; 3; 0; 5; 6; 7; 0]%float (replicate 9 czero) in
  aref czero a 1 = lapack_make_complex_double 3%float (-1)%float /\
  aref czero a 3 = lapack_make_complex_double 3%float 1%float.
Proof. split; reflexivity. Qed.

(** The correction on the polar crystal in binary64: none at the zero
    wavevector without a direction, one with a direction, one at
    q = (1/2, 0, 0); none without Born charges. *)
Example nac_applicability_binary64 :
  let t : Tables float := demo_polar_unit in
  let q gp := grid_point_q (F := float) (grid_address t) (mesh t) gp in
  charge_sum_of (DY := one_atom_dynmat) t None (q 0) = None /\
  charge_sum_of (DY := one_atom_dynmat) t (Some [1; 0; 0]%float) (q 0)
    = Some (replicate 9 1%float) /\
  charge_sum_of (DY := one_atom_dynmat) t None (q 1) = Some (replicate 9 1%float) /\
  charge_sum_of (DY := one_atom_dynmat) demo_tables None (q 1) = None.
Proof. cbn zeta. repeat split; vm_compute; reflexivity. Qed.

(** The request [5, 5, 7] on eight undone grid points selects 5 and 7 once
    each. *)
Example collect_5_5_7 :
  collect_undone_grid_points (replicate 8 0) 3 [5; 5; 7] =
  (2, [5; 7], [0; 0; 0; 0; 0; 1; 0; 1]).
Proof. reflexivity. Qed.

Lemma scheduler_caching_law_witness :
  request_ok demo_request /\
  Forall (in_range demo_done) (i_data demo_request) /\
  NoDup (selected demo_done demo_request) /\
  (forall gp, gp ∈ i_data demo_request ->
     aref 0 (flags_after demo_done demo_request) gp <> 0) /\
  let r := batch_call (F := float) (DY := one_atom_dynmat) (LW := diagonal_lapack)
             demo_tables demo_frequencies demo_eigenvectors demo_done demo_request in
  batch_call (DY := one_atom_dynmat) (LW := diagonal_lapack)
    demo_tables r.1.1 r.1.2 r.2 demo_request = r.
Proof.
  assert (Hok : request_ok demo_request) by reflexivity.
  assert (Hr : Forall (in_range demo_done) (i_data demo_request)).
  { repeat constructor; unfold in_range; simpl; lia. }
  pose proof (scheduler_caching_law (F := float) (DY := one_atom_dynmat)
                (LW := diagonal_lapack) demo_tables demo_frequencies
                demo_eigenvectors demo_done demo_request Hok Hr) as Hlaw.
  cbn zeta in Hlaw.
  destruct Hlaw as (_ & _ & Hnd & _ & _ & Hdone & Hagain).
  split; [exact Hok |]. split; [exact Hr |]. split; [exact Hnd |].
  split; [exact Hdone |].
  apply Hagain; [exact Hok |].
  apply Forall_forall. intros gp Hgp. exact Hgp.
Defined.

Lemma hermitization_correct_witness :
  let t : Tables R := demo_tables in
  let a : list (lapack_complex_double R) := replicate 9 czero in
  let q : list R := [0; 0; 0]%R in
  let m := solver_matrix (DY := one_atom_dynmat) t None a q in
  (num_band_of t * num_band_of t <= Z.of_nat (length a)) /\
  0 <= 0 < num_band_of t /\ 0 <= 1 < num_band_of t /\
  aref czero m (0 * num_band_of t + 1) =
  cconj (aref czero m (1 * num_band_of t + 0)).
Proof.
  cbn zeta.
  assert (H1 : num_band_of (demo_tables (F := R)) * num_band_of (demo_tables (F := R))
               <= Z.of_nat (length (replicate 9 (czero (F := R)))))
    by (change (3 * 3 <= 9); lia).
  assert (H2 : 0 <= 0 < num_band_of (demo_tables (F := R)))
    by (change (0 <= 0 < 3); lia).
  assert (H3 : 0 <= 1 < num_band_of (demo_tables (F := R)))
    by (change (0 <= 1 < 3); lia).
  split; [exact H1 |]. split; [exact H2 |]. split; [exact H3 |].
  apply (hermitization_correct (DY := one_atom_dynmat) (LW := diagonal_lapack)
           demo_tables None (replicate 9 czero) [0; 0; 0]%R [0; 0; 0]%R 0 1 H1 H2 H3).
Defined.

Lemma frequency_conversion_signed_witness :
  let t : Tables R := demo_tables in
  let a : list (lapack_complex_double R) := replicate 9 czero in
  let w : list R := [0; 0; 0]%R in
  let eig :=
    (phonopy_zheev (LapackWrapper := diagonal_lapack) w
       (solver_matrix (DY := one_atom_dynmat) t None a w) (num_band_of t)
       (uplo t)).1.2 in
  let freq :=
    (solve_q (DY := one_atom_dynmat) (LW := diagonal_lapack) t None a w w).2 in
  num_band_of t <= Z.of_nat (length eig) /\
  (0 < unit_conversion_factor t)%R /\
  (aref 0 eig 0 <= aref 0 eig 1 -> aref 0 freq 0 <= aref 0 freq 1)%R.
Proof.
  cbn zeta.
  assert (H1 : (0 < unit_conversion_factor (demo_tables (F := R)))%R).
  { change (0 < 1)%R. lra. }
  assert (H2 : num_band_of (demo_tables (F := R)) <=
               Z.of_nat (length
                 (phonopy_zheev (LapackWrapper := diagonal_lapack) [0; 0; 0]%R
                    (solver_matrix (DY := one_atom_dynmat) demo_tables None
                       (replicate 9 czero) [0; 0; 0]%R)
                    (num_band_of demo_tables) (uplo demo_tables)).1.2)).
  { change (num_band_of (demo_tables (F := R))) with 3.
    cbn [phonopy_zheev diagonal_lapack]. unfold diagonal_zheev. cbn [fst snd].
    rewrite (length_foldl_aset (fun i => i)
               (fun _ i => creal (aref (lapack_make_complex_double (of_int 0) (of_int 0))
                                    (solver_matrix (DY := one_atom_dynmat) demo_tables None
                                       (replicate 9 czero) [0; 0; 0]%R) (i * 3 + i)))).
    cbn [length]. lia. }
  split; [exact H2 |]. split; [exact H1 |].
  destruct (frequency_conversion_signed (DY := one_atom_dynmat)
              (LW := diagonal_lapack) demo_tables None (replicate 9 czero)
              [0; 0; 0]%R [0; 0; 0]%R H2) as (_ & _ & Hpos).
  destruct (Hpos H1) as [_ Hmono].
  apply Hmono; [lia | change (1 < 3); lia].
Defined.

Lemma nac_scaling_formula_witness :
  let t : Tables R := demo_supercell_tables in
  let d : option (list R) := Some [1; 1; 0]%R in
  let q : list R := [0; 0; 0]%R in
  let np := aref 0 (i_dims (multi_fc2 t)) 1 in
  let ns := aref 0 (i_dims (multi_fc2 t)) 0 in
  let inv_df :=
    inv_dielectric_factor (dielectric t) (nac_q_cart q (reciprocal_lattice t) d) in
  is_Some (charge_sum_of (DY := one_atom_dynmat) t d q) /\
  inv_df = 3%R /\ inv_df <> 0%R /\ np = 2 /\ ns = 6 /\
  (nac_factor t / inv_df / IZR ns * IZR np = 1 / 3)%R /\
  (nac_factor t / inv_df / IZR ns * IZR np
   = nac_factor t / inv_df / (IZR ns / IZR np))%R.
Proof.
  cbn zeta.
  set (t := demo_supercell_tables (F := R)).
  assert (H1 : is_Some (charge_sum_of (DY := one_atom_dynmat) t
                          (Some [1; 1; 0]%R) [0; 0; 0]%R)).
  { unfold charge_sum_of. apply nac_charge_sum_is_Some.
    split; [by eexists | right; by eexists]. }
  assert (Hv : inv_dielectric_factor (dielectric t)
                 (nac_q_cart [0; 0; 0]%R (reciprocal_lattice t) (Some [1; 1; 0]%R))
               = 3%R).
  { unfold nac_q_cart. rewrite mat3_vec_cells. cbn zeta.
    rewrite inv_dielectric_factor_cells. cbn zeta.
    unfold aref. cbn [t demo_supercell_tables dielectric reciprocal_lattice map].
    repeat match goal with
           | |- context [Z.to_nat ?z] =>
               let n := eval vm_compute in (Z.to_nat z) in
               change (Z.to_nat z) with n
           end.
    cbn [nth of_int dadd dmul Double_R]. lra. }
  assert (H2 : inv_dielectric_factor (dielectric t)
                 (nac_q_cart [0; 0; 0]%R (reciprocal_lattice t) (Some [1; 1; 0]%R))
               <> 0%R) by (rewrite Hv; lra).
  assert (H3 : 0 < aref 0 (i_dims (multi_fc2 t)) 1) by (change (0 < 2); lia).
  assert (H4 : 0 < aref 0 (i_dims (multi_fc2 t)) 0) by (change (0 < 6); lia).
  destruct (nac_scaling_formula (DY := one_atom_dynmat) t
              (Some [1; 1; 0]%R) [0; 0; 0]%R H1 H2 H3 H4) as (_ & _ & _ & Hfac & _).
  split; [exact H1 |]. split; [exact Hv |]. split; [exact H2 |].
  split; [reflexivity |]. split; [reflexivity |].
  split; [| exact Hfac].
  rewrite Hv. change (nac_factor t) with 3%R.
  change (aref 0 (i_dims (multi_fc2 t)) 0) with 6.
  change (aref 0 (i_dims (multi_fc2 t)) 1) with 2. lra.
Defined.

Lemma nac_division_unguarded_witness :
  let t : Tables float := demo_polar_tables in
  let q := grid_point_q (grid_address t) (mesh t) 1 in
  let b := map float_of_Z [1; 1; 1; 0; 1; 0; 0; 0; 1] in
  born t = Some b /\
  q_is_zero q && negb (bool_decide (is_Some (@None (list float)))) = false /\
  (solve_q (DY := one_atom_dynmat) (LW := diagonal_lapack) t None
     (replicate 9 czero) [0; 0; 0]%float q).1.1 =
  (phonopy_zheev (LapackWrapper := diagonal_lapack) [0; 0; 0]%float
     (solver_matrix (DY := one_atom_dynmat) t None (replicate 9 czero) q)
     (num_band_of t) (uplo t)).1.1.
Proof.
  cbn zeta.
  assert (H1 : born (demo_polar_tables (F := float))
               = Some (map float_of_Z [1; 1; 1; 0; 1; 0; 0; 0; 1])) by reflexivity.
  assert (H2 : q_is_zero (grid_point_q (grid_address (demo_polar_tables (F := float)))
                            (mesh (demo_polar_tables (F := float))) 1)
               && negb (bool_decide (is_Some (@None (list float)))) = false)
    by (vm_compute; reflexivity).
  split; [exact H1 |]. split; [exact H2 |].
  destruct (nac_division_unguarded (F := float) (DY := one_atom_dynmat)
              (LW := diagonal_lapack) demo_polar_tables None (replicate 9 czero)
              [0; 0; 0]%float
              (grid_point_q (grid_address demo_polar_tables) (mesh demo_polar_tables) 1)
              (map float_of_Z [1; 1; 1; 0; 1; 0; 0; 0; 1]) H1 H2) as (_ & _ & Hst).
  exact Hst.
Defined.

(** C7, as stated, fails: on the polar one-atom crystal at the grid point 1,
    q = (1/2, 0, 0), the branch of the correction is taken and
    [inv_dielectric_factor] is 0; the division is made, the tensor and the
    raw matrix are infinite, and with a solver that reports success
    [get_phonons] returns status 0 and infinite frequencies. *)
Lemma degenerate_direction_not_rejected :
  let t : Tables float := demo_polar_tables in
  let q := grid_point_q (grid_address t) (mesh t) 1 in
  let q_cart := nac_q_cart q (reciprocal_lattice t) None in
  is_Some (born t) /\
  q_is_zero q = false /\
  inv_dielectric_factor (dielectric t) q_cart = 0%float /\
  dielectric_factor (nac_factor t) (inv_dielectric_factor (dielectric t) q_cart) 1 1
    = infinity /\
  charge_sum_of (DY := one_atom_dynmat) t None q = Some (replicate 9 infinity) /\
  (raw_matrix (DY := one_atom_dynmat) t None q).1 = replicate 9 infinity /\
  (solve_q (DY := one_atom_dynmat) (LW := diagonal_lapack) t None
     (replicate 9 czero) [0; 0; 0]%float q).1.1 = 0 /\
  (solve_q (DY := one_atom_dynmat) (LW := diagonal_lapack) t None
     (replicate 9 czero) [0; 0; 0]%float q).2 = [infinity; infinity; infinity].
Proof.
  cbn zeta. split; [by eexists |].
  repeat split; vm_compute; reflexivity.
Qed.

(** Two equivalent shortest vectors at opposite phase, v = (0, 0, 0) and
    (1, 0, 0) with q = (1/2, 0, 0): the averaged factor is 0. *)
Lemma phase_factor_average_witness :
  let q : list R := [1 / 2; 0; 0]%R in
  let shortest_vectors : Darray R := mkDarray [1; 1; 2; 3] [0; 0; 0; 1; 0; 0]%R in
  let multiplicity := mkIarray [1; 1] [2] in
  let z := get_phase_factor_R q shortest_vectors multiplicity 0 0 0 in
  1 <= aref 0 (i_data multiplicity) (0 * aref 0 (i_dims multiplicity) 1 + 0) /\
  (cabs z <= 1)%R /\ creal z = 0%R /\ cimag z = 0%R.
Proof.
  cbn zeta.
  assert (H1 : 1 <= aref 0 (i_data (mkIarray [1; 1] [2]))
                      (0 * aref 0 (i_dims (mkIarray [1; 1] [2])) 1 + 0))
    by (change (1 <= 2); lia).
  destruct (phase_factor_average [1 / 2; 0; 0]%R
              (mkDarray [1; 1; 2; 3] [0; 0; 0; 1; 0; 0]%R)
              (mkIarray [1; 1] [2]) 0 0 0 H1) as (Hre & Him & Habs & _).
  split; [exact H1 |]. split; [exact Habs |].
  rewrite Hre, Him.
  change (aref 0 (i_data (mkIarray [1; 1] [2]))
            (0 * aref 0 (i_dims (mkIarray [1; 1] [2])) 1 + 0)) with 2.
  change (seqZ 0 2) with [0; 1].
  cbn [map sum_R foldr]. unfold aref, at_offset. cbn [d_data d_dims].
  change (Z.to_nat (0 * 3 + 0)) with 0%nat.
  change (Z.to_nat (0 * 3 + 1)) with 1%nat.
  change (Z.to_nat (0 * 3 + 2)) with 2%nat.
  change (Z.to_nat (1 * 3 + 0)) with 3%nat.
  change (Z.to_nat (1 * 3 + 1)) with 4%nat.
  change (Z.to_nat (1 * 3 + 2)) with 5%nat.
  change (Z.to_nat (0 * nth (Z.to_nat 1) [1; 1; 2; 3] 0
                    * nth (Z.to_nat 2) [1; 1; 2; 3] 0 * 3
                    + 0 * nth (Z.to_nat 2) [1; 1; 2; 3] 0 * 3)) with 0%nat.
  cbn [drop nth].
  replace (2 * PI * (1 / 2 * 0 + 0 * 0 + 0 * 0))%R with 0%R by lra.
  replace (2 * PI * (1 / 2 * 1 + 0 * 0 + 0 * 0))%R with PI by lra.
  rewrite cos_0, sin_0, cos_PI, sin_PI. split; lra.
Defined.

(** C9, as stated, fails.  On the polar one-atom crystal with the checking
    solver, the request [1, 1, 0] runs the solver for the grid point 1 and
    then for 0.  At the grid point 1 the matrix is not diagonal and the
    solver reports status 1; at 0 it reports 0.  The batch leaves exactly
    the buffers that the solver with status 0 everywhere leaves: both flags
    set, the frequencies of the grid point 0, and at the grid point 1 the
    converted leftovers; nothing tells that the grid point 1 failed. *)
Lemma batch_failure_not_reported :
  let t : Tables float := demo_polar_unit in
  let st0 := (demo_frequencies, demo_eigenvectors) in
  let st1 := solve_point (DY := one_atom_dynmat) (LW := checking_lapack) t st0 1 in
  let status st gp :=
    (solve_q (DY := one_atom_dynmat) (LW := checking_lapack) t None
       (at_offset (c_data st.2) (9 * gp)) (at_offset (d_data st.1) (3 * gp))
       (grid_point_q (grid_address t) (mesh t) gp)).1.1 in
  let failing := batch_call (DY := one_atom_dynmat) (LW := checking_lapack)
                   t demo_frequencies demo_eigenvectors demo_done demo_request in
  let silent := batch_call (DY := one_atom_dynmat) (LW := silenced checking_lapack)
                  t demo_frequencies demo_eigenvectors demo_done demo_request in
  selected demo_done demo_request = [1; 0] /\
  status st0 1 = 1 /\
  status st1 0 = 0 /\
  failing = silent /\
  failing.2 = [1; 1] /\
  d_data failing.1.1 = [1; 2; 3; 0; 0; 0]%float.
Proof. cbn zeta. repeat split; vm_compute; reflexivity. Qed.

(** * Further properties of the scheduler *)

Lemma filter_ext_elem {A} (P Q : A -> Prop)
    `{!forall x, Decision (P x)} `{!forall x, Decision (Q x)} (l : list A) :
  (forall x, x ∈ l -> P x <-> Q x) -> filter P l = filter Q l.
Proof.
  induction l as [| a l IH]; intros Hext; [done |].
  rewrite !filter_cons.
  assert (Ha : P a <-> Q a) by (apply Hext; left).
  rewrite IH by (intros x Hx; apply Hext; by right).
  destruct (decide (P a)), (decide (Q a)); tauto || done.
Qed.

Lemma first_occurrences_filter (P : Z -> Prop) `{!forall x, Decision (P x)} l :
  first_occurrences (filter P l) = filter P (first_occurrences l).
Proof.
  induction l as [| a l IH]; [done |].
  rewrite filter_cons. cbn [first_occurrences].
  destruct (decide (P a)) as [Ha | Ha].
  - cbn [first_occurrences]. rewrite filter_cons_True by done. f_equal.
    rewrite IH, !list_filter_filter. apply list_filter_iff. intros x. tauto.
  - rewrite filter_cons_False by done. rewrite IH, list_filter_filter.
    apply list_filter_iff. intros x. split; [| tauto].
    intros Hx. split; [done |]. by intros ->.
Qed.

Lemma length_first_occurrences l : (length (first_occurrences l) <= length l)%nat.
Proof.
  induction l as [| a l IH]; [done |]. cbn [first_occurrences length].
  pose proof (length_filter (fun y => y <> a) (first_occurrences l)). lia.
Qed.

(** The points appended by the loop, in order. *)
Lemma collect_loop_first_occurrences gps : forall u d,
  Forall (in_range d) gps ->
  (collect_loop (u, d) gps).1 =
  u ++ first_occurrences (filter (fun gp => aref 0 d gp = 0) gps).
Proof.
  induction gps as [| x gps IH]; intros u d Hr.
  - cbn. by rewrite app_nil_r.
  - apply Forall_cons in Hr as [Hx Hr].
    rewrite collect_loop_cons. unfold collect_step. cbn [fst snd].
    destruct (aref 0 d x =? 0) eqn:Hd.
    + apply Z.eqb_eq in Hd.
      rewrite IH by (eapply Forall_impl; [exact Hr |]; intros y; unfold in_range;
                     by rewrite length_aset).
      rewrite <- app_assoc. f_equal. cbn [app].
      rewrite filter_cons_True by done. cbn [first_occurrences]. f_equal.
      rewrite <- first_occurrences_filter. f_equal.
      rewrite list_filter_filter. apply filter_ext_elem. intros y Hy.
      rewrite Forall_forall in Hr. apply Hr in Hy.
      destruct (decide (y = x)) as [-> | Hne].
      * rewrite aref_aset_eq by done. split; [lia | tauto].
      * rewrite aref_aset_ne by (unfold in_range in *; lia). tauto.
    + apply Z.eqb_neq in Hd. rewrite IH by done.
      by rewrite filter_cons_False.
Qed.

(** The state after the loop from ([u], [d]) from the one after the loop
    from ([], [d]). *)
Lemma collect_loop_prefix gps : forall u d,
  collect_loop (u, d) gps =
  (u ++ (collect_loop ([], d) gps).1, (collect_loop ([], d) gps).2).
Proof.
  induction gps as [| x gps IH]; intros u d.
  - cbn. by rewrite app_nil_r.
  - rewrite !collect_loop_cons. unfold collect_step. cbn [fst snd].
    destruct (aref 0 d x =? 0); [| apply IH].
    rewrite (IH (u ++ [x])), (IH ([] ++ [x])). cbn [fst snd app].
    by rewrite <- app_assoc.
Qed.

Lemma collect_loop_app l1 l2 d :
  collect_loop ([], d) (l1 ++ l2) =
  ((collect_loop ([], d) l1).1
     ++ (collect_loop ([], (collect_loop ([], d) l1).2) l2).1,
   (collect_loop ([], (collect_loop ([], d) l1).2) l2).2).
Proof.
  unfold collect_loop at 1. rewrite foldl_app. fold (collect_loop ([], d) l1).
  destruct (collect_loop ([], d) l1) as [u1 d1] eqn:H1. cbn [fst snd].
  apply (collect_loop_prefix l2 u1 d1).
Qed.

(** Setting a zero flag lowers the number of zero flags by one. *)
Lemma zero_flags_aset (d : list Z) x :
  in_range d x -> aref 0 d x = 0 ->
  S (length (filter (fun v => v = 0) (aset d x 1)))
  = length (filter (fun v => v = 0) d).
Proof.
  intros [Hx0 Hx1] Hz. unfold aset, aref in *.
  rewrite nth_lookup in Hz.
  destruct (lookup_lt_is_Some_2 d (Z.to_nat x)) as [v Hv]; [lia |].
  rewrite Hv in Hz. cbn in Hz. subst v.
  rewrite insert_take_drop by lia.
  rewrite <- (take_drop_middle d (Z.to_nat x) 0 Hv) at 3.
  rewrite !filter_app, !filter_cons, !length_app.
  rewrite decide_False by lia. rewrite decide_True by done. cbn [length]. lia.
Qed.

Lemma collect_loop_zero_flags gps : forall u d,
  Forall (in_range d) gps ->
  Nat.add (length (filter (fun v => v = 0) (collect_loop (u, d) gps).2))
    (length (collect_loop (u, d) gps).1)
  = Nat.add (length (filter (fun v => v = 0) d)) (length u).
Proof.
  induction gps as [| x gps IH]; intros u d Hr; [done |].
  apply Forall_cons in Hr as [Hx Hr].
  rewrite collect_loop_cons. unfold collect_step. cbn [fst snd].
  destruct (aref 0 d x =? 0) eqn:Hd; [| by apply IH].
  apply Z.eqb_eq in Hd.
  rewrite IH by (eapply Forall_impl; [exact Hr |]; intros y; unfold in_range;
                 by rewrite length_aset).
  rewrite length_app. cbn [length].
  pose proof (zero_flags_aset d x Hx Hd). lia.
Qed.

Section SchedulerMore.
Context {F : Type} {DF : Double F} {DY : Dynmat F} {LW : LapackWrapper F}.

(** X1. The scratch array is large enough.  For a request whose entries
    index the flag array, [num_undone] is the number of selected points; it
    is at most the number of requests and at most the number of flags (the
    [frequencies->dims[0]] cells that [undone] is allocated with), and the
    number of zero flags falls by exactly [num_undone]; the flag array
    keeps its length. *)
Theorem undone_count_bounds phonon_done grid_points :
  request_ok grid_points ->
  Forall (in_range phonon_done) (i_data grid_points) ->
  let r := collect_undone_grid_points phonon_done
             (aref 0 (i_dims grid_points) 0) (i_data grid_points) in
  let zeros (d : list Z) := Z.of_nat (length (filter (fun v => v = 0) d)) in
  r.1.1 = Z.of_nat (length r.1.2) /\
  0 <= r.1.1 <= aref 0 (i_dims grid_points) 0 /\
  r.1.1 <= Z.of_nat (length phonon_done) /\
  zeros r.2 = zeros phonon_done - r.1.1 /\
  length r.2 = length phonon_done.
Proof.
  intros Hok Hr r zeros.
  assert (Hsel : r.1.2 = (collect_loop ([], phonon_done) (i_data grid_points)).1).
  { unfold r, collect_undone_grid_points. cbn [fst snd]. by rewrite Hok, map_aref_seqZ. }
  assert (Hfl : r.2 = (collect_loop ([], phonon_done) (i_data grid_points)).2).
  { unfold r, collect_undone_grid_points. cbn [fst snd]. by rewrite Hok, map_aref_seqZ. }
  destruct (collect_loop_spec (i_data grid_points) [] phonon_done Hr)
    as (Hlen & _ & new & Hu & Hnd & Hin).
  pose proof (collect_loop_zero_flags (i_data grid_points) [] phonon_done Hr) as Hz.
  pose proof (collect_loop_first_occurrences (i_data grid_points) [] phonon_done Hr)
    as Hfo.
  cbn [app length] in Hz, Hfo.
  split; [reflexivity |].
  change r.1.1 with (Z.of_nat (length r.1.2)). rewrite Hsel, Hfl.
  split; [| split; [| split; [| done]]].
  - rewrite Hok, Hfo. split; [lia |].
    pose proof (length_first_occurrences
                  (filter (fun gp => aref 0 phonon_done gp = 0) (i_data grid_points))).
    pose proof (length_filter (fun gp => aref 0 phonon_done gp = 0)
                  (i_data grid_points)). lia.
  - rewrite Hu. cbn [app].
    assert (Hsub : new ⊆+ seqZ 0 (Z.of_nat (length phonon_done))).
    { apply NoDup_submseteq; [done |]. intros x Hx. apply Hin in Hx as [Hx _].
      rewrite Forall_forall in Hr. apply Hr in Hx. unfold in_range in Hx.
      apply elem_of_seqZ. lia. }
    apply submseteq_length in Hsub. rewrite length_seqZ in Hsub. lia.
  - unfold zeros. lia.
Qed.

(** X2. The contents of the scratch array.  For a request whose entries
    index the flag array, [collect_undone_grid_points] leaves in [undone]
    the requested grid points whose flag was zero, each once, in the order
    of their first occurrence in the request. *)
Theorem selected_in_request_order phonon_done grid_points :
  request_ok grid_points ->
  Forall (in_range phonon_done) (i_data grid_points) ->
  (collect_undone_grid_points phonon_done
     (aref 0 (i_dims grid_points) 0) (i_data grid_points)).1.2
  = first_occurrences
      (filter (fun gp => aref 0 phonon_done gp = 0) (i_data grid_points)).
Proof.
  intros Hok Hr. unfold collect_undone_grid_points. cbn [fst snd].
  rewrite Hok, map_aref_seqZ.
  by rewrite (collect_loop_first_occurrences _ [] phonon_done Hr).
Qed.

(** X3. Two batch calls compose.  Calling the batch on a request and then
    on a second request leaves the three buffers that one call on the two
    requests put end to end leaves. *)
Theorem batch_call_concat (t : Tables F)
    frequencies eigenvectors phonon_done first second both :
  request_ok first -> request_ok second -> request_ok both ->
  i_data both = i_data first ++ i_data second ->
  let r := batch_call t frequencies eigenvectors phonon_done first in
  batch_call t r.1.1 r.1.2 r.2 second =
  batch_call t frequencies eigenvectors phonon_done both.
Proof.
  intros H1 H2 H12 Happ r. unfold r.
  rewrite !batch_call_unfold. cbn [fst snd].
  rewrite !selected_unfold, !flags_after_unfold by done.
  rewrite Happ, collect_loop_app. cbn [fst snd].
  rewrite foldl_app. by destruct (foldl _ _ (collect_loop _ (i_data first)).1).
Qed.

End SchedulerMore.

(** * The batch as independent solves *)

Lemma lookup_aref {A} (d : A) (l : list A) i :
  in_range l i -> l !! Z.to_nat i = Some (aref d l i).
Proof.
  intros [Hi Hl]. unfold aref. rewrite nth_lookup.
  destruct (lookup_lt_is_Some_2 l (Z.to_nat i)) as [x Hx]; [lia |].
  by rewrite Hx.
Qed.

Lemma aref_take_eq {A} (d : A) (l1 l2 : list A) n i :
  take n l1 = take n l2 -> (Z.to_nat i < n)%nat -> aref d l1 i = aref d l2 i.
Proof.
  intros Ht Hi. unfold aref. rewrite !nth_lookup.
  rewrite <- (lookup_take_lt l1 n) by done. rewrite <- (lookup_take_lt l2 n) by done.
  by rewrite Ht.
Qed.

Lemma length_take_eq {A} (l1 l2 : list A) n k :
  take n l1 = take n l2 -> (k < n)%nat -> (k < length l1 <-> k < length l2)%nat.
Proof.
  intros Ht Hk.
  assert (Hl : l1 !! k = l2 !! k).
  { rewrite <- (lookup_take_lt l1 n), <- (lookup_take_lt l2 n) by done. by rewrite Ht. }
  rewrite <- !lookup_lt_is_Some. by rewrite Hl.
Qed.

(** A loop that writes [g j] to the cell [j], for the [j] of [js]. *)
Lemma lookup_foldl_fill {A} (g : Z -> A) js : forall a k,
  Forall (fun j => 0 <= j) js ->
  foldl (fun a j => aset a j (g j)) a js !! k =
  if decide (Z.of_nat k ∈ js) then (fun _ => g (Z.of_nat k)) <$> (a !! k)
  else a !! k.
Proof.
  induction js as [| j js IH] using rev_ind; intros a k Hpos.
  - cbn [foldl]. rewrite decide_False; [done |]. apply not_elem_of_nil.
  - apply Forall_app in Hpos as [Hpos Hj]. rewrite Forall_singleton in Hj.
    rewrite foldl_app. cbn [foldl]. unfold aset at 1.
    destruct (decide (Z.to_nat j = k)) as [Hjk | Hjk].
    + assert (Hk : Z.of_nat k = j) by lia.
      rewrite decide_True by (apply elem_of_app; right; by apply list_elem_of_singleton).
      rewrite Hjk.
      destruct (decide (k < length a)%nat) as [Hlt | Hge].
      * rewrite list_lookup_insert_eq
          by (rewrite (length_foldl_aset (fun j => j) (fun _ j => g j)); done).
        destruct (lookup_lt_is_Some_2 a k Hlt) as [x ->]. cbn. by rewrite Hk.
      * rewrite list_insert_ge
          by (rewrite (length_foldl_aset (fun j => j) (fun _ j => g j)); lia).
        rewrite IH by done. rewrite (lookup_ge_None_2 a k) by lia.
        by case_decide.
    + rewrite list_lookup_insert_ne by done. rewrite IH by done.
      destruct (decide (Z.of_nat k ∈ js)) as [Hin | Hin].
      * rewrite decide_True; [done |]. apply elem_of_app. by left.
      * rewrite decide_False; [done |]. intros Hin'.
        apply elem_of_app in Hin' as [? | Hin']; [done |].
        apply list_elem_of_singleton in Hin'. lia.
Qed.

Section OwnCells.
Context {F : Type} {DF : Double F}.

(** The first [n * n] cells that the hermitization leaves do not depend on
    the buffer it writes into. *)
Lemma take_hermitize_own num_patom dm_real dm_imag
    (a1 a2 : list (lapack_complex_double F)) :
  let n := num_patom * 3 in
  0 <= n ->
  n * n <= Z.of_nat (length a1) -> n * n <= Z.of_nat (length a2) ->
  take (Z.to_nat (n * n)) (hermitize num_patom dm_real dm_imag a1)
  = take (Z.to_nat (n * n)) (hermitize num_patom dm_real dm_imag a2).
Proof.
  intros n Hn H1 H2. apply list_eq. intros k. rewrite !lookup_take.
  case_decide as Hk; [| done].
  assert (Hn0 : 0 < n) by nia.
  pose proof (Z.div_mod (Z.of_nat k) n ltac:(lia)) as Hdm.
  pose proof (Z.mod_pos_bound (Z.of_nat k) n Hn0) as Hmod.
  assert (Hdiv : 0 <= Z.of_nat k / n < n).
  { split; [apply Z.div_pos; lia |]. apply Z.div_lt_upper_bound; nia. }
  assert (Hidx : Z.of_nat k = Z.of_nat k / n * n + Z.of_nat k mod n) by lia.
  replace k with (Z.to_nat (Z.of_nat k / n * n + Z.of_nat k mod n)) by lia.
  rewrite !(lookup_aref czero)
    by (unfold in_range; rewrite length_hermitize; lia).
  f_equal. fold n. rewrite !(aref_hermitize czero) by (fold n; lia).
  reflexivity.
Qed.

(** The first [n] converted frequencies depend on the first [n] cells
    only. *)
Lemma take_convert_own num_patom ucf (w1 w2 : list F) :
  let n := num_patom * 3 in
  n <= Z.of_nat (length w1) -> n <= Z.of_nat (length w2) ->
  take (Z.to_nat n) w1 = take (Z.to_nat n) w2 ->
  take (Z.to_nat n) (convert_frequencies num_patom ucf w1)
  = take (Z.to_nat n) (convert_frequencies num_patom ucf w2).
Proof.
  intros n H1 H2 Ht. apply list_eq. intros k. rewrite !lookup_take.
  case_decide as Hk; [| done].
  replace k with (Z.to_nat (Z.of_nat k)) by lia.
  rewrite !(lookup_aref (of_int 0)).
  - f_equal. rewrite !aref_convert_frequencies by (fold n; lia).
    f_equal. apply (aref_take_eq _ _ _ _ _ Ht). lia.
  - unfold in_range. destruct (convert_frequencies_local num_patom ucf w2) as [-> _]. lia.
  - unfold in_range. destruct (convert_frequencies_local num_patom ucf w1) as [-> _]. lia.
Qed.

End OwnCells.

Section IndependentSolves.
Context {F : Type} {DF : Double F} {DY : Dynmat F} {LW : LapackWrapper F}.

(** What [get_phonons] leaves in the first [n] cells of [w] and the first
    [n * n] cells of [a] depends on the first [n] cells of [w] only. *)
Lemma solve_q_own (t : Tables F) d q a1 a2 w1 w2 :
  let n := num_band_of t in
  0 <= n -> zheev_local LW n -> zheev_own LW n ->
  n <= Z.of_nat (length w1) -> n <= Z.of_nat (length w2) ->
  n * n <= Z.of_nat (length a1) -> n * n <= Z.of_nat (length a2) ->
  take (Z.to_nat n) w1 = take (Z.to_nat n) w2 ->
  take (Z.to_nat n) (solve_q t d a1 w1 q).2
  = take (Z.to_nat n) (solve_q t d a2 w2 q).2 /\
  take (Z.to_nat (n * n)) (solve_q t d a1 w1 q).1.2
  = take (Z.to_nat (n * n)) (solve_q t d a2 w2 q).1.2.
Proof.
  intros n Hn Hloc Hown Hw1 Hw2 Ha1 Ha2 Hw.
  rewrite !solve_q_unfold. cbn zeta. cbn [fst snd]. fold n.
  assert (Hm : take (Z.to_nat (n * n)) (solver_matrix t d a1 q)
               = take (Z.to_nat (n * n)) (solver_matrix t d a2 q)).
  { rewrite !solver_matrix_unfold. by apply take_hermitize_own. }
  destruct (Hown w1 w2 (solver_matrix t d a1 q) (solver_matrix t d a2 q) (uplo t) Hw Hm)
    as [Hsw Hsa].
  destruct (Hloc w1 (solver_matrix t d a1 q) (uplo t)) as (Hl1 & _).
  destruct (Hloc w2 (solver_matrix t d a2 q) (uplo t)) as (Hl2 & _).
  cbn zeta in Hl1, Hl2.
  split; [| exact Hsa].
  apply take_convert_own; [fold (num_band_of t); fold n; lia
                          | fold (num_band_of t); fold n; lia | exact Hsw].
Qed.

(** One iteration leaves, in the two slots of its grid point, the result of
    [get_phonons] on the cells of those slots. *)
Lemma solve_point_own (t : Tables F) st gp :
  let nb := aref 0 (d_dims st.1) 1 in
  nb = num_band_of t -> 0 <= nb -> zheev_local LW nb -> zheev_own LW nb ->
  slot_in_range nb st.1 st.2 gp ->
  frequencies_at nb (solve_point t st gp).1 gp
  = (slot_result t gp (frequencies_at nb st.1 gp) (eigenvectors_at nb st.2 gp)).1 /\
  eigenvectors_at nb (solve_point t st gp).2 gp
  = (slot_result t gp (frequencies_at nb st.1 gp) (eigenvectors_at nb st.2 gp)).2.
Proof.
  intros nb Hnb Hnb0 Hloc Hown (Hgp & Hfr & Hev).
  unfold frequencies_at, eigenvectors_at, slot_result. cbn [fst snd].
  rewrite solve_point_unfold. cbn zeta. fold nb. cbn [fst snd d_data c_data].
  set (d := if gp =? 0 then q_direction t else None).
  set (q := grid_point_q (grid_address t) (mesh t) gp).
  set (wv := at_offset (d_data st.1) (nb * gp)).
  set (av := at_offset (c_data st.2) (nb * nb * gp)).
  assert (Hwv : nb <= Z.of_nat (length wv)).
  { unfold wv, at_offset. rewrite length_drop. nia. }
  assert (Hav : nb * nb <= Z.of_nat (length av)).
  { unfold av, at_offset. rewrite length_drop. nia. }
  destruct (Hloc wv (solver_matrix t d av q) (uplo t)) as (Hw1 & _ & Ha1 & _).
  cbn zeta in Hw1, Ha1.
  assert (Hrw : length (solve_q t d av wv q).2 = length wv).
  { rewrite solve_q_unfold. cbn zeta. cbn [snd]. rewrite <- Hnb.
    destruct (convert_frequencies_local (aref 0 (i_dims (multi_fc2 t)) 1)
                (unit_conversion_factor t)
                (phonopy_zheev wv (solver_matrix t d av q) nb (uplo t)).1.2) as [-> _].
    exact Hw1. }
  assert (Hra : length (solve_q t d av wv q).1.2 = length av).
  { rewrite solve_q_unfold. cbn zeta. cbn [fst snd]. rewrite <- Hnb, Ha1.
    rewrite solver_matrix_unfold. apply length_hermitize. }
  rewrite !store_back_view by done.
  rewrite <- Hnb.
  rewrite Hnb in Hloc, Hown, Hwv, Hav, Hnb0.
  rewrite Hnb.
  apply (solve_q_own t d q av (take (Z.to_nat (num_band_of t * num_band_of t)) av)
           wv (take (Z.to_nat (num_band_of t)) wv)); try done.
  - rewrite length_take. lia.
  - rewrite length_take. lia.
  - by rewrite take_idemp.
Qed.

Lemma solve_point_lengths (t : Tables F) st gp :
  length (d_data (solve_point t st gp).1) = length (d_data st.1) /\
  length (c_data (solve_point t st gp).2) = length (c_data st.2).
Proof.
  rewrite solve_point_unfold. cbn zeta. cbn [fst snd d_data c_data].
  unfold store_back. by rewrite !length_inserts.
Qed.

Lemma solve_point_in_range (t : Tables F) st gp nb gp' :
  slot_in_range nb st.1 st.2 gp' ->
  slot_in_range nb (solve_point t st gp).1 (solve_point t st gp).2 gp'.
Proof.
  unfold slot_in_range. destruct (solve_point_lengths t st gp) as [-> ->]. done.
Qed.

(** After the loop over distinct grid points, the slots of each of them
    hold the result of [get_phonons] on the cells those slots held before
    the loop. *)
Lemma foldl_solve_point_own (t : Tables F) gps : forall st gp,
  let nb := aref 0 (d_dims st.1) 1 in
  nb = num_band_of t -> 0 <= nb -> zheev_local LW nb -> zheev_own LW nb ->
  NoDup gps -> Forall (slot_in_range nb st.1 st.2) gps -> gp ∈ gps ->
  frequencies_at nb (foldl (solve_point t) st gps).1 gp
  = (slot_result t gp (frequencies_at nb st.1 gp) (eigenvectors_at nb st.2 gp)).1 /\
  eigenvectors_at nb (foldl (solve_point t) st gps).2 gp
  = (slot_result t gp (frequencies_at nb st.1 gp) (eigenvectors_at nb st.2 gp)).2.
Proof.
  induction gps as [| x gps IH]; intros st gp nb Hnb Hnb0 Hloc Hown Hnd Hr Hgp.
  - by apply elem_of_nil in Hgp.
  - apply NoDup_cons in Hnd as [Hx Hnd].
    apply Forall_cons in Hr as [Hxr Hr].
    cbn [foldl].
    assert (Hdims : aref 0 (d_dims (solve_point t st x).1) 1 = nb).
    { by rewrite solve_point_dims. }
    assert (Hr' : Forall (slot_in_range nb (solve_point t st x).1 (solve_point t st x).2) gps).
    { eapply Forall_impl; [exact Hr |]. intros y. apply solve_point_in_range. }
    assert (Hpos : Forall (fun y => 0 <= y) gps).
    { eapply Forall_impl; [exact Hr |]. by intros y (? & _). }
    apply elem_of_cons in Hgp as [-> | Hgp].
    + pose proof (foldl_solve_point_frame t gps (solve_point t st x) x) as Hfr.
      cbn zeta in Hfr. rewrite Hdims in Hfr.
      destruct (Hfr Hnb Hloc Hnb0 Hpos (proj1 Hxr) Hx) as (_ & -> & ->).
      by apply solve_point_own.
    + pose proof (IH (solve_point t st x) gp) as IH'. cbn zeta in IH'.
      rewrite Hdims in IH'.
      destruct (IH' Hnb Hnb0 Hloc Hown Hnd Hr' Hgp) as [-> ->].
      assert (Hne : gp <> x) by (intros ->; done).
      assert (Hgp0 : 0 <= gp).
      { rewrite Forall_forall in Hpos. by apply Hpos. }
      pose proof (foldl_solve_point_frame t [x] st gp) as Hone.
      cbn zeta in Hone. cbn [foldl] in Hone.
      destruct (Hone Hnb Hloc Hnb0) as (_ & Hf1 & He1); try done.
      * constructor; [exact (proj1 Hxr) | constructor].
      * intros Hin. apply list_elem_of_singleton in Hin. done.
      * fold nb in Hf1, He1. by rewrite Hf1, He1.
Qed.

Lemma undone_call_unfold (t : Tables F) frequencies eigenvectors undone :
  undone_call t frequencies eigenvectors undone =
  foldl (solve_point t) (frequencies, eigenvectors) undone.
Proof. unfold undone_call, get_undone_phonons. by rewrite map_aref_seqZ. Qed.

End IndependentSolves.

Section CollaboratorOwn.
Context {F : Type} {DF : Double F}.

Lemma diagonal_zheev_own (w1 w2 : list F) a1 a2 n uplo :
  0 <= n ->
  take (Z.to_nat n) w1 = take (Z.to_nat n) w2 ->
  take (Z.to_nat (n * n)) a1 = take (Z.to_nat (n * n)) a2 ->
  take (Z.to_nat n) (diagonal_zheev w1 a1 n uplo).1.2
  = take (Z.to_nat n) (diagonal_zheev w2 a2 n uplo).1.2 /\
  take (Z.to_nat (n * n)) (diagonal_zheev w1 a1 n uplo).2
  = take (Z.to_nat (n * n)) (diagonal_zheev w2 a2 n uplo).2.
Proof.
  intros Hn Hw Ha. unfold diagonal_zheev. cbn [fst snd].
  assert (Hpos : forall m, Forall (fun j => 0 <= j) (seqZ 0 m)).
  { intros m. apply Forall_forall. intros j Hj. apply elem_of_seqZ in Hj. lia. }
  split; apply list_eq; intros k; rewrite !lookup_take; case_decide as Hk; try done.
  - rewrite (lookup_foldl_fill
               (fun i => creal (aref (lapack_make_complex_double (of_int 0) (of_int 0))
                                  a1 (i * n + i)))) by done.
    rewrite (lookup_foldl_fill
               (fun i => creal (aref (lapack_make_complex_double (of_int 0) (of_int 0))
                                  a2 (i * n + i)))) by done.
    rewrite !decide_True by (apply elem_of_seqZ; lia).
    assert (Hl : w1 !! k = w2 !! k).
    { rewrite <- (lookup_take_lt w1 (Z.to_nat n)), <- (lookup_take_lt w2 (Z.to_nat n))
        by done. by rewrite Hw. }
    rewrite Hl. destruct (w2 !! k); [| done]. cbn. do 2 f_equal.
    apply (aref_take_eq _ _ _ _ _ Ha). nia.
  - rewrite !(lookup_foldl_fill
                (fun k => lapack_make_complex_double
                            (of_int (Z.b2z (k / n =? k mod n))) (of_int 0))) by done.
    rewrite !decide_True by (apply elem_of_seqZ; lia).
    assert (Hl : a1 !! k = a2 !! k).
    { rewrite <- (lookup_take_lt a1 (Z.to_nat (n * n))),
        <- (lookup_take_lt a2 (Z.to_nat (n * n))) by done. by rewrite Ha. }
    by rewrite Hl.
Qed.

Lemma checking_lapack_own n : 2 <= n -> zheev_own (checking_lapack (F := F)) n.
Proof.
  intros Hn w1 w2 a1 a2 uplo Hw Ha.
  cbn [phonopy_zheev checking_lapack]. unfold checking_zheev.
  rewrite (aref_take_eq (lapack_make_complex_double (of_int 0) (of_int 0))
             a1 a2 _ 1 Ha) by nia.
  destruct (dlt _ _); [by split |].
  apply diagonal_zheev_own; [lia | done | done].
Qed.

End CollaboratorOwn.

Section BatchSlots.
Context {F : Type} {DF : Double F} {DY : Dynmat F} {LW : LapackWrapper F}.

(** X4. The batch is one independent solve per selected grid point.  When
    the buffers have [num_band = 3 * num_patom >= 0] bands, every requested
    slot lies inside them, and the solver keeps to its arguments, then after
    a batch call the two slots of every requested grid point that was not
    done hold what [get_phonons] computes from the cells those slots held
    before the call, the slots of every other grid point are as before, and
    the buffers keep their dimensions and lengths. *)
Theorem batch_solves_each_slot (t : Tables F)
    frequencies eigenvectors phonon_done grid_points :
  let nb := aref 0 (d_dims frequencies) 1 in
  let r := batch_call t frequencies eigenvectors phonon_done grid_points in
  request_ok grid_points ->
  Forall (in_range phonon_done) (i_data grid_points) ->
  Forall (slot_in_range nb frequencies eigenvectors) (i_data grid_points) ->
  nb = num_band_of t -> 0 <= nb -> zheev_local LW nb -> zheev_own LW nb ->
  (forall gp,
     gp ∈ i_data grid_points -> aref 0 phonon_done gp = 0 ->
     (frequencies_at nb r.1.1 gp, eigenvectors_at nb r.1.2 gp)
     = slot_result t gp (frequencies_at nb frequencies gp)
         (eigenvectors_at nb eigenvectors gp)) /\
  (forall gp,
     0 <= gp -> gp ∉ i_data grid_points \/ aref 0 phonon_done gp <> 0 ->
     frequencies_at nb r.1.1 gp = frequencies_at nb frequencies gp /\
     eigenvectors_at nb r.1.2 gp = eigenvectors_at nb eigenvectors gp) /\
  d_dims r.1.1 = d_dims frequencies /\
  length (d_data r.1.1) = length (d_data frequencies) /\
  length (c_data r.1.2) = length (c_data eigenvectors).
Proof.
  intros nb r Hok Hr Hslots Hnb Hnb0 Hloc Hown.
  destruct (collect_loop_spec (i_data grid_points) [] phonon_done Hr)
    as (_ & _ & new & Hu & Hnd & Hin).
  assert (Hsel : selected phonon_done grid_points = new).
  { rewrite selected_unfold by done. by rewrite Hu. }
  assert (Hr1 : r.1 = foldl (solve_point t) (frequencies, eigenvectors) new).
  { unfold r. rewrite batch_call_unfold. cbn [fst]. by rewrite Hsel. }
  assert (Hnew : Forall (slot_in_range nb frequencies eigenvectors) new).
  { apply Forall_forall. intros x Hx. apply Hin in Hx as [Hx _].
    rewrite Forall_forall in Hslots. by apply Hslots. }
  change r.1.1 with (r.1).1. change r.1.2 with (r.1).2. rewrite Hr1.
  split; [| split; [| split; [| split]]].
  - intros gp Hgp Hz.
    pose proof (foldl_solve_point_own t new (frequencies, eigenvectors) gp) as Ho.
    cbn zeta in Ho. cbn [fst snd] in Ho. fold nb in Ho.
    destruct (Ho Hnb Hnb0 Hloc Hown Hnd Hnew) as [-> ->].
    + apply Hin. by split.
    + by destruct (slot_result _ _ _ _).
  - intros gp Hgp0 Hout.
    pose proof (foldl_solve_point_frame t new (frequencies, eigenvectors) gp) as Hk.
    cbn zeta in Hk. cbn [fst snd] in Hk. fold nb in Hk.
    destruct (Hk Hnb Hloc Hnb0) as (_ & Hf & He); try done.
    + eapply Forall_impl; [exact Hnew |]. by intros y (? & _).
    + intros Hmem. apply Hin in Hmem as [? ?]. destruct Hout; done.
  - apply foldl_solve_point_dims.
  - clear Hr1 Hnew Hnd Hin Hu Hsel. induction new as [| x new IH] using rev_ind; [done |].
    rewrite foldl_app. cbn [foldl].
    by destruct (solve_point_lengths t
                   (foldl (solve_point t) (frequencies, eigenvectors) new) x) as [-> _].
  - clear Hr1 Hnew Hnd Hin Hu Hsel. induction new as [| x new IH] using rev_ind; [done |].
    rewrite foldl_app. cbn [foldl].
    by destruct (solve_point_lengths t
                   (foldl (solve_point t) (frequencies, eigenvectors) new) x) as [_ ->].
Qed.

(** X5. The order of the loop of [get_undone_phonons] does not matter.
    The source marks that loop [omp parallel for]; here its iterations are
    run one after the other.  Under the same conditions as above, for a
    list of distinct undone grid points and any reordering of it, the two
    runs leave the same cells in the two slots of every grid point. *)
Theorem undone_order_irrelevant (t : Tables F)
    frequencies eigenvectors undone reordered gp :
  let nb := aref 0 (d_dims frequencies) 1 in
  nb = num_band_of t -> 0 <= nb -> zheev_local LW nb -> zheev_own LW nb ->
  NoDup undone -> undone ≡ₚ reordered ->
  Forall (slot_in_range nb frequencies eigenvectors) undone ->
  0 <= gp ->
  frequencies_at nb (undone_call t frequencies eigenvectors undone).1 gp
  = frequencies_at nb (undone_call t frequencies eigenvectors reordered).1 gp /\
  eigenvectors_at nb (undone_call t frequencies eigenvectors undone).2 gp
  = eigenvectors_at nb (undone_call t frequencies eigenvectors reordered).2 gp.
Proof.
  intros nb Hnb Hnb0 Hloc Hown Hnd Hperm Hr Hgp0.
  rewrite !undone_call_unfold.
  assert (Hnd' : NoDup reordered) by (by rewrite <- Hperm).
  assert (Hr' : Forall (slot_in_range nb frequencies eigenvectors) reordered)
    by (by rewrite <- Hperm).
  destruct (decide (gp ∈ undone)) as [Hin | Hout].
  - assert (Hin' : gp ∈ reordered) by (by rewrite <- Hperm).
    pose proof (foldl_solve_point_own t undone (frequencies, eigenvectors) gp) as H1.
    pose proof (foldl_solve_point_own t reordered (frequencies, eigenvectors) gp) as H2.
    cbn zeta in H1, H2. cbn [fst snd] in H1, H2. fold nb in H1, H2.
    destruct (H1 Hnb Hnb0 Hloc Hown Hnd Hr Hin) as [-> ->].
    destruct (H2 Hnb Hnb0 Hloc Hown Hnd' Hr' Hin') as [-> ->].
    done.
  - assert (Hout' : gp ∉ reordered) by (by rewrite <- Hperm).
    pose proof (foldl_solve_point_frame t undone (frequencies, eigenvectors) gp) as H1.
    pose proof (foldl_solve_point_frame t reordered (frequencies, eigenvectors) gp) as H2.
    cbn zeta in H1, H2. cbn [fst snd] in H1, H2. fold nb in H1, H2.
    destruct (H1 Hnb Hloc Hnb0) as (_ & -> & ->); try done.
    { eapply Forall_impl; [exact Hr |]. by intros y (? & _). }
    destruct (H2 Hnb Hloc Hnb0) as (_ & -> & ->); try done.
    eapply Forall_impl; [exact Hr' |]. by intros y (? & _).
Qed.

(** X6. [get_phonons] writes its output cells only.  With a solver that
    keeps to its arguments, the buffers [w] and [a] keep their lengths and
    every cell after the first [n = 3 * num_patom] of [w] and the first
    [n * n] of [a]. *)
Theorem get_phonons_writes_own_cells (t : Tables F) d a w q :
  let n := num_band_of t in
  zheev_local LW n ->
  length (solve_q t d a w q).2 = length w /\
  drop (Z.to_nat n) (solve_q t d a w q).2 = drop (Z.to_nat n) w /\
  length (solve_q t d a w q).1.2 = length a /\
  drop (Z.to_nat (n * n)) (solve_q t d a w q).1.2 = drop (Z.to_nat (n * n)) a.
Proof.
  intros n Hloc. rewrite solve_q_unfold. cbn zeta. cbn [fst snd]. fold n.
  destruct (Hloc w (solver_matrix t d a q) (uplo t)) as (Hw1 & Hw2 & Ha1 & Ha2).
  cbn zeta in *.
  destruct (convert_frequencies_local (aref 0 (i_dims (multi_fc2 t)) 1)
              (unit_conversion_factor t)
              (phonopy_zheev w (solver_matrix t d a q) n (uplo t)).1.2) as [Hc1 Hc2].
  fold (num_band_of t) in Hc2. fold n in Hc2.
  rewrite Hc1, Hc2, Hw1, Hw2, Ha1, Ha2, solver_matrix_unfold.
  rewrite length_hermitize. unfold n, num_band_of. rewrite hermitize_local. done.
Qed.

End BatchSlots.

(** ** The batch, slot by slot *)

Section ConvertedCells.
Context {F : Type} {DF : Double F}.
Local Open Scope dbl_scope.

(** The first [n = 3 * num_patom] cells after the loop of lines 280-283:
    [sqrt(fabs(w[i])) * ((w[i] > 0) - (w[i] < 0)) * unit_conversion_factor]
    of the cells before it. *)
Lemma take_convert_frequencies num_patom ucf (w : list F) :
  let n := (num_patom * 3)%Z in
  (n <= Z.of_nat (length w))%Z ->
  take (Z.to_nat n) (convert_frequencies num_patom ucf w)
  = map (fun x =>
           dsqrt (dfabs x)
           * of_int (Z.b2z (dlt (of_int 0) x) - Z.b2z (dlt x (of_int 0)))
           * ucf)
        (take (Z.to_nat n) w).
Proof.
  intros n Hn. apply list_eq. intros k.
  rewrite list_lookup_fmap, !lookup_take.
  case_decide as Hk; [| done].
  replace k with (Z.to_nat (Z.of_nat k)) by lia.
  rewrite !(lookup_aref (of_int 0)).
  - cbn. f_equal. rewrite aref_convert_frequencies by (fold n; lia). reflexivity.
  - unfold in_range. lia.
  - unfold in_range. destruct (convert_frequencies_local num_patom ucf w) as [-> _]. lia.
Qed.

End ConvertedCells.

Section StalledLaws.
Context {F : Type} {DF : Double F}.

Lemma stalled_lapack_local n : zheev_local (stalled_lapack (F := F)) n.
Proof.
  intros w a uplo. cbn [phonopy_zheev stalled_lapack]. unfold stalled_zheev.
  cbn zeta. cbn [fst snd].
  destruct (diagonal_zheev_local w a n uplo) as (H1 & H2 & _). done.
Qed.

Lemma stalled_lapack_own n : 0 <= n -> zheev_own (stalled_lapack (F := F)) n.
Proof.
  intros Hn w1 w2 a1 a2 uplo Hw Ha.
  cbn [phonopy_zheev stalled_lapack]. unfold stalled_zheev. cbn [fst snd].
  split; [| done]. by apply diagonal_zheev_own.
Qed.

Lemma diagonal_lapack_local n : zheev_local (diagonal_lapack (F := F)) n.
Proof. intros w a uplo. apply diagonal_zheev_local. Qed.

Lemma diagonal_lapack_own n : 0 <= n -> zheev_own (diagonal_lapack (F := F)) n.
Proof. intros Hn w1 w2 a1 a2 uplo Hw Ha. by apply diagonal_zheev_own. Qed.

End StalledLaws.

Section SlotBySlot.
Context {F : Type} {DF : Double F} {DY : Dynmat F} {LW : LapackWrapper F}.
Local Open Scope dbl_scope.

(** A slot that lies inside the buffers has [num_band] frequencies and
    [num_band * num_band] matrix cells. *)
Lemma length_slots nb (frequencies : Darray F) (eigenvectors : Carray F) gp :
  (0 <= nb)%Z -> slot_in_range nb frequencies eigenvectors gp ->
  length (frequencies_at nb frequencies gp) = Z.to_nat nb /\
  length (eigenvectors_at nb eigenvectors gp) = Z.to_nat (nb * nb).
Proof.
  intros Hnb (Hgp & Hf & He). unfold frequencies_at, eigenvectors_at, at_offset.
  rewrite !length_take, !length_drop. split; nia.
Qed.

(** After a batch call, the slots of a requested grid point that was not
    done hold the result of [get_phonons] on the cells they held. *)
Lemma batch_call_slot_result (t : Tables F)
    frequencies eigenvectors phonon_done grid_points gp :
  let nb := aref 0%Z (d_dims frequencies) 1 in
  let r := batch_call t frequencies eigenvectors phonon_done grid_points in
  request_ok grid_points ->
  Forall (in_range phonon_done) (i_data grid_points) ->
  Forall (slot_in_range nb frequencies eigenvectors) (i_data grid_points) ->
  nb = num_band_of t -> (0 <= nb)%Z -> zheev_local LW nb -> zheev_own LW nb ->
  gp ∈ i_data grid_points -> aref 0%Z phonon_done gp = 0%Z ->
  frequencies_at nb r.1.1 gp
  = (slot_result t gp (frequencies_at nb frequencies gp)
       (eigenvectors_at nb eigenvectors gp)).1 /\
  eigenvectors_at nb r.1.2 gp
  = (slot_result t gp (frequencies_at nb frequencies gp)
       (eigenvectors_at nb eigenvectors gp)).2.
Proof.
  intros nb r Hok Hr Hslots Hnb Hnb0 Hloc Hown Hgp Hz.
  destruct (collect_loop_spec (i_data grid_points) [] phonon_done Hr)
    as (_ & _ & new & Hu & Hnd & Hin).
  assert (Hsel : selected phonon_done grid_points = new).
  { rewrite selected_unfold by done. by rewrite Hu. }
  assert (Hr1 : r.1 = foldl (solve_point t) (frequencies, eigenvectors) new).
  { unfold r. rewrite batch_call_unfold. cbn [fst]. by rewrite Hsel. }
  assert (Hnew : Forall (slot_in_range nb frequencies eigenvectors) new).
  { apply Forall_forall. intros x Hx. apply Hin in Hx as [Hx _].
    rewrite Forall_forall in Hslots. by apply Hslots. }
  change r.1.1 with (r.1).1. change r.1.2 with (r.1).2. rewrite Hr1.
  pose proof (foldl_solve_point_own t new (frequencies, eigenvectors) gp) as Ho.
  cbn zeta in Ho. cbn [fst snd] in Ho. fold nb in Ho.
  apply (Ho Hnb Hnb0 Hloc Hown Hnd Hnew). apply Hin. by split.
Qed.

(** The frequencies of [slot_result]: the conversion of lines 280-283 of
    the cells that the solver left. *)
Lemma slot_result_frequencies (t : Tables F) gp wslot aslot :
  let nb := num_band_of t in
  let s :=
    phonopy_zheev wslot
      (solver_matrix t (if gp =? 0 then q_direction t else None) aslot
         (grid_point_q (grid_address t) (mesh t) gp))
      nb (uplo t) in
  zheev_local LW nb -> (nb <= Z.of_nat (length wslot))%Z ->
  (slot_result t gp wslot aslot).1
  = map (fun x =>
           dsqrt (dfabs x)
           * of_int (Z.b2z (dlt (of_int 0) x) - Z.b2z (dlt x (of_int 0)))
           * unit_conversion_factor t)
        (take (Z.to_nat nb) s.1.2).
Proof.
  intros nb s Hloc Hlen. unfold slot_result. cbn [fst].
  rewrite solve_q_unfold. cbn zeta. cbn [snd]. fold nb. fold s.
  unfold nb, num_band_of. apply take_convert_frequencies.
  fold (num_band_of t). fold nb.
  destruct (Hloc wslot
              (solver_matrix t (if gp =? 0 then q_direction t else None) aslot
                 (grid_point_q (grid_address t) (mesh t) gp)) (uplo t)) as (Hl & _).
  cbn zeta in Hl. fold s in Hl. lia.
Qed.

End SlotBySlot.

Section DirectionThreading.
Context {F : Type} {DF : Double F} {DY : Dynmat F} {LW : LapackWrapper F}.

(** C5. Threading of the limiting direction.  [get_undone_phonons] is run
    on a list of distinct grid points whose slots lie inside the buffers,
    with [num_band = 3 * num_patom] and a solver that keeps to its
    arguments.  After it, the two slots of every grid point [gp] of the
    list hold what [get_phonons] leaves when it is called on the cells of
    those slots with [q[j] = grid_address[gp * 3 + j] / mesh[j]] and with
    the caller's [q_direction] when [gp] is 0, NULL otherwise.  So the
    slots of a grid point other than 0 are the same whatever direction the
    caller supplies, and so are the whole buffers when grid point 0 is not
    in the list. *)
Theorem limiting_direction_threading (t : Tables F)
    frequencies eigenvectors undone (d : option (list F)) :
  let nb := aref 0 (d_dims frequencies) 1 in
  let run (direction : option (list F)) :=
    get_undone_phonons frequencies eigenvectors undone (Z.of_nat (length undone))
      (grid_address t) (mesh t) (fc2 t) (svecs_fc2 t) (multi_fc2 t)
      (masses_fc2 t) (p2s_fc2 t) (s2p_fc2 t) (unit_conversion_factor t) (born t)
      (dielectric t) (reciprocal_lattice t) direction (nac_factor t) (uplo t) in
  let q gp :=
    [ ddiv (of_int (aref 0 (grid_address t) (gp * 3 + 0))) (of_int (aref 0 (mesh t) 0));
      ddiv (of_int (aref 0 (grid_address t) (gp * 3 + 1))) (of_int (aref 0 (mesh t) 1));
      ddiv (of_int (aref 0 (grid_address t) (gp * 3 + 2))) (of_int (aref 0 (mesh t) 2)) ] in
  let call gp (direction : option (list F)) :=
    get_phonons (eigenvectors_at nb eigenvectors gp) (frequencies_at nb frequencies gp)
      (q gp) (fc2 t) (masses_fc2 t) (p2s_fc2 t) (s2p_fc2 t) (multi_fc2 t)
      (svecs_fc2 t) (born t) (dielectric t) (reciprocal_lattice t) direction
      (nac_factor t) (unit_conversion_factor t) (uplo t) in
  nb = num_band_of t -> 0 <= nb -> zheev_local LW nb -> zheev_own LW nb ->
  NoDup undone -> Forall (slot_in_range nb frequencies eigenvectors) undone ->
  (forall gp, gp ∈ undone ->
     let direction := if gp =? 0 then d else None in
     frequencies_at nb (run d).1 gp
     = take (Z.to_nat nb) (call gp direction).2 /\
     eigenvectors_at nb (run d).2 gp
     = take (Z.to_nat (nb * nb)) (call gp direction).1.2) /\
  (forall gp other, gp ∈ undone -> gp <> 0 ->
     frequencies_at nb (run other).1 gp = frequencies_at nb (run d).1 gp /\
     eigenvectors_at nb (run other).2 gp = eigenvectors_at nb (run d).2 gp) /\
  (0 ∉ undone -> forall other, run other = run d).
Proof.
  intros nb run q call Hnb Hnb0 Hloc Hown Hnd Hslots.
  assert (Hrun : forall d0,
            run d0 = foldl (solve_point (with_direction t d0))
                      (frequencies, eigenvectors) undone).
  { intros d0. rewrite <- undone_call_unfold. reflexivity. }
  assert (Hslot : forall d0 gp, gp ∈ undone ->
            frequencies_at nb (run d0).1 gp
            = take (Z.to_nat nb) (call gp (if gp =? 0 then d0 else None)).2 /\
            eigenvectors_at nb (run d0).2 gp
            = take (Z.to_nat (nb * nb)) (call gp (if gp =? 0 then d0 else None)).1.2).
  { clear d. intros d gp Hgp. rewrite Hrun.
    pose proof (foldl_solve_point_own (with_direction t d) undone
                  (frequencies, eigenvectors) gp) as Ho.
    cbn zeta in Ho. cbn [fst snd] in Ho. fold nb in Ho.
    destruct (Ho Hnb Hnb0 Hloc Hown Hnd Hslots Hgp) as [-> ->].
    unfold slot_result, solve_q, num_band_of. cbn [fst snd].
    cbn [with_direction grid_address mesh fc2 svecs_fc2 multi_fc2 masses_fc2
           p2s_fc2 s2p_fc2 unit_conversion_factor born dielectric
           reciprocal_lattice q_direction nac_factor uplo].
    fold (num_band_of t). rewrite <- Hnb. split; reflexivity. }
  split; [| split].
  - intros gp Hgp. cbn zeta. by apply Hslot.
  - intros gp other Hgp Hne.
    destruct (Hslot other gp Hgp) as [-> ->].
    destruct (Hslot d gp Hgp) as [-> ->].
    apply Z.eqb_neq in Hne. rewrite Hne. done.
  - intros Hnot other. rewrite !Hrun.
    rewrite (foldl_solve_point_nonzero (with_direction t other)) by done.
    rewrite (foldl_solve_point_nonzero (with_direction t d)) by done.
    reflexivity.
Qed.

End DirectionThreading.

Section FailedSolve.
Context {F : Type} {DF : Double F} {DY : Dynmat F} {LW : LapackWrapper F}.
Local Open Scope dbl_scope.

(** C10. No atomicity on a failed diagonalization.  Whatever status the
    eigensolver returns, [get_phonons] returns that status and leaves in
    each of the first [n = 3 * num_patom] cells of [w] the value
    [sqrt(fabs(x)) * ((x > 0) - (x < 0)) * unit_conversion_factor] of the
    value [x] the solver left there.  For a batch call with
    [num_band = n], slots inside the buffers and a solver that keeps to its
    arguments, and a requested grid point that was not done: its frequency
    slot holds after the call the values so converted from what the solver,
    run on the cells of the slot, left; its flag is set, whatever the
    solver did; in every later batch call, whatever it requests, the grid
    point is not selected and its flag stays set; and later batch calls
    leave both its slots as they are. *)
Theorem failed_point_stays_done (t : Tables F)
    frequencies eigenvectors phonon_done grid_points gp :
  let nb := aref 0%Z (d_dims frequencies) 1 in
  let r := batch_call t frequencies eigenvectors phonon_done grid_points in
  let converted (x : F) :=
    dsqrt (dfabs x)
    * of_int (Z.b2z (dlt (of_int 0) x) - Z.b2z (dlt x (of_int 0)))
    * unit_conversion_factor t in
  let s :=
    phonopy_zheev (frequencies_at nb frequencies gp)
      (solver_matrix t (if gp =? 0 then q_direction t else None)
         (eigenvectors_at nb eigenvectors gp)
         (grid_point_q (grid_address t) (mesh t) gp))
      nb (uplo t) in
  request_ok grid_points ->
  Forall (in_range phonon_done) (i_data grid_points) ->
  Forall (slot_in_range nb frequencies eigenvectors) (i_data grid_points) ->
  nb = num_band_of t -> (0 <= nb)%Z -> zheev_local LW nb -> zheev_own LW nb ->
  gp ∈ i_data grid_points -> aref 0%Z phonon_done gp = 0%Z ->
  (forall d a w q,
     (nb <= Z.of_nat (length w))%Z ->
     let s' := phonopy_zheev w (solver_matrix t d a q) nb (uplo t) in
     (solve_q t d a w q).1.1 = s'.1.1 /\
     forall k, (0 <= k < nb)%Z ->
       aref (of_int 0) (solve_q t d a w q).2 k = converted (aref (of_int 0) s'.1.2 k)) /\
  frequencies_at nb r.1.1 gp = map converted (take (Z.to_nat nb) s.1.2) /\
  r.2 = flags_after phonon_done grid_points /\
  aref 0%Z r.2 gp <> 0%Z /\
  (forall before request after,
     (gp ∉ selected (run_batches t r before).2 request) /\
     aref 0%Z (run_batches t r (before ++ request :: after)).2 gp <> 0%Z) /\
  (forall later,
     Forall request_wf later ->
     frequencies_at nb (run_batches t r later).1.1 gp = frequencies_at nb r.1.1 gp /\
     eigenvectors_at nb (run_batches t r later).1.2 gp = eigenvectors_at nb r.1.2 gp).
Proof.
  intros nb r converted s Hok Hr Hslots Hnb Hnb0 Hloc Hown Hgp Hz.
  assert (Hflag : aref 0%Z r.2 gp <> 0%Z).
  { unfold r. rewrite batch_call_unfold. cbn [snd].
    by apply requested_points_done. }
  assert (Hgp0 : (0 <= gp)%Z).
  { rewrite Forall_forall in Hr. apply Hr in Hgp. unfold in_range in Hgp. lia. }
  split; [| split; [| split; [| split; [exact Hflag | split]]]].
  - intros d a w q Hlen s'. rewrite solve_q_unfold. cbn zeta. cbn [fst snd].
    rewrite <- Hnb. fold s'. split; [reflexivity |].
    intros k Hk. rewrite aref_convert_frequencies.
    + reflexivity.
    + fold (num_band_of t). rewrite <- Hnb.
      destruct (Hloc w (solver_matrix t d a q) (uplo t)) as (Hl & _).
      cbn zeta in Hl. fold s' in Hl. lia.
    + fold (num_band_of t). by rewrite <- Hnb.
  - destruct (batch_call_slot_result t frequencies eigenvectors phonon_done
                grid_points gp Hok Hr Hslots Hnb Hnb0 Hloc Hown Hgp Hz) as [Hf _].
    fold nb r in Hf. rewrite Hf.
    rewrite Forall_forall in Hslots.
    destruct (length_slots nb frequencies eigenvectors gp Hnb0 (Hslots gp Hgp))
      as [Hlw _].
    rewrite Hnb in Hloc.
    rewrite slot_result_frequencies by (done || rewrite Hlw, <- Hnb; lia).
    unfold s. rewrite Hnb. reflexivity.
  - unfold r. by rewrite batch_call_unfold.
  - intros before request after. split.
    + apply done_point_not_selected. by apply run_batches_keeps_done.
    + by apply run_batches_keeps_done.
  - intros later Hwf.
    assert (Hdims : aref 0%Z (d_dims r.1.1) 1 = nb).
    { unfold r. by rewrite batch_call_dims. }
    pose proof (run_batches_keeps_slot t later r gp) as Hkeep. cbn zeta in Hkeep.
    rewrite Hdims in Hkeep. by apply Hkeep.
Qed.

End FailedSolve.

(** * Further properties of the correction and of the conversion *)

Section GammaByIndex.
Context {DY : Dynmat R} {LW : LapackWrapper R}.
Local Open Scope R_scope.

Lemma Rltb_true x y : x < y -> Rltb x y = true.
Proof. intros H. unfold Rltb. by destruct (Rlt_dec x y). Qed.

Lemma grid_point_q_zero_address (grid_address mesh : list Z) gp :
  (forall j, (0 <= j < 3)%Z -> aref 0%Z grid_address (gp * 3 + j) = 0%Z) ->
  q_is_zero (grid_point_q (F := R) grid_address mesh gp) = true.
Proof.
  intros Hz. rewrite grid_point_q_cells, !Hz by lia.
  set (x0 := ddiv (of_int 0) (of_int (aref 0%Z mesh 0))).
  set (x1 := ddiv (of_int 0) (of_int (aref 0%Z mesh 1))).
  set (x2 := ddiv (of_int 0) (of_int (aref 0%Z mesh 2))).
  assert (H0 : x0 = 0) by (unfold x0; cbn; unfold Rdiv; ring).
  assert (H1 : x1 = 0) by (unfold x1; cbn; unfold Rdiv; ring).
  assert (H2 : x2 = 0) by (unfold x2; cbn; unfold Rdiv; ring).
  unfold q_is_zero.
  change (aref (of_int 0) [x0; x1; x2] 0) with x0.
  change (aref (of_int 0) [x0; x1; x2] 1) with x1.
  change (aref (of_int 0) [x0; x1; x2] 2) with x2.
  rewrite H0, H1, H2. cbn [dfabs dlt d1em10 Double_R].
  rewrite Rabs_R0. rewrite Rltb_true; [done |]. lra.
Qed.

(** X7. The zero wavevector is recognised by its index, not by its address.
    A grid point other than 0 whose address is (0, 0, 0), on a mesh without
    a zero entry, is solved with no correction at all, whatever limiting
    direction the caller supplies: the loop body gives what it gives without
    Born charges. *)
Theorem zero_address_off_index_zero (t : Tables R) st gp :
  gp <> 0%Z ->
  (forall j, (0 <= j < 3)%Z -> aref 0%Z (grid_address t) (gp * 3 + j) = 0%Z) ->
  (forall j, (0 <= j < 3)%Z -> aref 0%Z (mesh t) j <> 0%Z) ->
  forall d,
    charge_sum_of (with_direction t d) None
      (grid_point_q (grid_address t) (mesh t) gp) = None /\
    solve_point (with_direction t d) st gp = solve_point (with_born t None) st gp.
Proof.
  intros Hgp Haddr _ d.
  assert (Hq : q_is_zero (grid_point_q (F := R) (grid_address t) (mesh t) gp) = true)
    by (by apply grid_point_q_zero_address).
  assert (Hc : forall t' : Tables R, grid_address t' = grid_address t ->
             mesh t' = mesh t ->
             charge_sum_of t' None (grid_point_q (grid_address t) (mesh t) gp) = None).
  { intros t' _ _. unfold charge_sum_of, nac_charge_sum. rewrite Hq.
    by destruct (born t'). }
  split; [by apply Hc |].
  rewrite !solve_point_unfold. apply Z.eqb_neq in Hgp. rewrite Hgp. cbn zeta.
  cbn [with_direction with_born grid_address mesh].
  rewrite (solve_q_without_charge_sum (with_direction t d)) by (by apply Hc).
  reflexivity.
Qed.

End GammaByIndex.

(** ** Division by zero in binary64 *)

Section ZeroDirection.
Local Open Scope float_scope.

Lemma float_cases (x : float) :
  x = nan \/ x = infinity \/ x = neg_infinity \/ x = 0 \/ x = (-0) \/
  exists s m e, FloatOps.Prim2SF x = SpecFloat.S754_finite s m e.
Proof.
  destruct (FloatOps.Prim2SF x) as [s | s | | s m e] eqn:Hx.
  - destruct s; [right; right; right; right; left | right; right; right; left];
      by apply FloatAxioms.Prim2SF_inj.
  - destruct s; [right; right; left | right; left]; by apply FloatAxioms.Prim2SF_inj.
  - left. by apply FloatAxioms.Prim2SF_inj.
  - repeat right. by exists s, m, e.
Qed.

Lemma is_finite_cases (x : float) :
  PrimFloat.is_finite x = true ->
  x = 0 \/ x = (-0) \/ exists s m e, FloatOps.Prim2SF x = SpecFloat.S754_finite s m e.
Proof.
  intros Hf.
  destruct (float_cases x) as [-> | [-> | [-> | [-> | [-> | H]]]]];
    try discriminate Hf; auto.
Qed.

Lemma is_zero_cases (x : float) : PrimFloat.is_zero x = true -> x = 0 \/ x = (-0).
Proof.
  intros Hz.
  destruct (float_cases x) as [-> | [-> | [-> | [-> | [-> | (s & m & e & H)]]]]];
    try discriminate Hz; auto.
  unfold PrimFloat.is_zero in Hz. rewrite FloatAxioms.eqb_spec, H in Hz. by destruct s.
Qed.

Lemma mul_finite_zero (x y : float) :
  PrimFloat.is_finite x = true -> PrimFloat.is_zero y = true -> x * y = 0 \/ x * y = (-0).
Proof.
  intros Hx Hy.
  destruct (is_zero_cases y Hy) as [-> | ->];
    destruct (is_finite_cases x Hx) as [-> | [-> | (s & m & e & H)]];
    try (by left); try (by right).
  - destruct s; [right | left]; apply FloatAxioms.Prim2SF_inj; rewrite FloatAxioms.mul_spec, H; reflexivity.
  - destruct s; [left | right]; apply FloatAxioms.Prim2SF_inj; rewrite FloatAxioms.mul_spec, H; reflexivity.
Qed.

Lemma add_zero_zero (z : float) : z = 0 \/ z = (-0) -> 0 + z = 0.
Proof. by intros [-> | ->]. Qed.

Lemma div_by_zero_not_finite (x : float) : PrimFloat.is_finite (x / 0) = false.
Proof.
  destruct (float_cases x) as [-> | [-> | [-> | [-> | [-> | (s & m & e & H)]]]]];
    try reflexivity.
  assert (Hq : x / 0 = infinity \/ x / 0 = neg_infinity).
  { destruct s; [right | left]; apply FloatAxioms.Prim2SF_inj; rewrite FloatAxioms.div_spec, H; reflexivity. }
  by destruct Hq as [-> | ->].
Qed.

Lemma zero_row (m0 m1 m2 v0 v1 v2 : float) :
  PrimFloat.is_finite m0 = true -> PrimFloat.is_finite m1 = true -> PrimFloat.is_finite m2 = true ->
  PrimFloat.is_zero v0 = true -> PrimFloat.is_zero v1 = true -> PrimFloat.is_zero v2 = true ->
  0 + m0 * v0 + m1 * v1 + m2 * v2 = 0.
Proof.
  intros H0 H1 H2 Z0 Z1 Z2.
  rewrite (add_zero_zero _ (mul_finite_zero m0 v0 H0 Z0)).
  rewrite (add_zero_zero _ (mul_finite_zero m1 v1 H1 Z1)).
  apply (add_zero_zero _ (mul_finite_zero m2 v2 H2 Z2)).
Qed.

(** X9. A zero limiting direction is not rejected.  In binary64, with Born
    charges, a supplied direction whose three entries are zeros and finite
    entries in the reciprocal lattice and the dielectric tensor, the
    branch of the correction is taken whatever [q] is, the Cartesian
    wavevector is (0, 0, 0), [inv_dielectric_factor] is 0, the quotient
    [nac_factor / inv_dielectric_factor] is an infinity or a NaN, and
    [get_charge_sum] is called with
    [nac_factor / 0 / num_satom * num_patom]. *)
Theorem zero_direction_divides_by_zero {DY : Dynmat float}
    (t : Tables float) (d q b : list float) :
  born t = Some b ->
  (forall j, (0 <= j < 3)%Z -> PrimFloat.is_zero (aref 0 d j) = true) ->
  (forall k, (0 <= k < 9)%Z -> PrimFloat.is_finite (aref 0 (reciprocal_lattice t) k) = true) ->
  (forall k, (0 <= k < 9)%Z -> PrimFloat.is_finite (aref 0 (dielectric t) k) = true) ->
  let np := aref 0%Z (i_dims (multi_fc2 t)) 1 in
  let ns := aref 0%Z (i_dims (multi_fc2 t)) 0 in
  let q_cart := nac_q_cart q (reciprocal_lattice t) (Some d) in
  q_cart = [0; 0; 0] /\
  inv_dielectric_factor (dielectric t) q_cart = 0 /\
  PrimFloat.is_finite (nac_factor t / inv_dielectric_factor (dielectric t) q_cart) = false /\
  charge_sum_of t (Some d) q =
    Some (get_charge_sum np (nac_factor t / 0 / float_of_Z ns * float_of_Z np)
            [0; 0; 0] b).
Proof.
  intros Hb Hd Hrl He np ns q_cart.
  assert (Hq : q_cart = [0; 0; 0]).
  { unfold q_cart, nac_q_cart. rewrite mat3_vec_cells. cbn zeta.
    change (of_int 0) with 0. change dadd with PrimFloat.add.
    change dmul with PrimFloat.mul.
    rewrite !zero_row by (apply Hrl || apply Hd; lia). reflexivity. }
  assert (Hi : inv_dielectric_factor (dielectric t) q_cart = 0).
  { rewrite Hq, inv_dielectric_factor_cells. cbn zeta.
    change (of_int 0) with 0. change dadd with PrimFloat.add.
    change dmul with PrimFloat.mul.
    change (aref 0 [0; 0; 0] 0) with 0. change (aref 0 [0; 0; 0] 1) with 0.
    change (aref 0 [0; 0; 0] 2) with 0.
    assert (Ht : forall i, (0 <= i < 3)%Z ->
              0 + aref 0 (dielectric t) (i * 3 + 0) * 0
                + aref 0 (dielectric t) (i * 3 + 1) * 0
                + aref 0 (dielectric t) (i * 3 + 2) * 0 = 0).
    { intros i Hi. apply zero_row; (apply He; lia) || reflexivity. }
    rewrite !Ht by lia. reflexivity. }
  split; [exact Hq |]. split; [exact Hi |].
  split; [rewrite Hi; apply div_by_zero_not_finite |].
  unfold charge_sum_of. rewrite Hb, nac_charge_sum_taken.
  - fold q_cart. rewrite Hi, Hq. reflexivity.
  - rewrite bool_decide_eq_true_2 by by eexists. cbn. apply andb_false_r.
Qed.

End ZeroDirection.

Section DirectionReplacesQ.
Context {F : Type} {DF : Double F} {DY : Dynmat F} {LW : LapackWrapper F}.

(** X8. A supplied limiting direction replaces [q] in the correction.
    With Born charges and a direction, [get_phonons] builds the tensor for
    every [q], zero or not, from the direction alone: the tensor is the same
    for any two wavevectors, and the raw matrix differs only through the
    [q] given to [get_dynamical_matrix_at_q]. *)
Theorem direction_replaces_q (t : Tables F) d q q' b :
  born t = Some b ->
  let np := aref 0 (i_dims (multi_fc2 t)) 1 in
  let ns := aref 0 (i_dims (multi_fc2 t)) 0 in
  let q_cart := mat3_vec (reciprocal_lattice t) d in
  let tensor :=
    get_charge_sum np
      (dielectric_factor (nac_factor t)
         (inv_dielectric_factor (dielectric t) q_cart) ns np)
      q_cart b in
  charge_sum_of t (Some d) q = Some tensor /\
  charge_sum_of t (Some d) q' = charge_sum_of t (Some d) q /\
  raw_matrix t (Some d) q =
    get_dynamical_matrix_at_q
      (replicate (Z.to_nat (np * np * 9)) (of_int 0))
      (replicate (Z.to_nat (np * np * 9)) (of_int 0))
      np ns (d_data (fc2 t)) q (d_data (svecs_fc2 t)) (i_data (multi_fc2 t))
      (masses_fc2 t) (s2p_fc2 t) (p2s_fc2 t) (Some tensor).
Proof.
  intros Hb np ns q_cart tensor.
  assert (Hc : forall q0, charge_sum_of t (Some d) q0 = Some tensor).
  { intros q0. unfold charge_sum_of. rewrite Hb, nac_charge_sum_taken; [done |].
    rewrite bool_decide_eq_true_2 by by eexists. cbn. apply andb_false_r. }
  split; [apply Hc |]. split; [by rewrite !Hc |].
  unfold raw_matrix, get_phonons_dm. cbn zeta.
  pose proof (Hc q) as Hq. unfold charge_sum_of in Hq. by rewrite Hq.
Qed.

End DirectionReplacesQ.

Section HermitizeMore.
Local Open Scope R_scope.

(** X10. The hermitized matrix has a real diagonal, and a matrix that is
    already Hermitian is left as it is.  For an output block of at least
    [n * n] cells, [n = 3 * num_patom]: the cell (i, i) is
    [dm_real[i,i] + 0 i]; and when [dm_real] is symmetric and [dm_imag]
    antisymmetric, every cell (i, j) is [dm_real[i,j] + dm_imag[i,j] i]. *)
Theorem hermitize_fixes_hermitian num_patom (dm_real dm_imag : list R)
    (a : list (lapack_complex_double R)) :
  let n := (num_patom * 3)%Z in
  let m := hermitize num_patom dm_real dm_imag a in
  (n * n <= Z.of_nat (length a))%Z ->
  (forall i, (0 <= i < n)%Z ->
     aref czero m (i * n + i)
     = lapack_make_complex_double (aref 0 dm_real (i * n + i)) 0) /\
  ((forall i j, (0 <= i < n)%Z -> (0 <= j < n)%Z ->
      aref 0 dm_real (j * n + i) = aref 0 dm_real (i * n + j) /\
      aref 0 dm_imag (j * n + i) = - aref 0 dm_imag (i * n + j)) ->
   forall i j, (0 <= i < n)%Z -> (0 <= j < n)%Z ->
     aref czero m (i * n + j)
     = lapack_make_complex_double
         (aref 0 dm_real (i * n + j)) (aref 0 dm_imag (i * n + j))).
Proof.
  intros n m Hlen. split.
  - intros i Hi. unfold m. fold n. rewrite (aref_hermitize czero) by (fold n; lia).
    fold n. unfold hermitize_cell. cbn [dadd dsub ddiv of_int Double_R].
    f_equal; lra.
  - intros Hherm i j Hi Hj. unfold m.
    rewrite (aref_hermitize czero) by (fold n; lia). fold n.
    unfold hermitize_cell. cbn [dadd dsub ddiv of_int Double_R].
    destruct (Hherm i j Hi Hj) as [-> ->]. f_equal; lra.
Qed.

(** X11. An eigenvalue can be read back from its frequency.  For a
    non-zero [unit_conversion_factor], with [f] the frequency of [lambda]
    and [s = f / factor]: [lambda = s * |s|]; so the conversion is
    one-to-one, and [|f| = sqrt |lambda| * |factor|]. *)
Theorem frequency_round_trip (ucf lambda : R) :
  ucf <> 0 ->
  let f := frequency ucf lambda in
  f / ucf * Rabs (f / ucf) = lambda /\
  Rabs f = R_sqrt.sqrt (Rabs lambda) * Rabs ucf /\
  (forall lambda', frequency ucf lambda' = f -> lambda' = lambda).
Proof.
  intros Hu f.
  assert (Hinv : forall l, frequency ucf l / ucf * Rabs (frequency ucf l / ucf) = l).
  { intros l. rewrite frequency_sgn.
    replace (sgn l * R_sqrt.sqrt (Rabs l) * ucf / ucf)
      with (sgn l * R_sqrt.sqrt (Rabs l)) by (field; done).
    pose proof (sqrt_pos (Rabs l)) as Hs.
    pose proof (sqrt_sqrt (Rabs l) (Rabs_pos l)) as Hss.
    unfold sgn. destruct (Rlt_dec 0 l) as [Hp | Hp].
    - rewrite Rabs_right in * by lra. rewrite (Rabs_right (1 * _)) by lra. nra.
    - destruct (Rlt_dec l 0) as [Hn | Hn].
      + rewrite (Rabs_left l) in * by lra.
        rewrite (Rabs_left1 (-1 * _)) by lra. nra.
      + assert (l = 0) by lra. subst l. rewrite Rabs_R0, sqrt_0. 
        rewrite Rmult_0_l, Rabs_R0. lra. }
  split; [apply Hinv |]. split.
  - unfold f. rewrite frequency_sgn, !Rabs_mult.
    rewrite (Rabs_right (R_sqrt.sqrt _)) by (apply Rle_ge, sqrt_pos).
    unfold sgn. destruct (Rlt_dec 0 lambda) as [Hp | Hp].
    + rewrite Rabs_R1. ring.
    + destruct (Rlt_dec lambda 0) as [Hn | Hn].
      * rewrite Rabs_left by lra. ring.
      * assert (lambda = 0) by lra. subst lambda. rewrite (Rabs_R0), sqrt_0. ring.
  - intros l' Heq. rewrite <- (Hinv l'), <- (Hinv lambda). fold f. by rewrite Heq.
Qed.

End HermitizeMore.

(** * Further properties of the phase factor *)

Section PhaseMore.
Local Open Scope R_scope.

Lemma aref_map_opp (q : list R) i : aref 0 (map Ropp q) i = - aref 0 q i.
Proof.
  unfold aref. rewrite <- (map_nth Ropp q 0). f_equal. by rewrite Ropp_0.
Qed.

Lemma phase_of_opp (q svecs : list R) qi i :
  phase_of (map Ropp q) svecs qi i = - phase_of q svecs qi i.
Proof. rewrite !phase_of_dot, !aref_map_opp. ring. Qed.

Lemma sum_R_map_opp (f : Z -> R) l :
  sum_R (map (fun i => - f i) l) = - sum_R (map f l).
Proof.
  induction l as [| x l IH]; unfold sum_R in *; cbn [map foldr]; [lra |].
  rewrite IH. lra.
Qed.

Lemma sum_R_map_const (c : R) (l : list Z) :
  sum_R (map (fun _ => c) l) = INR (length l) * c.
Proof.
  induction l as [| x l IH]; unfold sum_R in *; cbn [map foldr length]; [cbn; lra |].
  rewrite IH, S_INR. lra.
Qed.

(** X12. Reversing the wavevector conjugates the phase factor: for every
    multiplicity (zero included) the factor computed for [-q] has the same
    real part and the opposite imaginary part as the one computed for
    [q]. *)
Theorem phase_factor_conjugate
    (q : list R) (shortest_vectors : Darray R) (multiplicity : Iarray) pi0 si qi :
  get_phase_factor_R (map Ropp q) shortest_vectors multiplicity pi0 si qi
  = cconj (get_phase_factor_R q shortest_vectors multiplicity pi0 si qi).
Proof.
  unfold get_phase_factor_R, get_phase_factor, cconj.
  rewrite !phase_sums_sum. cbn [fst snd creal cimag ddiv of_int Double_R].
  f_equal.
  - f_equal. f_equal. apply map_ext. intros k.
    rewrite phase_of_opp. rewrite <- cos_neg. f_equal. ring.
  - rewrite <- Rdiv_opp_l. f_equal. rewrite <- sum_R_map_opp. f_equal.
    apply map_ext. intros k. rewrite phase_of_opp. rewrite <- sin_neg. f_equal. ring.
Qed.

(** X13. At a wavevector whose three selected components are 0, and for a
    multiplicity of at least 1, the phase factor is exactly 1, whatever the
    shortest vectors are. *)
Theorem phase_factor_at_zero_wavevector
    (q : list R) (shortest_vectors : Darray R) (multiplicity : Iarray) pi0 si qi :
  (1 <= aref 0 (i_data multiplicity)
          (si * aref 0 (i_dims multiplicity) 1 + pi0))%Z ->
  (forall j, (0 <= j < 3)%Z -> aref 0 q (qi * 3 + j) = 0) ->
  get_phase_factor_R q shortest_vectors multiplicity pi0 si qi
  = lapack_make_complex_double 1 0.
Proof.
  intros Hm Hq. unfold get_phase_factor_R, get_phase_factor.
  set (m := aref 0%Z (i_data multiplicity) _) in *.
  rewrite phase_sums_sum. cbn [fst snd ddiv of_int Double_R].
  assert (Hpos : 0 < IZR m) by (apply IZR_lt; lia).
  f_equal.
  - erewrite (map_ext _ (fun _ => 1)).
    + rewrite sum_R_map_const, length_seqZ_INR by lia. field. lra.
    + intros k. rewrite phase_of_dot, !Hq by lia.
      replace (M_2PI_R * (0 * _ + 0 * _ + 0 * _)) with 0 by ring. apply cos_0.
  - erewrite (map_ext _ (fun _ => 0)).
    + rewrite sum_R_map_const. field. lra.
    + intros k. rewrite phase_of_dot, !Hq by lia.
      replace (M_2PI_R * (0 * _ + 0 * _ + 0 * _)) with 0 by ring. apply sin_0.
Qed.

End PhaseMore.

(** X14. A multiplicity of zero is not rejected.  In binary64, whatever
    [cos], [sin] and [M_2PI] are, when the multiplicity read for the pair is
    0 the loop adds nothing and both parts of the result are 0 / 0, a
    NaN. *)
Theorem phase_factor_zero_multiplicity
    (DT : DoubleTrig float) (M_2PI : float)
    (q : list float) (shortest_vectors : Darray float) (multiplicity : Iarray)
    pi0 si qi :
  aref 0 (i_data multiplicity) (si * aref 0 (i_dims multiplicity) 1 + pi0) = 0 ->
  get_phase_factor M_2PI q shortest_vectors multiplicity pi0 si qi
  = lapack_make_complex_double nan nan.
Proof.
  intros Hm. unfold get_phase_factor. rewrite Hm. reflexivity.
Qed.

(** * The occupation functions and the Gaussian *)

Section OccupationLaws.
Local Open Scope R_scope.

Lemma bose_einstein_R x t :
  bose_einstein x t = 1 / (exp (THZTOEVPARKB * x / t) - 1).
Proof. reflexivity. Qed.

Lemma gaussian_R x sigma :
  gaussian x sigma = INVSQRT2PI / sigma * exp (- x * x / 2 / sigma / sigma).
Proof. reflexivity. Qed.

Lemma inv_sinh_occupation_R x t :
  inv_sinh_occupation x t = 1 / sinh (x * THZTOEVPARKB / 2 / t).
Proof. reflexivity. Qed.

Lemma THZTOEVPARKB_pos : 0 < THZTOEVPARKB.
Proof. cbn. lra. Qed.

Lemma INVSQRT2PI_pos : 0 < INVSQRT2PI.
Proof. cbn. lra. Qed.

Lemma exp_eq_1 y : exp y = 1 -> y = 0.
Proof.
  intros He. destruct (Rtotal_order y 0) as [Hlt | [-> | Hgt]]; [| done |].
  - pose proof (exp_increasing y 0 Hlt) as H. rewrite exp_0 in H. lra.
  - pose proof (exp_increasing 0 y Hgt) as H. rewrite exp_0 in H. lra.
Qed.

Lemma exp_le (a b : R) : a <= b -> exp a <= exp b.
Proof.
  intros [Hlt | ->]; [| lra]. left. by apply exp_increasing.
Qed.

Lemma sqr_le_abs (x y : R) : Rabs x <= Rabs y -> x * x <= y * y.
Proof.
  intros H. replace (x * x) with (Rabs x * Rabs x).
  - replace (y * y) with (Rabs y * Rabs y).
    + pose proof (Rabs_pos x). nra.
    + unfold Rabs. destruct (Rcase_abs y); ring.
  - unfold Rabs. destruct (Rcase_abs x); ring.
Qed.

(** X15. The Gaussian.  For a positive [sigma], [gaussian] is even in [x],
    positive, equal to [INVSQRT2PI / sigma] at 0, nowhere above that value,
    and decreasing in [|x|]. *)
Theorem gaussian_shape (x y sigma : R) :
  0 < sigma ->
  gaussian (- x) sigma = gaussian x sigma /\
  0 < gaussian x sigma /\
  gaussian 0 sigma = INVSQRT2PI / sigma /\
  gaussian x sigma <= gaussian 0 sigma /\
  (Rabs x <= Rabs y -> gaussian y sigma <= gaussian x sigma).
Proof.
  intros Hs. rewrite !gaussian_R.
  assert (Hc : 0 < INVSQRT2PI / sigma).
  { apply Rdiv_lt_0_compat; [apply INVSQRT2PI_pos | done]. }
  assert (Hmono : forall u v, u * u <= v * v ->
            INVSQRT2PI / sigma * exp (- v * v / 2 / sigma / sigma)
            <= INVSQRT2PI / sigma * exp (- u * u / 2 / sigma / sigma)).
  { intros u v Huv. apply Rmult_le_compat_l; [lra |]. apply exp_le.
    assert (Hi : 0 < / sigma) by (by apply Rinv_0_lt_compat).
    unfold Rdiv.
    assert (Hii : 0 <= / 2 * / sigma * / sigma).
    { apply Rmult_le_pos; [apply Rmult_le_pos |]; lra. }
    replace (- v * v * / 2 * / sigma * / sigma)
      with (- ((v * v) * (/ 2 * / sigma * / sigma))) by ring.
    replace (- u * u * / 2 * / sigma * / sigma)
      with (- ((u * u) * (/ 2 * / sigma * / sigma))) by ring.
    apply Ropp_le_contravar. by apply Rmult_le_compat_r. }
  split; [| split; [| split; [| split]]].
  - f_equal. f_equal. unfold Rdiv. ring.
  - apply Rmult_lt_0_compat; [done | apply exp_pos].
  - replace (- 0 * 0 / 2 / sigma / sigma) with 0 by (unfold Rdiv; ring).
    rewrite exp_0. ring.
  - apply Hmono. nra.
  - intros Hxy. apply Hmono. by apply sqr_le_abs.
Qed.

(** X16. The Bose-Einstein occupation.  For a nonzero frequency and a
    nonzero temperature, the occupations at [x] and at [-x] add up to -1;
    and for a positive frequency and temperature the occupation is
    positive. *)
Theorem bose_einstein_reflection (x t : R) :
  x <> 0 -> t <> 0 ->
  bose_einstein x t + bose_einstein (- x) t = - 1 /\
  (0 < x -> 0 < t -> 0 < bose_einstein x t).
Proof.
  intros Hx Ht. rewrite !bose_einstein_R.
  set (y := THZTOEVPARKB * x / t).
  assert (Hy : y <> 0).
  { unfold y, Rdiv. pose proof THZTOEVPARKB_pos.
    apply Rmult_integral_contrapositive_currified.
    - apply Rmult_integral_contrapositive_currified; lra.
    - by apply Rinv_neq_0_compat. }
  assert (He : exp y <> 1) by (intros He; by apply exp_eq_1 in He).
  split.
  - replace (THZTOEVPARKB * - x / t) with (- y) by (unfold y, Rdiv; ring).
    rewrite exp_Ropp. pose proof (exp_pos y). field. lra.
  - intros Hx0 Ht0.
    assert (0 < y).
    { unfold y, Rdiv. pose proof THZTOEVPARKB_pos.
      apply Rmult_lt_0_compat; [nra | by apply Rinv_0_lt_compat]. }
    pose proof (exp_increasing 0 y ltac:(done)) as Hi. rewrite exp_0 in Hi.
    apply Rdiv_lt_0_compat; lra.
Qed.

(** X17. The two occupation functions are tied together: for a nonzero
    frequency and temperature, the square of [inv_sinh_occupation x t] is
    [4 * n * (n + 1)] with [n = bose_einstein x t]; and
    [inv_sinh_occupation] is odd in [x]. *)
Theorem inv_sinh_occupation_square (x t : R) :
  x <> 0 -> t <> 0 ->
  inv_sinh_occupation x t * inv_sinh_occupation x t
  = 4 * bose_einstein x t * (bose_einstein x t + 1) /\
  inv_sinh_occupation (- x) t = - inv_sinh_occupation x t.
Proof.
  intros Hx Ht. rewrite !inv_sinh_occupation_R, !bose_einstein_R.
  set (h := x * THZTOEVPARKB / 2 / t).
  assert (Hh : h <> 0).
  { intros H0. pose proof THZTOEVPARKB_pos.
    assert (H1 : x * THZTOEVPARKB = h * (2 * t)) by (unfold h; field; done).
    rewrite H0, Rmult_0_l in H1. apply Rmult_integral in H1. destruct H1; lra. }
  replace (THZTOEVPARKB * x / t) with (h + h) by (unfold h; field; done).
  replace (- x * THZTOEVPARKB / 2 / t) with (- h) by (unfold h, Rdiv; ring).
  unfold sinh. rewrite Ropp_involutive, exp_plus, !exp_Ropp.
  pose proof (exp_pos h) as Hp.
  assert (He : exp h <> 1) by (intros He; by apply exp_eq_1 in He).
  assert (He2 : exp h * exp h - 1 <> 0) by nra.
  assert (He3 : exp h - / exp h <> 0).
  { intros H0. apply He2. apply (Rmult_eq_compat_l (exp h)) in H0.
    rewrite Rmult_0_r in H0. rewrite <- H0. field. lra. }
  split.
  - field. split; lra.
  - field. repeat split; lra.
Qed.

End OccupationLaws.

(** * Runs of the further properties on the one-atom crystal *)

Lemma demo_request_in_range : Forall (in_range demo_done) (i_data demo_request).
Proof. repeat constructor; unfold in_range; simpl; lia. Qed.

Lemma demo_slots_in_range :
  Forall (slot_in_range 3 (demo_frequencies (F := float))
            (demo_eigenvectors (F := float))) [1; 1; 0].
Proof. repeat constructor; simpl; lia. Qed.

Lemma undone_count_bounds_witness :
  request_ok demo_request /\
  Forall (in_range demo_done) (i_data demo_request) /\
  let r := collect_undone_grid_points demo_done
             (aref 0 (i_dims demo_request) 0) (i_data demo_request) in
  0 <= r.1.1 <= 3 /\ r.1.1 <= 2 /\
  Z.of_nat (length (filter (fun v => v = 0) r.2)) = 2 - r.1.1.
Proof.
  assert (Hok : request_ok demo_request) by reflexivity.
  pose proof (undone_count_bounds demo_done demo_request Hok demo_request_in_range)
    as Hb.
  cbn zeta in Hb. destruct Hb as (_ & Hreq & Hflags & Hzeros & _).
  split; [exact Hok |]. split; [exact demo_request_in_range |].
  cbn zeta. split; [exact Hreq |]. split; [exact Hflags |]. exact Hzeros.
Defined.

Lemma selected_in_request_order_witness :
  request_ok (mkIarray [4] [1; 0; 1; 2]) /\
  Forall (in_range [0; 0; 1]) [1; 0; 1; 2] /\
  (collect_undone_grid_points [0; 0; 1] 4 [1; 0; 1; 2]).1.2 = [1; 0].
Proof.
  assert (Hok : request_ok (mkIarray [4] [1; 0; 1; 2])) by reflexivity.
  assert (Hr : Forall (in_range [0; 0; 1]) (i_data (mkIarray [4] [1; 0; 1; 2]))).
  { repeat constructor; unfold in_range; simpl; lia. }
  split; [exact Hok |]. split; [exact Hr |].
  exact (selected_in_request_order [0; 0; 1] (mkIarray [4] [1; 0; 1; 2]) Hok Hr).
Defined.

Lemma batch_call_concat_witness :
  let first := mkIarray [2] [1; 1] in
  let second := mkIarray [1] [0] in
  request_ok first /\ request_ok second /\ request_ok demo_request /\
  i_data demo_request = i_data first ++ i_data second /\
  let r := batch_call (F := float) (DY := one_atom_dynmat) (LW := checking_lapack)
             demo_polar_unit demo_frequencies demo_eigenvectors demo_done first in
  batch_call (DY := one_atom_dynmat) (LW := checking_lapack)
    demo_polar_unit r.1.1 r.1.2 r.2 second =
  batch_call (DY := one_atom_dynmat) (LW := checking_lapack)
    demo_polar_unit demo_frequencies demo_eigenvectors demo_done demo_request.
Proof.
  cbn zeta.
  split; [reflexivity |]. split; [reflexivity |]. split; [reflexivity |].
  split; [reflexivity |].
  exact (batch_call_concat (F := float) (DY := one_atom_dynmat)
           (LW := checking_lapack) demo_polar_unit demo_frequencies
           demo_eigenvectors demo_done (mkIarray [2] [1; 1]) (mkIarray [1] [0])
           demo_request eq_refl eq_refl eq_refl eq_refl).
Defined.

Lemma batch_solves_each_slot_witness :
  let t : Tables float := demo_polar_unit in
  let r := batch_call (DY := one_atom_dynmat) (LW := checking_lapack)
             t demo_frequencies demo_eigenvectors demo_done demo_request in
  request_ok demo_request /\
  Forall (in_range demo_done) (i_data demo_request) /\
  Forall (slot_in_range 3 demo_frequencies demo_eigenvectors) (i_data demo_request) /\
  3 = num_band_of t /\
  zheev_local (checking_lapack (F := float)) 3 /\
  zheev_own (checking_lapack (F := float)) 3 /\
  (frequencies_at 3 r.1.1 1, eigenvectors_at 3 r.1.2 1)
  = slot_result (DY := one_atom_dynmat) (LW := checking_lapack) t 1
      (frequencies_at 3 demo_frequencies 1) (eigenvectors_at 3 demo_eigenvectors 1).
Proof.
  cbn zeta.
  assert (Hok : request_ok demo_request) by reflexivity.
  assert (Hown : zheev_own (checking_lapack (F := float)) 3)
    by (apply checking_lapack_own; lia).
  assert (Hnb0 : 0 <= aref 0 (d_dims (demo_frequencies (F := float))) 1)
    by (change (0 <= 3); lia).
  pose proof (batch_solves_each_slot (F := float) (DY := one_atom_dynmat)
                (LW := checking_lapack) demo_polar_unit demo_frequencies
                demo_eigenvectors demo_done demo_request
                Hok demo_request_in_range demo_slots_in_range eq_refl Hnb0
                (checking_lapack_local 3) Hown) as (Hslot & _).
  split; [exact Hok |]. split; [exact demo_request_in_range |].
  split; [exact demo_slots_in_range |]. split; [reflexivity |].
  split; [exact (checking_lapack_local 3) |]. split; [exact Hown |].
  apply Hslot; [apply list_elem_of_here | reflexivity].
Defined.

Lemma undone_order_irrelevant_witness :
  let t : Tables float := demo_polar_unit in
  3 = num_band_of t /\
  zheev_local (checking_lapack (F := float)) 3 /\
  zheev_own (checking_lapack (F := float)) 3 /\
  NoDup [1; 0] /\ [1; 0] ≡ₚ [0; 1] /\
  Forall (slot_in_range 3 (demo_frequencies (F := float)) demo_eigenvectors) [1; 0] /\
  frequencies_at 3
    (undone_call (DY := one_atom_dynmat) (LW := checking_lapack)
       t demo_frequencies demo_eigenvectors [1; 0]).1 1
  = frequencies_at 3
      (undone_call (DY := one_atom_dynmat) (LW := checking_lapack)
         t demo_frequencies demo_eigenvectors [0; 1]).1 1.
Proof.
  cbn zeta.
  assert (Hown : zheev_own (checking_lapack (F := float)) 3)
    by (apply checking_lapack_own; lia).
  assert (Hnb0 : 0 <= aref 0 (d_dims (demo_frequencies (F := float))) 1)
    by (change (0 <= 3); lia).
  assert (Hnd : NoDup [1; 0]) by (by apply (bool_decide_unpack _)).
  assert (Hp : [1; 0] ≡ₚ [0; 1]) by apply perm_swap.
  assert (Hs : Forall (slot_in_range 3 (demo_frequencies (F := float))
                         demo_eigenvectors) [1; 0]).
  { repeat constructor; simpl; lia. }
  assert (H1 : 0 <= 1) by lia.
  pose proof (undone_order_irrelevant (F := float) (DY := one_atom_dynmat)
                (LW := checking_lapack) demo_polar_unit demo_frequencies
                demo_eigenvectors [1; 0] [0; 1] 1 eq_refl Hnb0
                (checking_lapack_local 3) Hown Hnd Hp Hs H1) as [Hf _].
  split; [reflexivity |]. split; [exact (checking_lapack_local 3) |].
  split; [exact Hown |]. split; [exact Hnd |]. split; [exact Hp |].
  split; [exact Hs | exact Hf].
Defined.

Lemma get_phonons_writes_own_cells_witness :
  let t : Tables float := demo_tables in
  let w := [0; 0; 0; 7]%float in
  let a := replicate 9 czero ++ [lapack_make_complex_double 7 7]%float in
  let q := [0; 0; 0]%float in
  let r := solve_q (DY := one_atom_dynmat) (LW := diagonal_lapack) t None a w q in
  zheev_local (diagonal_lapack (F := float)) (num_band_of t) /\
  length r.2 = 4%nat /\ drop 3 r.2 = [7]%float /\
  length r.1.2 = 10%nat /\
  drop 9 r.1.2 = [lapack_make_complex_double 7 7]%float.
Proof.
  cbn zeta.
  assert (Hloc : zheev_local (diagonal_lapack (F := float))
                   (num_band_of (demo_tables (F := float)))).
  { intros w a uplo. apply diagonal_zheev_local. }
  pose proof (get_phonons_writes_own_cells (F := float) (DY := one_atom_dynmat)
                (LW := diagonal_lapack) demo_tables None
                (replicate 9 czero ++ [lapack_make_complex_double 7 7]%float)
                [0; 0; 0; 7]%float [0; 0; 0]%float Hloc) as (Hlw & Hw & Hla & Ha).
  split; [exact Hloc |]. split; [exact Hlw |]. split; [exact Hw |].
  split; [exact Hla | exact Ha].
Defined.

Lemma zero_address_off_index_zero_witness :
  let t : Tables R := demo_repeated_origin in
  let st := (demo_frequencies, demo_eigenvectors) in
  let d := Some [1; 0; 0]%R in
  1 <> 0 /\
  (forall j, 0 <= j < 3 -> aref 0 (grid_address t) (1 * 3 + j) = 0) /\
  (forall j, 0 <= j < 3 -> aref 0 (mesh t) j <> 0) /\
  solve_point (DY := one_atom_dynmat) (LW := diagonal_lapack)
    (with_direction t d) st 1
  = solve_point (DY := one_atom_dynmat) (LW := diagonal_lapack)
      (with_born t None) st 1.
Proof.
  cbn zeta.
  assert (H1 : 1 <> 0) by lia.
  assert (Ha : forall j, 0 <= j < 3 ->
            aref 0 (grid_address (demo_repeated_origin (F := R))) (1 * 3 + j) = 0).
  { intros j Hj. assert (Hc : j = 0 \/ j = 1 \/ j = 2) by lia.
    destruct Hc as [-> | [-> | ->]]; reflexivity. }
  assert (Hm : forall j, 0 <= j < 3 ->
            aref 0 (mesh (demo_repeated_origin (F := R))) j <> 0).
  { intros j Hj. assert (Hc : j = 0 \/ j = 1 \/ j = 2) by lia.
    destruct Hc as [-> | [-> | ->]]; discriminate. }
  split; [exact H1 |]. split; [exact Ha |]. split; [exact Hm |].
  exact (proj2 (zero_address_off_index_zero (DY := one_atom_dynmat)
                  (LW := diagonal_lapack) demo_repeated_origin
                  (demo_frequencies, demo_eigenvectors) 1 H1 Ha Hm
                  (Some [1; 0; 0]%R))).
Defined.

Lemma direction_replaces_q_witness :
  let t : Tables float := demo_polar_unit in
  let d := [1; 0; 0]%float in
  born t = Some (map of_int [1; 1; 1; 0; 1; 0; 0; 0; 1]) /\
  charge_sum_of (DY := one_atom_dynmat) t (Some d) [0; 0; 0]%float
  = charge_sum_of (DY := one_atom_dynmat) t (Some d) [0.5; 0; 0]%float.
Proof.
  cbn zeta. split; [reflexivity |].
  exact (proj1 (proj2 (direction_replaces_q (F := float) (DY := one_atom_dynmat)
                         demo_polar_unit [1; 0; 0]%float [0.5; 0; 0]%float
                         [0; 0; 0]%float
                         (map of_int [1; 1; 1; 0; 1; 0; 0; 0; 1]) eq_refl))).
Defined.

Lemma zero_direction_divides_by_zero_witness :
  let t : Tables float := demo_polar_unit in
  let d := [0; 0; 0]%float in
  let q := [0.5; 0; 0]%float in
  born t = Some (map float_of_Z [1; 1; 1; 0; 1; 0; 0; 0; 1]) /\
  (forall j, 0 <= j < 3 -> PrimFloat.is_zero (aref 0%float d j) = true) /\
  (forall k, 0 <= k < 9 ->
     PrimFloat.is_finite (aref 0%float (reciprocal_lattice t) k) = true) /\
  (forall k, 0 <= k < 9 -> PrimFloat.is_finite (aref 0%float (dielectric t) k) = true) /\
  inv_dielectric_factor (dielectric t)
    (nac_q_cart q (reciprocal_lattice t) (Some d)) = 0%float /\
  charge_sum_of (DY := one_atom_dynmat) t (Some d) q
  = Some (get_charge_sum (Dynmat := one_atom_dynmat) 1 infinity [0; 0; 0]%float
            (map float_of_Z [1; 1; 1; 0; 1; 0; 0; 0; 1])).
Proof.
  cbn zeta.
  assert (Hcells : forall (l : list float) k,
            forallb PrimFloat.is_finite l = true -> PrimFloat.is_finite (aref 0%float l k) = true).
  { intros l k Hl. unfold aref. generalize (Z.to_nat k). intros n.
    revert l Hl. induction n as [| n IH]; intros [| x l] Hl; try reflexivity.
    - cbn in Hl. apply andb_prop in Hl. apply Hl.
    - cbn in Hl. apply andb_prop in Hl. apply IH, Hl. }
  assert (Hd : forall j, 0 <= j < 3 -> PrimFloat.is_zero (aref 0%float [0; 0; 0]%float j) = true).
  { intros j _. unfold aref. generalize (Z.to_nat j).
    intros [| [| [| [| k]]]]; reflexivity. }
  assert (Hrl : forall k, 0 <= k < 9 ->
            PrimFloat.is_finite (aref 0%float
                         (reciprocal_lattice (demo_polar_unit (F := float))) k) = true).
  { intros k _. apply Hcells. vm_compute. reflexivity. }
  assert (He : forall k, 0 <= k < 9 ->
            PrimFloat.is_finite (aref 0%float
                         (dielectric (demo_polar_unit (F := float))) k) = true).
  { intros k _. apply Hcells. vm_compute. reflexivity. }
  assert (Hb : born (demo_polar_unit (F := float))
               = Some (map float_of_Z [1; 1; 1; 0; 1; 0; 0; 0; 1])) by reflexivity.
  destruct (zero_direction_divides_by_zero (DY := one_atom_dynmat) demo_polar_unit
              [0; 0; 0]%float [0.5; 0; 0]%float
              (map float_of_Z [1; 1; 1; 0; 1; 0; 0; 0; 1]) Hb Hd Hrl He)
    as (_ & Hinv & _ & Hsum).
  split; [exact Hb |]. split; [exact Hd |]. split; [exact Hrl |].
  split; [exact He |]. split; [exact Hinv |]. exact Hsum.
Defined.

Lemma aref_map_IZR (l : list Z) i : aref 0%R (map IZR l) i = IZR (aref 0 l i).
Proof. unfold aref. by rewrite <- (map_nth IZR l 0). Qed.

Lemma hermitize_fixes_hermitian_witness :
  let dm_real := map IZR [1; 2; 3; 2; 4; 5; 3; 5; 6] in
  let dm_imag := map IZR [0; 1; 2; -1; 0; 3; -2; -3; 0] in
  let a : list (lapack_complex_double R) := replicate 9 czero in
  let m := hermitize 1 dm_real dm_imag a in
  1 * 3 * (1 * 3) <= Z.of_nat (length a) /\
  aref czero m (1 * 3 + 1) = lapack_make_complex_double 4%R 0%R /\
  aref czero m (0 * 3 + 2) = lapack_make_complex_double 3%R 2%R.
Proof.
  cbn zeta.
  assert (Hlen : 1 * 3 * (1 * 3)
                 <= Z.of_nat (length (replicate 9 (czero : lapack_complex_double R))))
    by (change (9 <= 9); lia).
  pose proof (hermitize_fixes_hermitian 1 (map IZR [1; 2; 3; 2; 4; 5; 3; 5; 6])
                (map IZR [0; 1; 2; -1; 0; 3; -2; -3; 0]) (replicate 9 czero) Hlen)
    as [Hdiag Hfix].
  split; [exact Hlen |]. split.
  - change (1 * 3 + 1) with (1 * (1 * 3) + 1). rewrite Hdiag by lia.
    rewrite aref_map_IZR. reflexivity.
  - change (0 * 3 + 2) with (0 * (1 * 3) + 2). rewrite Hfix; [| | lia | lia].
    + rewrite !aref_map_IZR. reflexivity.
    + intros i j Hi Hj. rewrite !aref_map_IZR, <- opp_IZR.
      assert (Hci : i = 0 \/ i = 1 \/ i = 2) by lia.
      assert (Hcj : j = 0 \/ j = 1 \/ j = 2) by lia.
      destruct Hci as [-> | [-> | ->]], Hcj as [-> | [-> | ->]];
        split; reflexivity.
Defined.

Lemma frequency_round_trip_witness :
  (2 <> 0)%R /\
  let f := frequency 2%R (-4)%R in
  (f / 2 * Rabs (f / 2) = -4)%R /\
  Rabs f = (R_sqrt.sqrt (Rabs (-4)) * Rabs 2)%R.
Proof.
  assert (H2 : (2 <> 0)%R) by lra.
  pose proof (frequency_round_trip 2%R (-4)%R H2) as Hr. cbn zeta in Hr.
  destruct Hr as (Hback & Habs & _).
  split; [exact H2 |]. cbn zeta. split; [exact Hback | exact Habs].
Defined.

Lemma phase_factor_at_zero_wavevector_witness :
  let q : list R := [0; 0; 0]%R in
  let shortest_vectors : Darray R := mkDarray [1; 1; 2; 3] [0; 0; 0; 1; 0; 0]%R in
  let multiplicity := mkIarray [1; 1] [2] in
  1 <= aref 0 (i_data multiplicity) (0 * aref 0 (i_dims multiplicity) 1 + 0) /\
  (forall j, 0 <= j < 3 -> aref 0%R q (0 * 3 + j) = 0%R) /\
  get_phase_factor_R q shortest_vectors multiplicity 0 0 0
  = lapack_make_complex_double 1%R 0%R.
Proof.
  cbn zeta.
  assert (H1 : 1 <= aref 0 (i_data (mkIarray [1; 1] [2]))
                      (0 * aref 0 (i_dims (mkIarray [1; 1] [2])) 1 + 0))
    by (change (1 <= 2); lia).
  assert (Hq : forall j, 0 <= j < 3 -> aref 0%R [0; 0; 0]%R (0 * 3 + j) = 0%R).
  { intros j _. unfold aref. generalize (Z.to_nat (0 * 3 + j)).
    intros [| [| [| [| k]]]]; reflexivity. }
  split; [exact H1 |]. split; [exact Hq |].
  exact (phase_factor_at_zero_wavevector [0; 0; 0]%R
           (mkDarray [1; 1; 2; 3] [0; 0; 0; 1; 0; 0]%R) (mkIarray [1; 1] [2])
           0 0 0 H1 Hq).
Defined.

Lemma phase_factor_zero_multiplicity_witness :
  let trig : DoubleTrig float :=
    {| dcos := fun _ => 1%float; dsin := fun _ => 0%float |} in
  let multiplicity := mkIarray [1; 1] [0] in
  aref 0 (i_data multiplicity) (0 * aref 0 (i_dims multiplicity) 1 + 0) = 0 /\
  get_phase_factor (DT := trig) 0x1.921fb54442d18p+2%float [0.5; 0; 0]%float
    (mkDarray [1; 1; 2; 3] [0; 0; 0; 1; 0; 0]%float) multiplicity 0 0 0
  = lapack_make_complex_double nan nan.
Proof.
  cbn zeta. split; [reflexivity |].
  exact (phase_factor_zero_multiplicity
           {| dcos := fun _ => 1%float; dsin := fun _ => 0%float |}
           0x1.921fb54442d18p+2%float [0.5; 0; 0]%float
           (mkDarray [1; 1; 2; 3] [0; 0; 0; 1; 0; 0]%float) (mkIarray [1; 1] [0])
           0 0 0 eq_refl).
Defined.

Lemma gaussian_shape_witness :
  (0 < 1)%R /\
  (0 < gaussian 0%R 1%R)%R /\
  gaussian 0%R 1%R = (INVSQRT2PI / 1)%R /\
  (gaussian 1%R 1%R <= gaussian 0%R 1%R)%R.
Proof.
  assert (H1 : (0 < 1)%R) by lra.
  destruct (gaussian_shape 0%R 1%R 1%R H1) as (_ & Hpos & Hzero & _ & Hdec).
  split; [exact H1 |]. split; [exact Hpos |]. split; [exact Hzero |].
  apply Hdec. rewrite Rabs_R0. apply Rabs_pos.
Defined.

Lemma bose_einstein_reflection_witness :
  (1 <> 0)%R /\
  (bose_einstein 1%R 1%R + bose_einstein (- 1)%R 1%R = - 1)%R /\
  (0 < bose_einstein 1%R 1%R)%R.
Proof.
  assert (H1 : (1 <> 0)%R) by lra.
  destruct (bose_einstein_reflection 1%R 1%R H1 H1) as [Hsum Hpos].
  split; [exact H1 |]. split; [exact Hsum |]. apply Hpos; lra.
Defined.

Lemma inv_sinh_occupation_square_witness :
  (1 <> 0)%R /\
  (inv_sinh_occupation 1%R 1%R * inv_sinh_occupation 1%R 1%R
   = 4 * bose_einstein 1%R 1%R * (bose_einstein 1%R 1%R + 1))%R.
Proof.
  assert (H1 : (1 <> 0)%R) by lra.
  split; [exact H1 |].
  exact (proj1 (inv_sinh_occupation_square 1%R 1%R H1 H1)).
Defined.

Lemma demo_undone_slots :
  Forall (slot_in_range 3 (demo_frequencies (F := float))
            (demo_eigenvectors (F := float))) [1; 0].
Proof. repeat constructor; simpl; lia. Qed.

Lemma limiting_direction_threading_witness :
  let t : Tables float := demo_polar_unit in
  let run (direction : option (list float)) :=
    get_undone_phonons (DY := one_atom_dynmat) (LW := diagonal_lapack)
      demo_frequencies demo_eigenvectors [1; 0] 2
      (grid_address t) (mesh t) (fc2 t) (svecs_fc2 t) (multi_fc2 t)
      (masses_fc2 t) (p2s_fc2 t) (s2p_fc2 t) (unit_conversion_factor t) (born t)
      (dielectric t) (reciprocal_lattice t) direction (nac_factor t) (uplo t) in
  let d := Some [1; 0; 0]%float in
  3 = num_band_of t /\
  zheev_local (diagonal_lapack (F := float)) 3 /\
  zheev_own (diagonal_lapack (F := float)) 3 /\
  NoDup [1; 0] /\
  Forall (slot_in_range 3 (demo_frequencies (F := float)) demo_eigenvectors) [1; 0] /\
  frequencies_at 3 (run d).1 0 = map PrimFloat.sqrt [2; 5; 10]%float /\
  frequencies_at 3 (run None).1 0 = [1; 2; 3]%float /\
  frequencies_at 3 (run None).1 1 = frequencies_at 3 (run d).1 1 /\
  frequencies_at 3 (run d).1 1 = map PrimFloat.sqrt [2; 5; 10]%float.
Proof.
  cbn zeta.
  assert (Hloc : zheev_local (diagonal_lapack (F := float)) 3)
    by apply diagonal_lapack_local.
  assert (Hown : zheev_own (diagonal_lapack (F := float)) 3)
    by (apply diagonal_lapack_own; lia).
  assert (Hnb0 : 0 <= aref 0 (d_dims (demo_frequencies (F := float))) 1)
    by (change (0 <= 3); lia).
  assert (Hnd : NoDup [1; 0]) by (by apply (bool_decide_unpack _)).
  pose proof (limiting_direction_threading (F := float) (DY := one_atom_dynmat)
                (LW := diagonal_lapack) demo_polar_unit demo_frequencies
                demo_eigenvectors [1; 0] (Some [1; 0; 0]%float)
                eq_refl Hnb0 Hloc Hown Hnd demo_undone_slots) as (Hslot & Hother & _).
  pose proof (limiting_direction_threading (F := float) (DY := one_atom_dynmat)
                (LW := diagonal_lapack) demo_polar_unit demo_frequencies
                demo_eigenvectors [1; 0] None
                eq_refl Hnb0 Hloc Hown Hnd demo_undone_slots) as (Hnone & _ & _).
  assert (H0 : 0 ∈ [1; 0]) by (apply list_elem_of_further, list_elem_of_here).
  assert (H1 : 1 ∈ [1; 0]) by apply list_elem_of_here.
  split; [reflexivity |]. split; [exact Hloc |]. split; [exact Hown |].
  split; [exact Hnd |]. split; [exact demo_undone_slots |].
  split; [| split; [| split]].
  - destruct (Hslot 0 H0) as [Hf _]. cbn zeta in Hf.
    change (Z.of_nat (length [1; 0])) with 2 in Hf.
    change (aref 0 (d_dims (demo_frequencies (F := float))) 1) with 3 in Hf.
    rewrite Hf. vm_compute. reflexivity.
  - destruct (Hnone 0 H0) as [Hf _]. cbn zeta in Hf.
    change (Z.of_nat (length [1; 0])) with 2 in Hf.
    change (aref 0 (d_dims (demo_frequencies (F := float))) 1) with 3 in Hf.
    rewrite Hf. vm_compute. reflexivity.
  - assert (Hne : 1 <> 0) by lia.
    destruct (Hother 1 None H1 Hne) as [Hf _]. exact Hf.
  - destruct (Hslot 1 H1) as [Hf _]. cbn zeta in Hf.
    change (Z.of_nat (length [1; 0])) with 2 in Hf.
    change (aref 0 (d_dims (demo_frequencies (F := float))) 1) with 3 in Hf.
    rewrite Hf. vm_compute. reflexivity.
Defined.

Lemma failed_point_stays_done_witness :
  let t : Tables float := demo_soft_tables in
  let r := batch_call (DY := one_atom_dynmat) (LW := stalled_lapack)
             t demo_frequencies demo_eigenvectors demo_done demo_request in
  let again := mkIarray [2] [1; 0] in
  request_ok demo_request /\
  Forall (in_range demo_done) (i_data demo_request) /\
  Forall (slot_in_range 3 (demo_frequencies (F := float)) demo_eigenvectors)
    (i_data demo_request) /\
  3 = num_band_of t /\
  zheev_local (stalled_lapack (F := float)) 3 /\
  zheev_own (stalled_lapack (F := float)) 3 /\
  1 ∈ i_data demo_request /\ aref 0 demo_done 1 = 0 /\
  (solve_q (DY := one_atom_dynmat) (LW := stalled_lapack) t None
     (replicate 9 czero) [0; 0; 0]%float
     (grid_point_q (grid_address t) (mesh t) 1)).1.1 = 1 /\
  frequencies_at 3 r.1.1 1 = [-2; 1; 3]%float /\
  aref 0 r.2 1 <> 0 /\
  (1 ∉ selected (run_batches (DY := one_atom_dynmat) (LW := stalled_lapack)
                   t r [demo_request]).2 again) /\
  frequencies_at 3
    (run_batches (DY := one_atom_dynmat) (LW := stalled_lapack)
       t r [demo_request; again]).1.1 1
  = [-2; 1; 3]%float.
Proof.
  cbn zeta.
  assert (Hok : request_ok demo_request) by reflexivity.
  assert (Hr : Forall (in_range demo_done) (i_data demo_request)).
  { repeat constructor; unfold in_range; simpl; lia. }
  assert (Hs : Forall (slot_in_range 3 (demo_frequencies (F := float))
                         demo_eigenvectors) (i_data demo_request)).
  { repeat constructor; simpl; lia. }
  assert (Hloc : zheev_local (stalled_lapack (F := float)) 3)
    by apply stalled_lapack_local.
  assert (Hown : zheev_own (stalled_lapack (F := float)) 3)
    by (apply stalled_lapack_own; lia).
  assert (Hnb0 : 0 <= aref 0 (d_dims (demo_frequencies (F := float))) 1)
    by (change (0 <= 3); lia).
  assert (Hin : 1 ∈ i_data demo_request) by (apply list_elem_of_here).
  assert (Hz : aref 0 demo_done 1 = 0) by reflexivity.
  destruct (failed_point_stays_done (F := float) (DY := one_atom_dynmat)
              (LW := stalled_lapack) demo_soft_tables demo_frequencies
              demo_eigenvectors demo_done demo_request 1
              Hok Hr Hs eq_refl Hnb0 Hloc Hown Hin Hz)
    as (Hget & Hslot & _ & Hflag & Hlater & Hkeep).
  assert (Hslot' :
            frequencies_at 3
              (batch_call (DY := one_atom_dynmat) (LW := stalled_lapack)
                 demo_soft_tables demo_frequencies demo_eigenvectors demo_done
                 demo_request).1.1 1 = [-2; 1; 3]%float).
  { change (aref 0 (d_dims (demo_frequencies (F := float))) 1) with 3 in Hslot.
    rewrite Hslot. vm_compute. reflexivity. }
  split; [exact Hok |]. split; [exact Hr |]. split; [exact Hs |].
  split; [reflexivity |]. split; [exact Hloc |]. split; [exact Hown |].
  split; [exact Hin |]. split; [exact Hz |].
  split.
  { assert (Hlen : aref 0 (d_dims (demo_frequencies (F := float))) 1
                   <= Z.of_nat (length [0; 0; 0]%float)) by (change (3 <= 3); lia).
    destruct (Hget None (replicate 9 czero) [0; 0; 0]%float
                (grid_point_q (grid_address (demo_soft_tables (F := float)))
                   (mesh (demo_soft_tables (F := float))) 1) Hlen) as [Hst _].
    rewrite Hst. vm_compute. reflexivity. }
  split; [exact Hslot' |]. split; [exact Hflag |].
  split; [exact (proj1 (Hlater [demo_request] (mkIarray [2] [1; 0]) [])) |].
  destruct (Hkeep [demo_request; mkIarray [2] [1; 0]]) as [Hf _].
  { repeat constructor; reflexivity || (simpl; lia). }
  change (aref 0 (d_dims (demo_frequencies (F := float))) 1) with 3 in Hf.
  rewrite Hf. exact Hslot'.
Defined.
